(** * AuthKit: a shallow embedding of the rate limiters, the SIWS message
    codec, the OIDC relying party, the Argon2id PHC codec and the refresh
    session table, with the properties the specification states about them;
    and of the code around them (bcrypt detection, SIWS nonces, inputs and
    timestamps, the state cache, the request language, usernames, provider
    scopes), with further properties read off the code.

    Conventions of the embedding.
    - A Go [string] is a [string] (a sequence of bytes, [ascii]); a [[]byte]
      is a [list ascii].
    - Go integers are [Z]; where a fixed width matters the bound is stated.
    - [time.Now()] is an input of the function that reads it: the clock
      reading is passed as an extra argument ([nowNano], the value of
      [time.Now().UnixNano()]).
    - A nil-able pointer receiver is an [option]; a Go [(T, error)] result is
      a pair whose second component is an [option] of the error text.
    - Go maps are stdpp [gmap]s.  The [*bucketState] pointers the in-memory
      limiter stores are owned by the map alone, so the map is modelled by
      value. *)

From Stdlib Require Import ZArith NArith Lia Bool List Ascii String Sorted.
From Stdlib Require Import Decimal DecimalString DecimalN.
From stdpp Require Import base option list gmap strings fin_maps.

Local Open Scope string_scope.
Local Open Scope Z_scope.

(** Go [error] values are compared by their text only. *)
Definition error := string.

(** A Go result [(T, error)] of which only one component is meaningful. *)
Inductive result (A : Type) :=
  | Ok (a : A)
  | Err (e : error).
Arguments Ok {A} a.
Arguments Err {A} e.

(** [time.Duration] constants, in nanoseconds. *)
Definition Millisecond : Z := 1000000.
Definition Second : Z := 1000 * Millisecond.
Definition Minute : Z := 60 * Second.

(** [time.Duration.Milliseconds]: integer division truncated toward zero. *)
Definition Milliseconds (d : Z) : Z := Z.quot d 1000000.

(** [fmt.Sprintf("%s:%s", key, bucket)]. *)
Definition limitKeyOf (key bucket : string) : string :=
  (key ++ ":" ++ bucket)%string.

(* ================================================================== *)
(** ** Go standard-library functions the packages below call *)
(* ================================================================== *)

Module gostd.

(** [strings.Split(s, sep)] for a separator of one byte. *)
Fixpoint Split (s : string) (sep : ascii) : list string :=
  match s with
  | EmptyString => [EmptyString]
  | String c r =>
      if Ascii.eqb c sep then EmptyString :: Split r sep
      else
        match Split r sep with
        | l :: ls => String c l :: ls
        | [] => [String c EmptyString]
        end
  end.

(** [strings.Join(elems, sep)] *)
Fixpoint Join (elems : list string) (sep : string) : string :=
  match elems with
  | [] => EmptyString
  | [e] => e
  | e :: rest => (e ++ sep ++ Join rest sep)%string
  end.

(** [s] without its prefix [p], when [p] is a prefix of [s]. *)
Fixpoint stripPrefix (p s : string) : option string :=
  match p with
  | EmptyString => Some s
  | String a p' =>
      match s with
      | String b s' => if Ascii.eqb a b then stripPrefix p' s' else None
      | EmptyString => None
      end
  end.

(** [strings.HasPrefix] and [strings.TrimPrefix]. *)
Definition HasPrefix (s p : string) : bool :=
  match stripPrefix p s with Some _ => true | None => false end.

Definition TrimPrefix (s p : string) : string :=
  match stripPrefix p s with Some r => r | None => s end.

(** Whether the byte occurs in the string. *)
Fixpoint occurs (c : ascii) (s : string) : bool :=
  match s with
  | EmptyString => false
  | String a r => Ascii.eqb a c || occurs c r
  end.

(** The alphabet of [base64.StdEncoding]. *)
Definition encodeStd : string :=
  "ABCDEFGHIJKLMNOPQRSTUVWXYZabcdefghijklmnopqrstuvwxyz0123456789+/".

(** [enc.encode[v]] *)
Definition encodeChar (v : N) : ascii :=
  nth (N.to_nat v) (list_ascii_of_string encodeStd) "000"%char.

(** [enc.decodeMap[c]]: the position of [c] in the alphabet, if any. *)
Fixpoint indexOf (c : ascii) (l : list ascii) (i : N) : option N :=
  match l with
  | [] => None
  | a :: r => if Ascii.eqb a c then Some i else indexOf c r (i + 1)%N
  end.

Definition decodeChar (c : ascii) : option N :=
  indexOf c (list_ascii_of_string encodeStd) 0%N.

(** The 6-bit groups of a byte sequence: three bytes give the four groups
    of [val = b0<<16 | b1<<8 | b2]; a remainder of one or two bytes gives
    two or three groups, the unused low bits being zero. *)
Fixpoint sextets (bs : list N) : list N :=
  match bs with
  | [] => []
  | [a] => [a / 4; (a mod 4) * 16]%N
  | [a; b] => [a / 4; (a mod 4) * 16 + b / 16; (b mod 16) * 4]%N
  | a :: b :: c :: rest =>
      (a / 4)%N :: ((a mod 4) * 16 + b / 16)%N :: ((b mod 16) * 4 + c / 64)%N
        :: (c mod 64)%N :: sextets rest
  end.

(** [base64.RawStdEncoding.EncodeToString]: no padding. *)
Definition EncodeToString (src : list ascii) : string :=
  string_of_list_ascii (map encodeChar (sextets (map N_of_ascii src))).

(** The bytes of a sequence of 6-bit groups: four groups give three bytes;
    a final quantum of two or three groups gives one or two bytes (its
    unused low bits are not checked, the encoding not being strict); a
    final quantum of one group is corrupt input. *)
Fixpoint octets (vs : list N) : option (list N) :=
  match vs with
  | [] => Some []
  | [_] => None
  | [a; b] => Some [a * 4 + b / 16]%N
  | [a; b; c] => Some [a * 4 + b / 16; (b mod 16) * 16 + c / 4]%N
  | a :: b :: c :: d :: rest =>
      match octets rest with
      | Some r =>
          Some ((a * 4 + b / 16)%N :: ((b mod 16) * 16 + c / 4)%N
                  :: ((c mod 4) * 64 + d)%N :: r)
      | None => None
      end
  end.

(** All elements, if every one is present. *)
Fixpoint allSome {A} (l : list (option A)) : option (list A) :=
  match l with
  | [] => Some []
  | Some a :: r => match allSome r with Some r' => Some (a :: r') | None => None end
  | None :: _ => None
  end.

(** [base64.RawStdEncoding.DecodeString]: carriage returns and line feeds
    are skipped, any other byte outside the alphabet (the padding
    character included) is corrupt input. *)
Definition DecodeString (s : string) : result (list ascii) :=
  let cs := List.filter (λ c, negb (Ascii.eqb c "013" || Ascii.eqb c "010"))
              (list_ascii_of_string s) in
  match allSome (map decodeChar cs) with
  | None => Err "illegal base64 data"
  | Some vs =>
      match octets vs with
      | None => Err "illegal base64 data"
      | Some bs => Ok (map ascii_of_N bs)
      end
  end.

(** [%d] of [fmt.Sprintf] for an unsigned integer. *)
Definition formatUint (n : Z) : string :=
  DecimalString.NilEmpty.string_of_uint (N.to_uint (Z.to_N n)).

(** The token [%d] of [fmt.Sscanf] reads for an unsigned integer
    ([scanNumber] with the digits of base 10): the longest prefix of
    decimal digits, and the rest of the input. *)
Definition isDecimalDigit (c : ascii) : bool :=
  occurs c "0123456789".

Fixpoint scanNumber (s : string) : string * string :=
  match s with
  | EmptyString => (EmptyString, EmptyString)
  | String c r =>
      if isDecimalDigit c
      then let '(tok, rest) := scanNumber r in (String c tok, rest)
      else (EmptyString, s)
  end.

(** The space runes of [fmt] other than the line feed, as the bytes that
    encode them in UTF-8: U+0009, U+000B to U+000D and U+0020 in one byte;
    U+0085 and U+00A0 in two; U+1680, U+2000 to U+200A, U+2028, U+2029,
    U+202F, U+205F and U+3000 in three. *)
Definition isSpace1 (a : ascii) : bool :=
  let n := nat_of_ascii a in
  ((n =? 9) || ((11 <=? n) && (n <=? 13)) || (n =? 32))%nat.

Definition isSpace2 (a b : ascii) : bool :=
  let '(n, m) := (nat_of_ascii a, nat_of_ascii b) in
  ((n =? 194) && ((m =? 133) || (m =? 160)))%nat.

Definition isSpace3 (a b c : ascii) : bool :=
  let '(n, m, k) := (nat_of_ascii a, nat_of_ascii b, nat_of_ascii c) in
  (((n =? 225) && (m =? 154) && (k =? 128))
   || ((n =? 226) && (m =? 128)
       && (((128 <=? k) && (k <=? 138)) || (k =? 168) || (k =? 169) || (k =? 175)))
   || ((n =? 226) && (m =? 129) && (k =? 159))
   || ((n =? 227) && (m =? 128) && (k =? 128)))%nat.

(** [(s *ss) SkipSpace] as [Sscanf] runs it before a number: space runes
    are skipped, a line feed is an error. *)
Fixpoint skipSpace (s : string) : result string :=
  match s with
  | EmptyString => Ok s
  | String a r =>
      if Ascii.eqb a "010" then Err "unexpected newline"
      else if isSpace1 a then skipSpace r
      else
        match r with
        | EmptyString => Ok s
        | String b r' =>
            if isSpace2 a b then skipSpace r'
            else
              match r' with
              | EmptyString => Ok s
              | String c r'' => if isSpace3 a b c then skipSpace r'' else Ok s
              end
        end
  end.

(** [strconv.Quote] of a decimal numeral. *)
Definition quoteNumeral (tok : string) : string :=
  (String "034" tok ++ String "034" EmptyString)%string.

(** [%d] into a [*uint32] ([scanUint] with 32 bits): after the spaces, the
    input must not be at its end and must begin with a digit; the token is
    read by [strconv.ParseUint] in base 10 with 64 bits, and must be below
    2^32. *)
Definition scanUint32 (s : string) : result (Z * string) :=
  match skipSpace s with
  | Err e => Err e
  | Ok s =>
      if bool_decide (s = "") then Err "EOF"
      else
        let '(tok, rest) := scanNumber s in
        if bool_decide (tok = "") then Err "expected integer"
        else
          match DecimalString.NilEmpty.uint_of_string tok with
          | None =>
              Err ("strconv.ParseUint: parsing " ++ quoteNumeral tok ++ ": invalid syntax")
          | Some d =>
              let n := Z.of_N (N.of_uint d) in
              if 2 ^ 64 <=? n then
                Err ("strconv.ParseUint: parsing " ++ quoteNumeral tok
                     ++ ": value out of range")
              else if 2 ^ 32 <=? n then
                Err ("unsigned integer overflow on token " ++ tok)
              else Ok (n, rest)
          end
  end.

(** A literal of the format must be the next input, byte by byte. *)
Fixpoint scanLiteral (lit s : string) : result string :=
  match lit with
  | EmptyString => Ok s
  | String a lit' =>
      match s with
      | EmptyString => Err "unexpected EOF"
      | String b s' =>
          if Ascii.eqb a b then scanLiteral lit' s'
          else Err "input does not match format"
      end
  end.

End gostd.

(* ================================================================== *)
(** ** package siws: ConstructMessage and ParseMessage *)
(* ================================================================== *)

Module siws.

Import gostd.

Definition LF : ascii := "010"%char.
Definition nl : string := String LF EmptyString.

(** The string with the given byte values. *)
Definition bytes (l : list nat) : string :=
  string_of_list_ascii (map ascii_of_nat l).

(** The UTF-8 encodings of the code points [unicode.IsSpace] accepts:
    U+0009..U+000D, U+0020, U+0085, U+00A0, U+1680, U+2000..U+200A,
    U+2028, U+2029, U+202F, U+205F, U+3000. *)
Definition spaceRunes : list string :=
  map bytes
    [ [9]; [10]; [11]; [12]; [13]; [32]; [194; 133]; [194; 160];
      [225; 154; 128];
      [226; 128; 128]; [226; 128; 129]; [226; 128; 130]; [226; 128; 131];
      [226; 128; 132]; [226; 128; 133]; [226; 128; 134]; [226; 128; 135];
      [226; 128; 136]; [226; 128; 137]; [226; 128; 138];
      [226; 128; 168]; [226; 128; 169]; [226; 128; 175];
      [226; 129; 159]; [227; 128; 128] ]%nat.

(** The rest of [s] after the first of the [runes] that is a prefix of it. *)
Fixpoint firstMatch (runes : list string) (s : string) : option string :=
  match runes with
  | [] => None
  | r :: rs =>
      match stripPrefix r s with
      | Some rest => Some rest
      | None => firstMatch rs s
      end
  end.

(** Leading [runes] removed, one per unit of fuel. *)
Fixpoint trimLeftFuel (fuel : nat) (runes : list string) (s : string) : string :=
  match fuel with
  | O => s
  | S f =>
      match firstMatch runes s with
      | Some rest => trimLeftFuel f runes rest
      | None => s
      end
  end.

(** [strings.TrimSpace]: leading and trailing white space removed.  A
    string begins with white space when one of the encodings is a prefix of
    it; it ends with white space when one of them is a suffix, that is when
    the reversed encoding is a prefix of the reversed string (the code
    point before the end is decoded backwards). *)
Definition TrimLeftSpace (s : string) : string :=
  trimLeftFuel (String.length s) spaceRunes s.

Definition TrimRightSpace (s : string) : string :=
  String.rev (trimLeftFuel (String.length s) (map String.rev spaceRunes) (String.rev s)).

Definition TrimSpace (s : string) : string := TrimRightSpace (TrimLeftSpace s).

(** Modelled from the spec: the declaration of [SignInInput] is not among
    the sources; these are the fields ConstructMessage, ParseMessage and
    the tests use (section 4.3: domain, account address, optional
    statement, optional URI, version and chain id, nonce, issued-at,
    optional expiration, not-before and request id, resource list), a
    [*string] being an [option]. *)
Record SignInInput := mkInput {
  Domain : string;
  Address : string;
  Statement : option string;
  URI : option string;
  Version : option string;
  ChainID : option string;
  Nonce : string;
  IssuedAt : string;
  ExpirationTime : option string;
  NotBefore : option string;
  RequestID : option string;
  Resources : list string
}.

(** [var input SignInInput] *)
Definition zeroInput : SignInInput :=
  mkInput "" "" None None None None "" "" None None None [].

(** An optional field is written, after its label, when the pointer is
    not nil and the string it points to is not empty. *)
Definition writeOptional (label : string) (p : option string) : string :=
  match p with
  | Some v => if bool_decide (v = "") then "" else (label ++ v)%string
  | None => ""
  end.

(** [ConstructMessage] *)
Definition ConstructMessage (input : SignInInput) : string :=
  (Domain input ++ " wants you to sign in with your Solana account:" ++ nl
   ++ Address input
   ++ writeOptional (nl ++ nl) (Statement input)
   ++ nl
   ++ writeOptional (nl ++ "URI: ") (URI input)
   ++ writeOptional (nl ++ "Version: ") (Version input)
   ++ writeOptional (nl ++ "Chain ID: ") (ChainID input)
   ++ (nl ++ "Nonce: ") ++ Nonce input
   ++ (nl ++ "Issued At: ") ++ IssuedAt input
   ++ writeOptional (nl ++ "Expiration Time: ") (ExpirationTime input)
   ++ writeOptional (nl ++ "Not Before: ") (NotBefore input)
   ++ writeOptional (nl ++ "Request ID: ") (RequestID input)
   ++ (if (0 <? length (Resources input))%nat
       then (nl ++ "Resources:")
            ++ fold_right (λ r acc, (nl ++ "- ") ++ r ++ acc) "" (Resources input)
       else ""))%string.

(** [s] without its suffix [suf], when [suf] is a suffix of [s]. *)
Fixpoint stripSuffix (suf s : string) : option string :=
  if String.eqb s suf then Some EmptyString
  else
    match s with
    | String c r => option_map (String c) (stripSuffix suf r)
    | EmptyString => None
    end.

(** The submatch of
    [^(.+) wants you to sign in with your Solana account:$]: the anchors
    leave one way to match, the line being the domain followed by the fixed
    text; [.] matches any byte but a line feed, and at least one. *)
Definition matchHeader (line : string) : option string :=
  match stripSuffix " wants you to sign in with your Solana account:" line with
  | Some d => if bool_decide (d = "") || occurs LF d then None else Some d
  | None => None
  end.

(** The test of the loop that looks for the first field line. *)
Definition startsField (line : string) : bool :=
  HasPrefix line "URI:" || HasPrefix line "Version:" || HasPrefix line "Chain ID:"
  || HasPrefix line "Nonce:" || HasPrefix line "Issued At:".

(** [fieldsStart]: the index of the first line, from index [i] on, whose
    trimmed text starts a field; -1 when there is none. *)
Fixpoint findFieldsStart (i : Z) (ls : list string) : Z :=
  match ls with
  | [] => -1
  | l :: rest =>
      if startsField (TrimSpace l) then i else findFieldsStart (i + 1) rest
  end.

(** The statement loop: blank lines are skipped until a line is kept. *)
Definition collectStatement (ls : list string) : list string :=
  fold_left
    (λ statementLines line,
       if (length statementLines =? 0)%nat && bool_decide (TrimSpace line = "")
       then statementLines else (statementLines ++ [line])%list)
    ls [].

Definition setURI (i : SignInInput) (v : string) : SignInInput :=
  mkInput (Domain i) (Address i) (Statement i) (Some v) (Version i) (ChainID i)
    (Nonce i) (IssuedAt i) (ExpirationTime i) (NotBefore i) (RequestID i) (Resources i).
Definition setVersion (i : SignInInput) (v : string) : SignInInput :=
  mkInput (Domain i) (Address i) (Statement i) (URI i) (Some v) (ChainID i)
    (Nonce i) (IssuedAt i) (ExpirationTime i) (NotBefore i) (RequestID i) (Resources i).
Definition setChainID (i : SignInInput) (v : string) : SignInInput :=
  mkInput (Domain i) (Address i) (Statement i) (URI i) (Version i) (Some v)
    (Nonce i) (IssuedAt i) (ExpirationTime i) (NotBefore i) (RequestID i) (Resources i).
Definition setNonce (i : SignInInput) (v : string) : SignInInput :=
  mkInput (Domain i) (Address i) (Statement i) (URI i) (Version i) (ChainID i)
    v (IssuedAt i) (ExpirationTime i) (NotBefore i) (RequestID i) (Resources i).
Definition setIssuedAt (i : SignInInput) (v : string) : SignInInput :=
  mkInput (Domain i) (Address i) (Statement i) (URI i) (Version i) (ChainID i)
    (Nonce i) v (ExpirationTime i) (NotBefore i) (RequestID i) (Resources i).
Definition setExpirationTime (i : SignInInput) (v : string) : SignInInput :=
  mkInput (Domain i) (Address i) (Statement i) (URI i) (Version i) (ChainID i)
    (Nonce i) (IssuedAt i) (Some v) (NotBefore i) (RequestID i) (Resources i).
Definition setNotBefore (i : SignInInput) (v : string) : SignInInput :=
  mkInput (Domain i) (Address i) (Statement i) (URI i) (Version i) (ChainID i)
    (Nonce i) (IssuedAt i) (ExpirationTime i) (Some v) (RequestID i) (Resources i).
Definition setRequestID (i : SignInInput) (v : string) : SignInInput :=
  mkInput (Domain i) (Address i) (Statement i) (URI i) (Version i) (ChainID i)
    (Nonce i) (IssuedAt i) (ExpirationTime i) (NotBefore i) (Some v) (Resources i).
Definition setResources (i : SignInInput) (v : list string) : SignInInput :=
  mkInput (Domain i) (Address i) (Statement i) (URI i) (Version i) (ChainID i)
    (Nonce i) (IssuedAt i) (ExpirationTime i) (NotBefore i) (RequestID i) v.
Definition setStatement (i : SignInInput) (v : string) : SignInInput :=
  mkInput (Domain i) (Address i) (Some v) (URI i) (Version i) (ChainID i)
    (Nonce i) (IssuedAt i) (ExpirationTime i) (NotBefore i) (RequestID i) (Resources i).

(** The [if / else if] chain on the field labels. *)
Definition assignField (input : SignInInput) (line : string) : SignInInput :=
  if HasPrefix line "URI: " then setURI input (TrimPrefix line "URI: ")
  else if HasPrefix line "Version: " then setVersion input (TrimPrefix line "Version: ")
  else if HasPrefix line "Chain ID: " then setChainID input (TrimPrefix line "Chain ID: ")
  else if HasPrefix line "Nonce: " then setNonce input (TrimPrefix line "Nonce: ")
  else if HasPrefix line "Issued At: " then setIssuedAt input (TrimPrefix line "Issued At: ")
  else if HasPrefix line "Expiration Time: "
       then setExpirationTime input (TrimPrefix line "Expiration Time: ")
  else if HasPrefix line "Not Before: " then setNotBefore input (TrimPrefix line "Not Before: ")
  else if HasPrefix line "Request ID: " then setRequestID input (TrimPrefix line "Request ID: ")
  else input.

(** One iteration of the field loop on the state
    (input, inResources, resources). *)
Definition parseLine (st : SignInInput * bool * list string) (line : string)
  : SignInInput * bool * list string :=
  let '(input, inResources, resources) := st in
  if HasPrefix line "- " && inResources
  then (input, inResources, (resources ++ [TrimPrefix line "- "])%list)
  else if HasPrefix line "Resources:" then (input, true, resources)
  else (assignField input line, false, resources).

(** [ParseMessage] *)
Definition ParseMessage (message : string) : SignInInput * option error :=
  let input := zeroInput in
  let lines := Split message LF in
  if (length lines <? 2)%nat then (input, Some "message too short")
  else
    match matchHeader (nth 0 lines "") with
    | None => (input, Some "invalid header format")
    | Some d =>
        let input :=
          mkInput d (TrimSpace (nth 1 lines "")) None None None None "" ""
            None None None [] in
        if bool_decide (Address input = "") then (input, Some "missing address")
        else
          let fieldsStart := findFieldsStart 2 (drop 2 lines) in
          let input :=
            if 2 <? fieldsStart then
              let statementLines :=
                collectStatement (take (Z.to_nat (fieldsStart - 2)) (drop 2 lines)) in
              if (0 <? length statementLines)%nat then
                let statement := TrimSpace (Join statementLines nl) in
                if bool_decide (statement = "") then input
                else setStatement input statement
              else input
            else input in
          let '(input, _, resources) :=
            if 0 <? fieldsStart
            then fold_left parseLine (drop (Z.to_nat fieldsStart) lines) (input, false, [])
            else (input, false, []) in
          let input :=
            if (0 <? length resources)%nat then setResources input resources else input in
          (input, None)
    end.

(** [ValidateDomain] *)
Definition ValidateDomain (input : SignInInput) (expectedDomain : string) : option error :=
  if bool_decide (Domain input = expectedDomain) then None
  else Some ("domain mismatch: got " ++ Domain input ++ ", expected " ++ expectedDomain)%string.

(** Inputs the line format can carry. *)
Definition singleLine (s : string) : bool := negb (occurs LF s).

Definition startsWithSpace (s : string) : bool :=
  match firstMatch spaceRunes s with Some _ => true | None => false end.

Definition endsWithSpace (s : string) : bool :=
  match firstMatch (map String.rev spaceRunes) (String.rev s) with
  | Some _ => true
  | None => false
  end.

Definition trimmed (s : string) : bool :=
  negb (startsWithSpace s) && negb (endsWithSpace s).

Definition optionalOK (p : option string) : bool :=
  match p with
  | Some v => negb (bool_decide (v = "")) && singleLine v
  | None => true
  end.

Definition statementOK (p : option string) : bool :=
  match p with
  | Some v =>
      negb (bool_decide (v = "")) && trimmed v
      && forallb (λ l, negb (startsField (TrimSpace l))) (Split v LF)
  | None => true
  end.

Definition wellFormed (i : SignInInput) : bool :=
  negb (bool_decide (Domain i = "")) && singleLine (Domain i)
  && negb (bool_decide (Address i = "")) && singleLine (Address i) && trimmed (Address i)
  && statementOK (Statement i)
  && optionalOK (URI i) && optionalOK (Version i) && optionalOK (ChainID i)
  && singleLine (Nonce i) && singleLine (IssuedAt i)
  && optionalOK (ExpirationTime i) && optionalOK (NotBefore i)
  && optionalOK (RequestID i)
  && forallb singleLine (Resources i).

End siws.

(** The lines ConstructMessage writes, for the statement of the round
    trip: the header, the address, the statement block (a blank line and
    the statement's lines), a blank line, and the field lines. *)
Module SiwsLines.

Import gostd siws.

Definition optionalLine (label : string) (p : option string) : list string :=
  match p with
  | Some v => if bool_decide (v = "") then [] else [(label ++ v)%string]
  | None => []
  end.

Definition statementBlock (i : SignInInput) : list string :=
  match Statement i with
  | Some v => if bool_decide (v = "") then [] else "" :: Split v LF
  | None => []
  end.

Definition resourceLines (rs : list string) : list string :=
  if (0 <? length rs)%nat then "Resources:" :: map (λ r, ("- " ++ r)%string) rs else [].

Definition leadingFields (i : SignInInput) : list string :=
  (optionalLine "URI: " (URI i) ++ optionalLine "Version: " (Version i)
   ++ optionalLine "Chain ID: " (ChainID i))%list.

Definition trailingFields (i : SignInInput) : list string :=
  (optionalLine "Expiration Time: " (ExpirationTime i)
   ++ optionalLine "Not Before: " (NotBefore i)
   ++ optionalLine "Request ID: " (RequestID i)
   ++ resourceLines (Resources i))%list.

Definition fieldLines (i : SignInInput) : list string :=
  (leadingFields i
   ++ [("Nonce: " ++ Nonce i)%string; ("Issued At: " ++ IssuedAt i)%string]
   ++ trailingFields i)%list.

Definition messageLines (i : SignInInput) : list string :=
  ((Domain i ++ " wants you to sign in with your Solana account:")%string
   :: Address i :: statementBlock i ++ [""] ++ fieldLines i)%list.

(** Every line preceded by a line feed. *)
Definition unlines (ls : list string) : string :=
  fold_right (λ l acc, (nl ++ l ++ acc)%string) "" ls.

(** An optional field as the parser leaves it. *)
Definition setOptional (set : SignInInput → string → SignInInput)
  (p : option string) (i : SignInInput) : SignInInput :=
  match p with
  | Some v => set i v
  | None => i
  end.

(** No rune of the list has the byte [c] first, respectively anywhere. *)
Definition leads (runes : list string) (c : ascii) : bool :=
  existsb (λ r, match r with String a _ => Ascii.eqb a c | EmptyString => true end) runes.

Definition inRunes (runes : list string) (c : ascii) : bool :=
  existsb (occurs c) runes.

(** No rune of the list has a line feed after its first byte. *)
Definition lfOnlyFirst (runes : list string) : bool :=
  forallb (λ r, match r with String _ t => negb (occurs LF t) | EmptyString => false end)
    runes.

End SiwsLines.

Module SiwsExamples.

(** The input of TestParseMessage, with resources added. *)
Definition full : siws.SignInInput :=
  siws.mkInput "example.com" "7xKXtg2CW87d97TXJSDpbD5jBkheTqA83TZRuJosgAsU"
    (Some "Sign in to test app") (Some "https://example.com") (Some "1")
    (Some "mainnet") "abc12345" "2025-12-05T11:00:00Z"
    (Some "2025-12-05T12:00:00Z") None None
    ["https://example.com/a"; "https://example.com/b"].

(** The input of TestConstructMessageMinimal. *)
Definition minimal : siws.SignInInput :=
  siws.mkInput "example.com" "7xKXtg2CW87d97TXJSDpbD5jBkheTqA83TZRuJosgAsU"
    None None None None "abc12345" "2025-12-05T11:00:00Z" None None None [].

(** Inputs with an optional field that points to the empty string, and
    with a statement that reads like a field line. *)
Definition emptyStatement : siws.SignInInput :=
  siws.mkInput "example.com" "7xKXtg2CW87d97TXJSDpbD5jBkheTqA83TZRuJosgAsU"
    (Some "") None None None "abc12345" "2025-12-05T11:00:00Z" None None None [].

Definition labelStatement : siws.SignInInput :=
  siws.mkInput "example.com" "7xKXtg2CW87d97TXJSDpbD5jBkheTqA83TZRuJosgAsU"
    (Some "URI: https://evil.example") None None None
    "abc12345" "2025-12-05T11:00:00Z" None None None [].

End SiwsExamples.

(* ================================================================== *)
(** ** password/password.go, package password *)
(* ================================================================== *)

Module password.

Import gostd.

(** [type Params struct]: [Time], [Memory], [SaltLen], [KeyLen] are uint32,
    [Threads] is uint8. *)
Record Params := mkParams {
  Time : Z;
  Memory : Z;
  Threads : Z;
  SaltLen : Z;
  KeyLen : Z
}.

Definition DefaultParams : Params :=
  {| Time := 1; Memory := 64 * 1024; Threads := 1; SaltLen := 16; KeyLen := 32 |}.

(** [phcEncode] *)
Definition phcEncode (p : Params) (salt sum : list ascii) : string :=
  ("$argon2id$v=19$m=" ++ formatUint (Memory p) ++ ",t=" ++ formatUint (Time p)
   ++ ",p=" ++ formatUint (Threads p) ++ "$" ++ EncodeToString salt
   ++ "$" ++ EncodeToString sum)%string.

(** [fmt.Sscanf(parts[3], "m=%d,t=%d,p=%d", &m, &t, &par)]; input after the
    last number is not looked at. *)
Definition scanCost (s : string) : result (Z * Z * Z) :=
  match scanLiteral "m=" s with
  | Err e => Err e
  | Ok s =>
  match scanUint32 s with
  | Err e => Err e
  | Ok (m, s) =>
  match scanLiteral ",t=" s with
  | Err e => Err e
  | Ok s =>
  match scanUint32 s with
  | Err e => Err e
  | Ok (t, s) =>
  match scanLiteral ",p=" s with
  | Err e => Err e
  | Ok s =>
  match scanUint32 s with
  | Err e => Err e
  | Ok (par, _) => Ok (m, t, par)
  end end end end end end.

(** [phcDecode] *)
Definition phcDecode (s : string) : result (Params * list ascii * list ascii) :=
  let parts := Split s "$" in
  if negb (length parts =? 6)%nat
     || negb (bool_decide (nth 1 parts "" = "argon2id"))
  then Err "bad_phc"
  else
    match scanCost (nth 3 parts "") with
    | Err e => Err e
    | Ok (m, t, par) =>
        match DecodeString (nth 4 parts "") with
        | Err e => Err e
        | Ok salt =>
            match DecodeString (nth 5 parts "") with
            | Err e => Err e
            | Ok sum =>
                Ok ({| Time := t; Memory := m; Threads := par mod 2 ^ 8;
                       SaltLen := Z.of_nat (length salt) mod 2 ^ 32;
                       KeyLen := Z.of_nat (length sum) mod 2 ^ 32 |},
                    salt, sum)
            end
        end
    end.

Section Argon2.

(** [argon2.IDKey(password, salt, time, memory, threads, keyLen)] and
    [rand.Read] on a buffer of the given length.  [argon2.IDKey] panics
    when [time] or [threads] is below 1 or [keyLen] is 0: the parameter
    stands for it where it returns. *)
Variable IDKey : list ascii → list ascii → Z → Z → Z → Z → list ascii.
Variable randRead : Z → result (list ascii).

(** [HashArgon2id] *)
Definition HashArgon2id (password : string) : string * option error :=
  let p := DefaultParams in
  match randRead (SaltLen p) with
  | Err e => ("", Some e)
  | Ok salt =>
      let dk := IDKey (list_ascii_of_string password) salt
                  (Time p) (Memory p) (Threads p) (KeyLen p) in
      (phcEncode p salt dk, None)
  end.

(** [VerifyArgon2id]; [subtle.ConstantTimeCompare] returns 1 exactly when
    the two slices are equal. *)
Definition VerifyArgon2id (encoded password : string) : bool * option error :=
  match phcDecode encoded with
  | Err e => (false, Some e)
  | Ok (p, salt, sum) =>
      let dk := IDKey (list_ascii_of_string password) salt
                  (Time p) (Memory p) (Threads p)
                  (Z.of_nat (length sum) mod 2 ^ 32) in
      if negb (length dk =? length sum)%nat then (false, None)
      else if bool_decide (dk = sum) then (true, None)
      else (false, None)
  end.

End Argon2.

(** [Validate]: at least 8 bytes. *)
Definition Validate (password : string) : option error :=
  if (String.length password <? 8)%nat then Some "password_too_short" else None.

(** Parameters as [Params] can hold them, describing the given salt and
    key. *)
Definition describes (p : Params) (salt sum : list ascii) : Prop :=
  0 ≤ Time p < 2 ^ 32 ∧ 0 ≤ Memory p < 2 ^ 32 ∧ 0 ≤ Threads p < 2 ^ 8 ∧
  SaltLen p = Z.of_nat (length salt) ∧ KeyLen p = Z.of_nat (length sum) ∧
  SaltLen p < 2 ^ 32 ∧ KeyLen p < 2 ^ 32.

End password.

Module PasswordExamples.

(** A stand-in for Argon2id with the length contract of the real one: the
    key is [keyLen] bytes drawn cyclically from password and salt. *)
Fixpoint cycle (fuel : nat) (src cur : list ascii) : list ascii :=
  match fuel with
  | O => []
  | S f =>
      match cur with
      | c :: r => c :: cycle f src r
      | [] => match src with
              | c :: r => c :: cycle f src r
              | [] => "000"%char :: cycle f src []
              end
      end
  end.

Definition toyKey (pw salt : list ascii) (t m p keyLen : Z) : list ascii :=
  cycle (Z.to_nat keyLen) (pw ++ salt)%list (pw ++ salt)%list.

Definition salt16 : list ascii := list_ascii_of_string "0123456789abcdef".

Definition fixedRand (n : Z) : result (list ascii) := Ok salt16.

End PasswordExamples.

(* ================================================================== *)
(** ** password/password.go, package memorylimiter *)
(* ================================================================== *)

Module memorylimiter.

(** [type Limit struct { Limit int; Window time.Duration }] *)
Record Limit := mkLimit { limit : Z; window : Z }.

(** [type bucketState struct { timestamps []int64 }], Unix ms, newest last. *)
Record bucketState := mkBucket { timestamps : list Z }.

(** [type Limiter struct { mu; limits; buckets }].  The mutex serialises the
    calls; a call is modelled as one atomic step. *)
Record Limiter := mkLimiter {
  limits : gmap string Limit;
  buckets : gmap string bucketState
}.

(** [New]: a nil limits map is replaced by an empty one. *)
Definition New (lims : option (gmap string Limit)) : Limiter :=
  {| limits := default ∅ lims; buckets := ∅ |}.

(** [(l *Limiter) get] *)
Definition get (l : Limiter) (bucket : string) : Limit * bool :=
  match limits l !! bucket with
  | Some v => (v, true)
  | None =>
      match limits l !! "default" with
      | Some v => (v, true)
      | None => ({| limit := 100; window := Minute |}, false)
      end
  end.

(** The pruning loop
    [for pruneIdx < len(ts) && ts[pruneIdx] < windowStart { pruneIdx++ }]. *)
Fixpoint pruneIdx (windowStart : Z) (ts : list Z) : nat :=
  match ts with
  | t :: rest => if t <? windowStart then S (pruneIdx windowStart rest) else O
  | [] => O
  end.

(** [if pruneIdx > 0 { ts = ts[pruneIdx:] }] *)
Definition prune (windowStart : Z) (ts : list Z) : list Z :=
  let i := pruneIdx windowStart ts in
  if (0 <? i)%nat then drop i ts else ts.

(** [(l *Limiter) AllowNamed].  [nowMs - lim.Window.Milliseconds()] cannot
    leave the int64 range: both operands are int64 values divided by 10^6. *)
Definition AllowNamed (l : option Limiter) (nowNano : Z) (bucket key : string)
  : option Limiter * (bool * option error) :=
  match l with
  | None => (None, (true, None))
  | Some l =>
      if bool_decide (bucket = "") || bool_decide (key = "")
      then (Some l, (false, Some "bucket and key required"))
      else
        let lim := fst (get l bucket) in
        let nowMs := Z.quot nowNano 1000000 in
        let windowStart := nowMs - Milliseconds (window lim) in
        let limitKey := limitKeyOf key bucket in
        (* b, ok := l.buckets[limitKey]; if !ok { b = &bucketState{} ... } *)
        let b := default (mkBucket []) (buckets l !! limitKey) in
        let ts := prune windowStart (timestamps b) in
        if limit lim <=? Z.of_nat (length ts) then
          (* Deny without recording this attempt. *)
          let bs := <[limitKey := mkBucket ts]> (buckets l) in
          let bs := if (length ts =? 0)%nat then delete limitKey bs else bs in
          (Some {| limits := limits l; buckets := bs |}, (false, None))
        else
          (* Record this request and allow. *)
          let ts := (ts ++ [nowMs])%list in
          let bs := <[limitKey := mkBucket ts]> (buckets l) in
          let bs := if (length ts =? 0)%nat then delete limitKey bs else bs in
          (Some {| limits := limits l; buckets := bs |}, (true, None))
  end.

(** The allowed/deny decision of a call, and the limiter after it. *)
Definition decision (r : option Limiter * (bool * option error)) : bool := fst (snd r).
Definition after (r : option Limiter * (bool * option error)) : option Limiter := fst r.

(** Successive calls for one (bucket, key), one clock reading per call. *)
Fixpoint run (l : option Limiter) (bucket key : string) (clock : list Z)
  : option Limiter * list bool :=
  match clock with
  | [] => (l, [])
  | now :: rest =>
      let r := AllowNamed l now bucket key in
      let '(l', ds) := run (after r) bucket key rest in
      (l', decision r :: ds)
  end.

(** The timestamps stored for a limit key ([[]] when the key has no entry). *)
Definition stored (l : Limiter) (limitKey : string) : list Z :=
  match buckets l !! limitKey with
  | Some b => timestamps b
  | None => []
  end.

(** The state invariant of the bucket map at clock reading [clockMs]: every
    entry holds at least one timestamp, in non-decreasing order, none later
    than the clock. *)
Definition bucketsInv (l : Limiter) (clockMs : Z) : Prop :=
  ∀ k b, buckets l !! k = Some b →
    timestamps b ≠ [] ∧
    StronglySorted Z.le (timestamps b) ∧
    Forall (λ t, t ≤ clockMs) (timestamps b).

(** The timestamps of a list that lie inside the window. *)
Definition inWindow (windowStart : Z) (ts : list Z) : list Z :=
  filter (λ t, windowStart ≤ t) ts.

(** One served call seen at its bucket alone: the timestamps kept and the
    decision, from the timestamps stored and the clock in milliseconds. *)
Definition bucketStep (lim : Limit) (ts : list Z) (nowMs : Z) : list Z * bool :=
  let ts := prune (nowMs - Milliseconds (window lim)) ts in
  if limit lim <=? Z.of_nat (length ts) then (ts, false)
  else ((ts ++ [nowMs])%list, true).

Fixpoint bucketRun (lim : Limit) (ts : list Z) (clockMs : list Z) : list bool :=
  match clockMs with
  | [] => []
  | nowMs :: rest =>
      let '(ts', d) := bucketStep lim ts nowMs in
      d :: bucketRun lim ts' rest
  end.

End memorylimiter.

(* ================================================================== *)
(** ** ratelimit/redis/limiter.go, package redislimiter *)
(* ================================================================== *)

Module redislimiter.

(** The Redis server as the limiter uses it: every key holds a sorted set,
    a finite map from member to score, and an optional expiry deadline.
    The member the limiter adds is the decimal rendering of the int64 [now]
    (one member per distinct value) and the score is [float64(now)], which
    is exact for every millisecond timestamp below 2^53; both are [Z] here.
    The server's clock is the caller's clock. *)
Record zkey := mkZKey { zset : gmap Z Z; expireAt : option Z }.

Definition redisDB := gmap string zkey.

(** A key whose deadline has passed no longer exists. *)
Definition live (db : gmap string zkey) (nowMs : Z) (k : string) : option zkey :=
  match db !! k with
  | Some e =>
      match expireAt e with
      | Some d => if d <=? nowMs then None else Some e
      | None => Some e
      end
  | None => None
  end.

(** Redis deletes a sorted set when its last member is removed. *)
Definition store (db : gmap string zkey) (k : string) (e : zkey) : gmap string zkey :=
  if bool_decide (zset e = ∅) then delete k db else <[k := e]> db.

(** [ZADD key score member]: an existing member only has its score updated. *)
Definition ZAdd (db : gmap string zkey) (nowMs : Z) (k : string) (score member : Z)
  : gmap string zkey :=
  match live db nowMs k with
  | Some e => <[k := mkZKey (<[member := score]> (zset e)) (expireAt e)]> db
  | None => <[k := mkZKey {[member := score]} None]> db
  end.

(** [ZREMRANGEBYSCORE key min max]: both bounds are inclusive. *)
Definition ZRemRangeByScore (db : gmap string zkey) (nowMs : Z) (k : string)
  (lo hi : Z) : gmap string zkey :=
  match live db nowMs k with
  | Some e =>
      store db k
        (mkZKey (filter (λ kv, negb ((lo <=? kv.2) && (kv.2 <=? hi)) = true) (zset e))
                (expireAt e))
  | None => delete k db
  end.

(** [ZCARD key] *)
Definition ZCard (db : gmap string zkey) (nowMs : Z) (k : string) : Z :=
  match live db nowMs k with
  | Some e => Z.of_nat (size (zset e))
  | None => 0
  end.

(** go-redis renders the duration of [Expire] in whole seconds
    ([formatSec]): a positive duration below one second counts as one. *)
Definition formatSec (d : Z) : Z :=
  if (0 <? d) && (d <? Second) then 1 else Z.quot d Second.

(** [EXPIRE key seconds]: a non-positive time to live deletes the key. *)
Definition Expire (db : gmap string zkey) (nowMs : Z) (k : string) (d : Z)
  : gmap string zkey :=
  match live db nowMs k with
  | Some e =>
      if formatSec d <=? 0 then delete k db
      else <[k := mkZKey (zset e) (Some (nowMs + 1000 * formatSec d))]> db
  | None => delete k db
  end.

(** [ZREM key member] *)
Definition ZRem (db : gmap string zkey) (nowMs : Z) (k : string) (member : Z)
  : gmap string zkey :=
  match live db nowMs k with
  | Some e => store db k (mkZKey (delete member (zset e)) (expireAt e))
  | None => delete k db
  end.

(** [type Limit struct { Limit int; Window time.Duration }] *)
Record Limit := mkLimit { limit : Z; window : Z }.

(** [type Limiter struct { rdb *redis.Client; ctx; limits }]: [rdb] is nil
    or a connection to the server; the server's contents are threaded
    through [AllowNamed] as [db]. *)
Record Limiter := mkLimiter {
  rdb : option unit;
  limits : gmap string Limit
}.

Definition New (client : option unit) (lims : option (gmap string Limit)) : Limiter :=
  {| rdb := client; limits := default ∅ lims |}.

(** [(l *Limiter) get] *)
Definition get (l : Limiter) (bucket : string) : Limit * bool :=
  match limits l !! bucket with
  | Some v => (v, true)
  | None =>
      match limits l !! "default" with
      | Some v => (v, true)
      | None => ({| limit := 100; window := Minute |}, false)
      end
  end.

(** [(l *Limiter) AllowNamed].  [execErr] is the error [pipe.Exec] returns,
    if any; a failed transaction leaves the server unchanged. *)
Definition AllowNamed (l : option Limiter) (db : gmap string zkey)
  (execErr : option error) (nowNano : Z) (bucket key : string)
  : gmap string zkey * (bool * option error) :=
  match l with
  | None => (db, (true, None))
  | Some l =>
      match rdb l with
      | None => (db, (true, None))
      | Some _ =>
          if bool_decide (bucket = "") || bool_decide (key = "")
          then (db, (false, Some "bucket and key required"))
          else
            let lim := fst (get l bucket) in
            let now := Z.quot nowNano 1000000 in
            let start := now - Milliseconds (window lim) in
            let limitKey := limitKeyOf key bucket in
            match execErr with
            | Some err => (db, (false, Some err))
            | None =>
                let db1 := ZAdd db now limitKey now now in
                let db2 := ZRemRangeByScore db1 now limitKey 0 start in
                let count := ZCard db2 now limitKey in
                let db3 := Expire db2 now limitKey (window lim + Second) in
                if limit lim <? count
                then (ZRem db3 now limitKey now, (false, None))
                else (db3, (true, None))
            end
      end
  end.

Definition decision (r : gmap string zkey * (bool * option error)) : bool := fst (snd r).

(** Successive calls for one (bucket, key), none failing on the wire. *)
Fixpoint run (l : option Limiter) (db : gmap string zkey) (bucket key : string)
  (clock : list Z) : gmap string zkey * list bool :=
  match clock with
  | [] => (db, [])
  | now :: rest =>
      let r := AllowNamed l db None now bucket key in
      let '(db', ds) := run l (fst r) bucket key rest in
      (db', decision r :: ds)
  end.

(** The members recorded for a limit key at server time [nowMs]. *)
Definition members (db : gmap string zkey) (nowMs : Z) (k : string) : gset Z :=
  match live db nowMs k with
  | Some e => dom (zset e)
  | None => ∅
  end.

End redislimiter.

(** Concrete limiters and clocks used by the examples. *)
Module LimiterExamples.

Definition loginLimits : gmap string memorylimiter.Limit :=
  {[ "login" := memorylimiter.mkLimit 5 (60 * Second) ]}.

Definition loginLimitsR : gmap string redislimiter.Limit :=
  {[ "login" := redislimiter.mkLimit 5 (60 * Second) ]}.

(** A clock reading (Unix nanoseconds) [ms] milliseconds after
    2023-11-14T22:13:20Z. *)
Definition at_ms (ms : Z) : Z := (1700000000000 + ms) * 1000000.

(** An in-memory limiter that has admitted two calls of "user1". *)
Definition twoAdmitted : memorylimiter.Limiter :=
  {| memorylimiter.limits := loginLimits;
     memorylimiter.buckets :=
       {[ "user1:login" := memorylimiter.mkBucket [1700000000000; 1700000000500] ]} |}.

(** Limits of one and of two events per minute. *)
Definition oneLimit : gmap string memorylimiter.Limit :=
  {[ "login" := memorylimiter.mkLimit 1 (60 * Second) ]}.
Definition oneLimitR : gmap string redislimiter.Limit :=
  {[ "login" := redislimiter.mkLimit 1 (60 * Second) ]}.
Definition twoLimit : gmap string memorylimiter.Limit :=
  {[ "login" := memorylimiter.mkLimit 2 (60 * Second) ]}.
Definition twoLimitR : gmap string redislimiter.Limit :=
  {[ "login" := redislimiter.mkLimit 2 (60 * Second) ]}.

(** A server on which three events of "user1" are recorded, one second
    apart, the key expiring 61 s after the last of them. *)
Definition threeRecorded : gmap string redislimiter.zkey :=
  {[ "user1:login" :=
       redislimiter.mkZKey
         {[ 1700000000000 := 1700000000000;
            1700000001000 := 1700000001000;
            1700000002000 := 1700000002000 ]}
         (Some 1700000063000) ]}.

(** The same three events in the in-memory limiter. *)
Definition threeStored : memorylimiter.Limiter :=
  {| memorylimiter.limits := twoLimit;
     memorylimiter.buckets :=
       {[ "user1:login" :=
            memorylimiter.mkBucket [1700000000000; 1700000001000; 1700000002000] ]} |}.

End LimiterExamples.

(** The two limiters side by side: the relation between the state of a Redis
    key and the timestamps of the in-memory bucket of the same limit key. *)
Module LimiterRelation.
Import redislimiter.

(** The sorted set of a key as the server sees it at [nowMs]. *)
Definition current (db : gmap string zkey) (nowMs : Z) (k : string) : gmap Z Z :=
  match live db nowMs k with
  | Some e => zset e
  | None => ∅
  end.

(** What ZREMRANGEBYSCORE key lo hi leaves of a sorted set whose members are
    their own scores. *)
Definition trimmedSet (z : gmap Z Z) (lo hi : Z) : gmap Z Z :=
  filter (λ kv, negb ((lo <=? kv.2) && (kv.2 <=? hi)) = true) z.




End LimiterRelation.

(* ================================================================== *)
(** ** package oidckit: discovery, the ID token verifier, the exchanger *)
(* ================================================================== *)

Module oidckit.

(** [strings.TrimRight(s, cutset)] for a cutset of ASCII characters: the
    trailing bytes of [s] that belong to the cutset are removed. *)
Definition inCutset (c : ascii) (cutset : string) : bool :=
  existsb (Ascii.eqb c) (list_ascii_of_string cutset).

Fixpoint TrimRight (s cutset : string) : string :=
  match s with
  | EmptyString => EmptyString
  | String c r =>
      match TrimRight r cutset with
      | EmptyString => if inCutset c cutset then EmptyString else String c EmptyString
      | r' => String c r'
      end
  end.

(** [type discoveryDoc struct] *)
Record discoveryDoc := mkDoc {
  Issuer : string;
  AuthorizationEndpoint : string;
  TokenEndpoint : string;
  JWKSURI : string
}.

(** [oauth2.Config] with its [Endpoint]. *)
Record Config := mkConfig {
  ClientID : string;
  ClientSecret : string;
  RedirectURL : string;
  Scopes : list string;
  AuthURL : string;
  TokenURL : string
}.

(** [type RelyingParty struct] *)
Record RelyingParty := mkRP {
  issuer : string;
  clientID : string;
  jwksURL : string;
  oauthConfig : Config
}.

(** What the GET of the discovery document yields: an error of
    [http.NewRequestWithContext] or of [http.DefaultClient.Do], or a
    response with its status and the outcome of decoding its body. *)
Inductive httpResult :=
  | RequestError (e : error)
  | Response (StatusCode : Z) (Status : string) (decoded : result discoveryDoc).

(** A JSON value as [token.Get] and [oauth2Token.Extra] return it, seen
    through the type assertions the code makes. *)
Inductive jsonValue :=
  | JString (s : string)
  | JBool (b : bool)
  | JOther.

(** A parsed [jwt.Token]: [Subject()] and [Get(name)]. *)
Record Token := mkToken {
  Subject : string;
  private : gmap string jsonValue
}.

(** [*oauth2.Token]: only [Extra(key)] is used. *)
Record OAuth2Token := mkOAuth2Token { Extra : gmap string jsonValue }.

(** [type IDTokenClaims struct] *)
Record IDTokenClaims := mkIDTokenClaims {
  idSubject : string;
  idEmail : string;
  idEmailVerified : option bool;
  idName : string;
  idPreferredUsername : string
}.

(** [type Claims struct] (oidc/types.go) *)
Record Claims := mkClaims {
  cSubject : string;
  cEmail : option string;
  cEmailVerified : option bool;
  cName : option string;
  cPreferredUsername : option string;
  cRawIDToken : string
}.

(** [strings.EqualFold(s, t)] for a [t] of lower-case ASCII letters: a
    letter of [t] is matched by itself, by its upper-case form, and by the
    two non-ASCII runes that fold to an ASCII letter, U+017F (to s) and
    U+212A (to k). *)
Definition lowerAscii (c : ascii) : ascii :=
  let n := nat_of_ascii c in
  if ((65 <=? n) && (n <=? 90))%nat then ascii_of_nat (n + 32) else c.

Fixpoint EqualFold (s t : string) : bool :=
  match t with
  | EmptyString => match s with EmptyString => true | _ => false end
  | String c t' =>
      match s with
      | String a s1 =>
          if Ascii.eqb (lowerAscii a) c then EqualFold s1 t'
          else
            match s1 with
            | String b s2 =>
                if Ascii.eqb c "s" && Ascii.eqb a "197" && Ascii.eqb b "191"
                then EqualFold s2 t'
                else
                  match s2 with
                  | String d s3 =>
                      if Ascii.eqb c "k" && Ascii.eqb a "226" && Ascii.eqb b "132"
                         && Ascii.eqb d "170"
                      then EqualFold s3 t'
                      else false
                  | EmptyString => false
                  end
            | EmptyString => false
            end
      | EmptyString => false
      end
  end.

Definition strptr (s : string) : option string :=
  if bool_decide (s = "") then None else Some s.

Definition boolptr (b : bool) : option bool := Some b.

Section Environment.

(** The network and the libraries behind it: the discovery GET, the token
    endpoint ([oauth2.Config.Exchange], given the code and the extra
    parameters), the key-set fetch ([jwk.Fetch]) and the JWT library
    ([jwt.ParseString] with [WithKeySet], [WithValidate(true)],
    [WithIssuer] and [WithAudience]: signature, validity period, issuer
    and audience are checked there). *)
Variable KeySet : Type.
Variable httpGet : string → httpResult.
Variable Exchange : Config → string → list (string * string) → result OAuth2Token.
Variable Fetch : string → result KeySet.
Variable ParseString : string → KeySet → string → string → result Token.

(** [discoverOIDC] *)
Definition discoverOIDC (issuer : string) : result discoveryDoc :=
  let discoveryURL := (TrimRight issuer "/" ++ "/.well-known/openid-configuration")%string in
  match httpGet discoveryURL with
  | RequestError e => Err e
  | Response StatusCode Status decoded =>
      if (StatusCode <? 200) || (300 <=? StatusCode)
      then Err ("oidc: discovery failed: " ++ Status)%string
      else
        match decoded with
        | Err e => Err e
        | Ok doc =>
            let discoveredIssuer := TrimRight (Issuer doc) "/" in
            if negb (bool_decide (discoveredIssuer = ""))
               && negb (bool_decide (discoveredIssuer = issuer))
            then Err ("oidc: issuer mismatch: " ++ Issuer doc)%string
            else if bool_decide (AuthorizationEndpoint doc = "")
                    || bool_decide (TokenEndpoint doc = "")
                    || bool_decide (JWKSURI doc = "")
            then Err "oidc: discovery missing endpoints"
            else Ok doc
        end
  end.

(** [NewRelyingPartyOIDC] *)
Definition NewRelyingPartyOIDC (issuer clientID clientSecret redirectURI : string)
  (scopes : list string) : result RelyingParty :=
  let trimmedIssuer := TrimRight issuer "/" in
  if bool_decide (trimmedIssuer = "") then Err "oidc: issuer is empty"
  else
    match discoverOIDC trimmedIssuer with
    | Err e => Err e
    | Ok doc =>
        let effectiveIssuer :=
          if bool_decide (Issuer doc = "") then issuer else Issuer doc in
        Ok {| issuer := effectiveIssuer;
              clientID := clientID;
              jwksURL := JWKSURI doc;
              oauthConfig :=
                {| ClientID := clientID; ClientSecret := clientSecret;
                   RedirectURL := redirectURI; Scopes := scopes;
                   AuthURL := AuthorizationEndpoint doc;
                   TokenURL := TokenEndpoint doc |} |}
    end.

(** [(rp *RelyingParty) KeySet] *)
Definition RPKeySet (rp : RelyingParty) : result KeySet :=
  if bool_decide (jwksURL rp = "") then Err "oidc: missing jwks_uri"
  else Fetch (jwksURL rp).

(** [type IDTokenVerifier struct]; [nonce] is the closure [WithNonce] sets. *)
Record IDTokenVerifier := mkVerifier {
  vIssuer : string;
  vClientID : string;
  vKeySet : option KeySet;
  vNonce : option (unit → string)
}.

(** [WithNonce] and [NewIDTokenVerifier] (the options applied in order). *)
Definition WithNonce (fn : unit → string) (v : IDTokenVerifier) : IDTokenVerifier :=
  {| vIssuer := vIssuer v; vClientID := vClientID v; vKeySet := vKeySet v;
     vNonce := Some fn |}.

Definition NewIDTokenVerifier (issuer clientID : string) (keySet : option KeySet)
  (opts : list (IDTokenVerifier → IDTokenVerifier)) : IDTokenVerifier :=
  fold_left (λ v opt, opt v) opts
    {| vIssuer := issuer; vClientID := clientID; vKeySet := keySet; vNonce := None |}.

(** The nonce check of [VerifyIDToken]: [None] when it passes. *)
Definition checkNonce (v : IDTokenVerifier) (token : Token) : option error :=
  match vNonce v with
  | None => None
  | Some fn =>
      let expected := fn tt in
      if bool_decide (expected = "") then None
      else
        match private token !! "nonce" with
        | None => Some "oidc: missing nonce"
        | Some (JString nonce) =>
            if bool_decide (nonce = expected) then None
            else Some "oidc: nonce mismatch"
        | Some _ => Some "oidc: nonce mismatch"
        end
  end.

Definition stringClaim (token : Token) (name : string) : string :=
  match private token !! name with
  | Some (JString s) => s
  | _ => ""
  end.

Definition emailVerifiedClaim (token : Token) : option bool :=
  match private token !! "email_verified" with
  | Some (JBool b) => Some b
  | Some (JString s) =>
      if EqualFold s "true" then Some true
      else if EqualFold s "false" then Some false
      else None
  | _ => None
  end.

(** [VerifyIDToken] *)
Definition VerifyIDToken (rawToken : string) (v : option IDTokenVerifier)
  : result IDTokenClaims :=
  match v with
  | None => Err "oidc: missing verifier"
  | Some v =>
      match vKeySet v with
      | None => Err "oidc: missing key set"
      | Some keySet =>
          match ParseString rawToken keySet (vIssuer v) (vClientID v) with
          | Err e => Err e
          | Ok token =>
              match checkNonce v token with
              | Some e => Err e
              | None =>
                  Ok {| idSubject := Subject token;
                        idEmail := stringClaim token "email";
                        idEmailVerified := emailVerifiedClaim token;
                        idName := stringClaim token "name";
                        idPreferredUsername := stringClaim token "preferred_username" |}
              end
          end
      end
  end.

(** [DefaultExchanger] *)
Definition DefaultExchanger (rpClient : RelyingParty)
  (provider code verifier nonce : string) : result Claims :=
  let opts :=
    if bool_decide (provider = "apple") then []
    else [("code_verifier", verifier)] in
  match Exchange (oauthConfig rpClient) code opts with
  | Err e => Err ("token exchange failed for " ++ provider ++ ": " ++ e)%string
  | Ok oauth2Token =>
      match Extra oauth2Token !! "id_token" with
      | Some (JString rawIDToken) =>
          if bool_decide (rawIDToken = "") then Err "no id_token in response"
          else
            match RPKeySet rpClient with
            | Err e => Err ("jwks fetch failed for " ++ provider ++ ": " ++ e)%string
            | Ok keySet =>
                let customVerifier :=
                  NewIDTokenVerifier (issuer rpClient) (clientID rpClient) (Some keySet)
                    [WithNonce (λ _, nonce)] in
                match VerifyIDToken rawIDToken (Some customVerifier) with
                | Err e =>
                    Err ("id_token verification with nonce failed for "
                         ++ provider ++ ": " ++ e)%string
                | Ok idt =>
                    let ev := default false (idEmailVerified idt) in
                    Ok {| cSubject := idSubject idt;
                          cEmail := strptr (idEmail idt);
                          cEmailVerified := boolptr ev;
                          cName := strptr (idName idt);
                          cPreferredUsername := strptr (idPreferredUsername idt);
                          cRawIDToken := rawIDToken |}
                end
            end
      | _ => Err "no id_token in response"
      end
  end.

End Environment.

End oidckit.

(** A provider used by the examples: its discovery document, and a network
    on which every request succeeds. *)
Module OidcExamples.

Definition configured : string := "https://idp.example".

Definition endpoints (iss : string) : oidckit.discoveryDoc :=
  {| oidckit.Issuer := iss;
     oidckit.AuthorizationEndpoint := "https://idp.example/authorize";
     oidckit.TokenEndpoint := "https://idp.example/token";
     oidckit.JWKSURI := "https://idp.example/jwks" |}.

(** The discovery endpoint answers 200 with a document reporting [iss]. *)
Definition serve (iss : string) (url : string) : oidckit.httpResult :=
  oidckit.Response 200 "200 OK" (Ok (endpoints iss)).

Definition rp : oidckit.RelyingParty :=
  {| oidckit.issuer := configured;
     oidckit.clientID := "client-1";
     oidckit.jwksURL := "https://idp.example/jwks";
     oidckit.oauthConfig :=
       {| oidckit.ClientID := "client-1"; oidckit.ClientSecret := "secret";
          oidckit.RedirectURL := "https://app.example/cb";
          oidckit.Scopes := ["openid"];
          oidckit.AuthURL := "https://idp.example/authorize";
          oidckit.TokenURL := "https://idp.example/token" |} |}.

(** A token endpoint that returns the raw ID token "idtoken-1", a key-set
    endpoint that returns one key set, and a JWT library that accepts
    exactly that raw token for the configured issuer and client, yielding a
    token whose claims are [claims]. *)
Definition exchange (cfg : oidckit.Config) (code : string)
  (opts : list (string * string)) : result oidckit.OAuth2Token :=
  Ok {| oidckit.Extra := {[ "id_token" := oidckit.JString "idtoken-1" ]} |}.

Definition fetchKeys (url : string) : result unit := Ok tt.

Definition parse (claims : gmap string oidckit.jsonValue)
  (raw : string) (ks : unit) (iss aud : string) : result oidckit.Token :=
  if bool_decide (raw = "idtoken-1") && bool_decide (iss = configured)
     && bool_decide (aud = "client-1")
  then Ok {| oidckit.Subject := "alice"; oidckit.private := claims |}
  else Err "jwt: verification failed".

End OidcExamples.

(* ================================================================== *)
(** ** Refresh sessions: migrations/postgres/001_auth_schema.up.sql *)
(* ================================================================== *)

Module sessions.

(** A row of [profiles.refresh_sessions].  [uuid], [text] and [inet]
    columns are strings, [bytea] token hashes are byte strings,
    [timestamptz] columns are instants in [Z]; a nullable column is an
    [option]. *)
Record refresh_session := mkSession {
  id : string;
  user_id : string;
  issuer : string;
  family_id : string;
  current_token_hash : string;
  previous_token_hash : option string;
  created_at : Z;
  last_used_at : Z;
  expires_at : option Z;
  revoked_at : option Z;
  user_agent : option string;
  ip_addr : option string
}.

(** [WHERE revoked_at IS NULL] *)
Definition notRevoked (s : refresh_session) : bool :=
  bool_decide (revoked_at s = None).

(** The partial unique index [refresh_sessions_current_hash_active]. *)
Definition current_hash_active (tbl : list refresh_session) : Prop :=
  ∀ s1 s2, s1 ∈ tbl → s2 ∈ tbl →
    revoked_at s1 = None → revoked_at s2 = None →
    current_token_hash s1 = current_token_hash s2 → s1 = s2.

(** The partial unique index [refresh_sessions_prev_hash_active]. *)
Definition prev_hash_active (tbl : list refresh_session) : Prop :=
  ∀ s1 s2 h, s1 ∈ tbl → s2 ∈ tbl →
    revoked_at s1 = None → revoked_at s2 = None →
    previous_token_hash s1 = Some h → previous_token_hash s2 = Some h → s1 = s2.

(** The two lookups by fingerprint, over non-revoked rows. *)
Definition holdsCurrent (fp : string) (s : refresh_session) : bool :=
  notRevoked s && bool_decide (current_token_hash s = fp).

Definition holdsPrevious (fp : string) (s : refresh_session) : bool :=
  notRevoked s && bool_decide (previous_token_hash s = Some fp).

(** Row updates. *)
Definition shift (now : Z) (fresh : string) (s : refresh_session) : refresh_session :=
  mkSession (id s) (user_id s) (issuer s) (family_id s)
    fresh (Some (current_token_hash s))
    (created_at s) now (expires_at s) (revoked_at s) (user_agent s) (ip_addr s).

Definition consume (now : Z) (s : refresh_session) : refresh_session :=
  mkSession (id s) (user_id s) (issuer s) (family_id s)
    (current_token_hash s) None
    (created_at s) now (expires_at s) (revoked_at s) (user_agent s) (ip_addr s).

Definition revokeRow (now : Z) (s : refresh_session) : refresh_session :=
  mkSession (id s) (user_id s) (issuer s) (family_id s)
    (current_token_hash s) (previous_token_hash s)
    (created_at s) (last_used_at s) (expires_at s)
    (match revoked_at s with Some t => Some t | None => Some now end)
    (user_agent s) (ip_addr s).

(** Modelled from the spec: the family-wide revocation of section 4.2
    ("revoke every session in the family"; revocation sets the revocation
    time and is idempotent).  The Go code of the session manager is not
    among the sources; only the table is. *)
Definition revokeFamily (now : Z) (family : string) (tbl : list refresh_session)
  : list refresh_session :=
  map (λ s, if bool_decide (family_id s = family) then revokeRow now s else s) tbl.

Inductive outcome :=
  | Rotated
  | Honoured
  | ReuseDetected.

(** Modelled from the spec: [rotate] of section 4.2, missing from the
    sources.  The presented token names its family and carries the secret
    whose fingerprint is [presented]; [fresh] is the fingerprint of the
    newly generated token.  A fingerprint that is the current one of a
    non-revoked session shifts current to previous and installs [fresh]; one
    that is the retained previous one is honoured once, the slot being
    cleared and the current fingerprint left alone; any other fingerprint is
    reuse: every session of the family is revoked and the distinct reuse
    error is returned.  The updates are the store's conditional updates
    ([UPDATE ... WHERE current_token_hash = $1 AND revoked_at IS NULL]). *)
Definition rotate (tbl : list refresh_session) (now : Z)
  (family presented fresh : string) : list refresh_session * outcome :=
  if existsb (holdsCurrent presented) tbl then
    (map (λ s, if holdsCurrent presented s then shift now fresh s else s) tbl, Rotated)
  else if existsb (holdsPrevious presented) tbl then
    (map (λ s, if holdsPrevious presented s then consume now s else s) tbl, Honoured)
  else
    (revokeFamily now family tbl, ReuseDetected).

(** A rotate call is rejected when it returns the reuse error. *)
Definition rejected (r : list refresh_session * outcome) : Prop :=
  snd r = ReuseDetected.

(** Successive rotate calls of one family: (instant, presented, fresh). *)
Fixpoint rotateAll (tbl : list refresh_session) (family : string)
  (calls : list (Z * string * string)) : list refresh_session * list outcome :=
  match calls with
  | [] => (tbl, [])
  | (now, presented, fresh) :: rest =>
      let r := rotate tbl now family presented fresh in
      let '(tbl', os) := rotateAll (fst r) family rest in
      (tbl', snd r :: os)
  end.

(** No non-revoked row of the table tracks the fingerprint in either slot. *)
Definition untracked (fp : string) (tbl : list refresh_session) : Prop :=
  ∀ s, s ∈ tbl → revoked_at s = None →
    current_token_hash s ≠ fp ∧ previous_token_hash s ≠ Some fp.

(** Every non-revoked row that tracks the fingerprint is of the family. *)
Definition trackedWithin (fp family : string) (tbl : list refresh_session) : Prop :=
  ∀ s, s ∈ tbl → revoked_at s = None →
    current_token_hash s = fp ∨ previous_token_hash s = Some fp →
    family_id s = family.

End sessions.

Module SessionExamples.

(** One login of user "u1": a session of family "fam-1" whose current
    fingerprint is "F0", beside a session of another family. *)
Definition row (sid fam cur : string) : sessions.refresh_session :=
  sessions.mkSession sid "u1" "https://auth.example" fam cur None
    1700000000 1700000000 None None None None.

Definition table0 : list sessions.refresh_session :=
  [row "s-1" "fam-1" "F0"; row "s-2" "fam-2" "G0"].

End SessionExamples.

(* ================================================================== *)
(** ** Further functions of the Go standard library *)
(* ================================================================== *)

Module gostrings.

(** [strings.Count(s, sep)] for a separator of one byte. *)
Fixpoint Count (s : string) (sep : ascii) : nat :=
  match s with
  | EmptyString => O
  | String c r => if Ascii.eqb c sep then S (Count r sep) else Count r sep
  end.

(** The alphabet of [base64.URLEncoding]. *)
Definition encodeURL : string :=
  "ABCDEFGHIJKLMNOPQRSTUVWXYZabcdefghijklmnopqrstuvwxyz0123456789-_".

Definition encodeCharURL (v : N) : ascii :=
  nth (N.to_nat v) (list_ascii_of_string encodeURL) "000"%char.

(** [base64.RawURLEncoding.EncodeToString]: the 6-bit groups of the
    standard encoding, written in the URL alphabet, without padding. *)
Definition EncodeToStringURL (src : list ascii) : string :=
  string_of_list_ascii (map encodeCharURL (gostd.sextets (map N_of_ascii src))).

End gostrings.

(* ================================================================== *)
(** ** password/bcrypt.go, package password *)
(* ================================================================== *)

Module bcrypt.
Import gostd.

(** [IsBcryptHash] *)
Definition IsBcryptHash (hash : string) : bool :=
  HasPrefix hash "$2a$" || HasPrefix hash "$2b$" || HasPrefix hash "$2y$".

(** [bcrypt.ErrMismatchedHashAndPassword] *)
Definition ErrMismatchedHashAndPassword : error :=
  "crypto/bcrypt: hashedPassword is not the hash of the given password".

Section Bcrypt.

(** [bcrypt.CompareHashAndPassword]: nil on a match. *)
Variable CompareHashAndPassword : list ascii → list ascii → option error.

(** [VerifyBcrypt] *)
Definition VerifyBcrypt (hash password : string) : bool * option error :=
  let err := CompareHashAndPassword (list_ascii_of_string hash)
               (list_ascii_of_string password) in
  if bool_decide (err = Some ErrMismatchedHashAndPassword) then (false, None)
  else (bool_decide (err = None), err).

End Bcrypt.

End bcrypt.

(** The calls of a run that were admitted. *)
Module LimiterWindow.
Import memorylimiter.

(** [time.Now().UnixNano() / 1e6] *)
Definition unixMs (nowNano : Z) : Z := Z.quot nowNano 1000000.

(** The clock readings of the admitted calls, given the readings of all
    calls and the decisions taken. *)
Fixpoint admittedTimes (clockMs : list Z) (ds : list bool) : list Z :=
  match clockMs, ds with
  | m :: clockMs', d :: ds' =>
      if d then m :: admittedTimes clockMs' ds' else admittedTimes clockMs' ds'
  | _, _ => []
  end.

(** The bucket after a call and the admitted calls so far, seen through
    any window that starts no earlier than the window of that call. *)
Definition tracks (w c : Z) (ts adm : list Z) : Prop :=
  StronglySorted Z.le ts ∧ Forall (λ t, t ≤ c) ts ∧
  ∀ ws, c - w ≤ ws → inWindow ws ts = inWindow ws adm.

End LimiterWindow.

(* ================================================================== *)
(** ** package siws: nonces, new inputs and their options, timestamps *)
(* ================================================================== *)

Module siwsinput.

Import gostd gostrings siws.

(** A [time.Time]: an instant, in nanoseconds since the Unix epoch, and the
    location it is shown in. *)
Record Time := mkTime { unixNano : Z; location : string }.

(** [t.Add(d)], [t.After(u)], [t.Before(u)], [t.UTC()] *)
Definition Add (t : Time) (d : Z) : Time := mkTime (unixNano t + d) (location t).
Definition After (t u : Time) : bool := unixNano u <? unixNano t.
Definition Before (t u : Time) : bool := unixNano t <? unixNano u.
Definition UTC (t : Time) : Time := mkTime (unixNano t) "UTC".

Section Environment.

(** [rand.Read] on a buffer of the given length, [t.Format(time.RFC3339)]
    and [time.Parse(time.RFC3339, s)]. *)
Variable randRead : Z → result (list ascii).
Variable Format : Time → string.
Variable Parse : string → result Time.

(** [GenerateNonce] *)
Definition GenerateNonce : result string :=
  match randRead 16 with
  | Err e => Err ("failed to generate nonce: " ++ e)%string
  | Ok b => Ok (oidckit.TrimRight (EncodeToStringURL b) "=")
  end.

(** [type InputOption]: a function that updates the input it is given. *)
Definition InputOption : Type := SignInInput → SignInInput.

Definition WithStatement (statement : string) : InputOption :=
  λ i, setStatement i statement.

Definition WithURI (uri : string) : InputOption := λ i, setURI i uri.

Definition WithChainID (chainID : string) : InputOption := λ i, setChainID i chainID.

(** [WithExpirationDuration]; [now] is the clock reading taken when the
    issued-at text does not parse. *)
Definition WithExpirationDuration (now : Time) (d : Z) : InputOption :=
  λ i,
    let issuedAt :=
      match Parse (IssuedAt i) with
      | Ok t => t
      | Err _ => UTC now
      end in
    setExpirationTime i (Format (Add issuedAt d)).

Definition WithResources (resources : list string) : InputOption :=
  λ i, setResources i (Resources i ++ resources)%list.

(** [NewSignInInput] *)
Definition NewSignInInput (now : Time) (domain address : string)
  (opts : list InputOption) : SignInInput * option error :=
  match GenerateNonce with
  | Err e => (zeroInput, Some e)
  | Ok nonce =>
      let now := UTC now in
      let issuedAt := Format now in
      let expirationTime := Format (Add now (15 * Minute)) in
      let input :=
        mkInput domain address None None (Some "1") (Some "mainnet") nonce issuedAt
          (Some expirationTime) None None [] in
      (fold_left (λ i opt, opt i) opts input, None)
  end.

(** The three checks of [ValidateTimestamps], each [None] when it passes. *)
Definition checkExpiration (now : Time) (input : SignInInput) : option error :=
  match ExpirationTime input with
  | Some s =>
      if bool_decide (s = "") then None
      else
        match Parse s with
        | Err e => Some ("invalid expiration time format: " ++ e)%string
        | Ok exp =>
            if After now exp then Some ("message expired at " ++ s)%string else None
        end
  | None => None
  end.

Definition checkNotBefore (now : Time) (input : SignInInput) : option error :=
  match NotBefore input with
  | Some s =>
      if bool_decide (s = "") then None
      else
        match Parse s with
        | Err e => Some ("invalid not-before time format: " ++ e)%string
        | Ok nb =>
            if Before now nb then Some ("message not valid until " ++ s)%string else None
        end
  | None => None
  end.

Definition checkIssuedAt (now : Time) (input : SignInInput) : option error :=
  if bool_decide (IssuedAt input = "") then None
  else
    match Parse (IssuedAt input) with
    | Err e => Some ("invalid issued-at time format: " ++ e)%string
    | Ok issued =>
        if After issued (Add now (5 * Minute))
        then Some ("message issued in the future: " ++ IssuedAt input)%string
        else None
    end.

(** [ValidateTimestamps], [now] being [time.Now()]. *)
Definition ValidateTimestamps (now : Time) (input : SignInInput) : option error :=
  let now := UTC now in
  match checkExpiration now input with
  | Some e => Some e
  | None =>
      match checkNotBefore now input with
      | Some e => Some e
      | None => checkIssuedAt now input
      end
  end.

End Environment.

(** An option that keeps the inputs the message format can carry. *)
Definition preserves (opt : SignInInput → SignInInput) : Prop :=
  ∀ i, wellFormed i = true → wellFormed (opt i) = true.

(** The input [ParseMessage] returns with the error "missing address". *)
Definition domainOnly (d : string) : SignInInput :=
  mkInput d "" None None None None "" "" None None None [].

End siwsinput.

Module SiwsInputExamples.

Import siwsinput.

Definition sixteen (n : Z) : result (list ascii) :=
  Ok (list_ascii_of_string "0123456789abcdef").

(** A formatter that writes the instant as a decimal number of seconds,
    and its parser. *)
Definition showSeconds (t : Time) : string :=
  gostd.formatUint (unixNano t / 1000000000).

Definition readSeconds (s : string) : result Time :=
  match DecimalString.NilEmpty.uint_of_string s with
  | Some d => Ok (mkTime (Z.of_N (N.of_uint d) * 1000000000) "UTC")
  | None => Err "parsing time: cannot parse"
  end.

Definition noon : Time := mkTime 1700000000000000000 "Local".

End SiwsInputExamples.

(* ================================================================== *)
(** ** storage/memory/state_cache.go, package memorystore *)
(* ================================================================== *)

Module memorystore.

Section StateCache.

(** [oidckit.StateData], declared outside the sources, and its zero value
    [oidckit.StateData{}]. *)
Variable StateData : Type.
Variable zeroStateData : StateData.

(** [type item struct { v; exp }]: [exp] is an instant, in nanoseconds. *)
Record item := mkItem { v : StateData; exp : Z }.

(** [type StateCache struct { mu; ttl; data; closed }].  The mutex
    serialises the calls; the channel only stops the cleanup goroutine. *)
Record StateCache := mkStateCache {
  ttl : Z;
  data : gmap string item
}.

(** [NewStateCache]; the cleanup goroutine it starts calls [cleanup] every
    minute. *)
Definition NewStateCache (ttl : Z) : StateCache :=
  {| ttl := if ttl <=? 0 then 10 * Minute else ttl; data := ∅ |}.

(** [(s *StateCache) Put], [now] being [time.Now()]. *)
Definition Put (s : StateCache) (now : Z) (state : string) (v : StateData)
  : StateCache * option error :=
  ({| ttl := ttl s; data := <[state := mkItem v (now + ttl s)]> (data s) |}, None).

(** [(s *StateCache) Get] *)
Definition Get (s : StateCache) (now : Z) (state : string)
  : StateCache * (StateData * bool * option error) :=
  match data s !! state with
  | None => (s, (zeroStateData, false, None))
  | Some it =>
      if exp it <? now
      then ({| ttl := ttl s; data := delete state (data s) |},
            (zeroStateData, false, None))
      else (s, (v it, true, None))
  end.

(** [(s *StateCache) Del] *)
Definition Del (s : StateCache) (state : string) : StateCache * option error :=
  ({| ttl := ttl s; data := delete state (data s) |}, None).

(** [(s *StateCache) cleanup]: the range loop deletes, from the map it
    ranges over, every entry it finds expired. *)
Definition cleanup (s : StateCache) (now : Z) : StateCache :=
  {| ttl := ttl s;
     data := map_fold (λ k it acc, if exp it <? now then delete k acc else acc)
               (data s) (data s) |}.

End StateCache.

Arguments mkItem {StateData} v exp.
Arguments v {StateData} i.
Arguments exp {StateData} i.
Arguments mkStateCache {StateData} ttl data.
Arguments ttl {StateData} s.
Arguments data {StateData} s.
Arguments NewStateCache {StateData} ttl.
Arguments Put {StateData} s now state v.
Arguments Get {StateData} zeroStateData s now state.
Arguments Del {StateData} s state.
Arguments cleanup {StateData} s now.

End memorystore.

(* ================================================================== *)
(** ** lang/lang.go, package lang *)
(* ================================================================== *)

Module authlang.

(** A [context.Context] as the chain of values attached to it, the latest
    first.  A key is [ctxKey{}], which only this package can write, or a
    key of another package; a value is seen through the type assertion
    [v.(string)]. *)
Inductive contextKey :=
  | ctxKey
  | foreignKey (name : string).

Inductive anyValue :=
  | AString (s : string)
  | AOther.

Definition Context : Type := list (contextKey * anyValue).

Definition sameKey (a b : contextKey) : bool :=
  match a, b with
  | ctxKey, ctxKey => true
  | foreignKey x, foreignKey y => String.eqb x y
  | _, _ => false
  end.

(** [context.WithValue] and [ctx.Value] *)
Definition WithValue (ctx : Context) (k : contextKey) (v : anyValue) : Context :=
  (k, v) :: ctx.

Fixpoint Value (ctx : Context) (k : contextKey) : option anyValue :=
  match ctx with
  | [] => None
  | (k', v) :: parent => if sameKey k' k then Some v else Value parent k
  end.

(** [WithLanguage] *)
Definition WithLanguage (ctx : Context) (language : string) : Context :=
  WithValue ctx ctxKey (AString language).

(** [LanguageFromContext] *)
Definition LanguageFromContext (ctx : Context) : string * bool :=
  match Value ctx ctxKey with
  | Some (AString s) => (s, negb (bool_decide (s = "")))
  | _ => ("", false)
  end.

End authlang.

(* ================================================================== *)
(** ** adapters/gin/language.go and current_user.go, package authgin *)
(* ================================================================== *)

Module authgin.

Import authlang.

(** [type LanguageConfig struct] *)
Record LanguageConfig := mkLanguageConfig {
  Supported : list string;
  Default : string;
  QueryParam : string;
  CookieName : string
}.

(** The [*gin.Context] as these functions read and write it: the query
    parameters ([c.Query]), the URL path, the cookies ([c.Cookie], which
    fails when the cookie is absent), the request headers ([c.GetHeader]),
    the request's context, and the keys set with [c.Set]. *)
Record GinContext := mkGinContext {
  Query : string → string;
  Path : string;
  Cookie : string → result string;
  GetHeader : string → string;
  RequestContext : Context;
  Keys : gmap string anyValue
}.

(** [type UserView struct] *)
Record UserView := mkUserView {
  UserID : string;
  Email : string;
  Username : option string;
  DiscordUsername : option string;
  Language : string;
  Roles : list string;
  Entitlements : list string;
  Source : string
}.

(** What [GetUserContext] and [ClaimsFromGin] return, both declared
    outside the sources: the fields [CurrentUser] reads. *)
Record UserContext := mkUserContext {
  ucUserID : string;
  ucEmail : string;
  ucDiscordUsername : option string;
  ucRoles : list string;
  ucEntitlements : list string
}.

Record Claims := mkClaims {
  clUserID : string;
  clEmail : string;
  clRoles : list string;
  clEntitlements : list string
}.

(** [(c *LanguageConfig) defaulted] *)
Definition defaulted (c : option LanguageConfig) : LanguageConfig :=
  match c with
  | None => mkLanguageConfig [] "en" "lang" "lang"
  | Some out =>
      mkLanguageConfig (Supported out)
        (if bool_decide (siws.TrimSpace (Default out) = "") then "en" else Default out)
        (if bool_decide (siws.TrimSpace (QueryParam out) = "") then "lang"
         else QueryParam out)
        (if bool_decide (siws.TrimSpace (CookieName out) = "") then "lang"
         else CookieName out)
  end.

(** [s[:i]] for the index [i] of the first byte that satisfies [stop], the
    whole of [s] when there is none: the effect of
    [if i := strings.IndexAny(s, chars); i >= 0 { s = s[:i] }] and of the
    same with [strings.IndexByte]. *)
Fixpoint upTo (stop : ascii → bool) (s : string) : string :=
  match s with
  | EmptyString => EmptyString
  | String c r => if stop c then EmptyString else String c (upTo stop r)
  end.

(** [strings.TrimLeft(s, cutset)] for a cutset of one ASCII character. *)
Fixpoint TrimLeft (s : string) (cut : ascii) : string :=
  match s with
  | String c r => if Ascii.eqb c cut then TrimLeft r cut else s
  | EmptyString => EmptyString
  end.

(** [reSimpleLang.MatchString]: the pattern [^[a-z]{2}$] matches a text of
    exactly two lower-case ASCII letters. *)
Definition isLower (c : ascii) : bool :=
  let n := nat_of_ascii c in ((97 <=? n) && (n <=? 122))%nat.

Definition matchSimpleLang (s : string) : bool :=
  match s with
  | String a (String b EmptyString) => isLower a && isLower b
  | _ => false
  end.

Section Language.

(** [strings.ToLower] *)
Variable ToLower : string → string.

(** [normalizeLangCode] *)
Definition normalizeLangCode (s : string) : string :=
  let s := siws.TrimSpace (ToLower s) in
  if bool_decide (s = "") then ""
  else
    let s := upTo (λ c, Ascii.eqb c "-" || Ascii.eqb c "_") s in
    if negb (matchSimpleLang s) then "" else s.

(** [supportedSet]: nil for an empty list. *)
Definition supportedSet (supported : list string) : option (gset string) :=
  if (length supported =? 0)%nat then None
  else
    Some (fold_left
            (λ m s, let n := normalizeLangCode s in
                    if bool_decide (n = "") then m else {[ n ]} ∪ m)
            supported ∅).

(** The test [supported == nil] or [_, ok := supported[lang]; ok]. *)
Definition allowed (supported : option (gset string)) (lang : string) : bool :=
  match supported with
  | None => true
  | Some m => bool_decide (lang ∈ m)
  end.

(** [pickFromAcceptLanguage] *)
Definition pickFromAcceptLanguage (header : string) (supported : option (gset string))
  : string :=
  let header := siws.TrimSpace header in
  if bool_decide (header = "") then ""
  else
    default ""
      (fold_left
      (λ (found : option string) part,
         match found with
         | Some _ => found
         | None =>
             let part := siws.TrimSpace part in
             if bool_decide (part = "") then None
             else
               let part := upTo (λ c, Ascii.eqb c ";") part in
               let lang := normalizeLangCode part in
               if bool_decide (lang = "") then None
               else if allowed supported lang then Some lang else None
         end)
      (gostd.Split header ",") None).

(** [pickFromPathPrefix] *)
Definition pickFromPathPrefix (path : string) (supported : option (gset string)) : string :=
  let path := TrimLeft path "/" in
  if (String.length path <? 3)%nat then ""
  else
    let seg := upTo (λ c, Ascii.eqb c "/") path in
    let lang := normalizeLangCode seg in
    if bool_decide (lang = "") then ""
    else if allowed supported lang then lang else "".

(** [resolveRequestLanguage] *)
Definition resolveRequestLanguage (c : GinContext) (cfg : LanguageConfig) : string :=
  let supported := supportedSet (Supported cfg) in
  let qp := normalizeLangCode (Query c (QueryParam cfg)) in
  if negb (bool_decide (qp = "")) && allowed supported qp then qp
  else
    let lp := pickFromPathPrefix (Path c) supported in
    if negb (bool_decide (lp = "")) then lp
    else
      let fromCookie :=
        if bool_decide (CookieName cfg = "") then None
        else
          match Cookie c (CookieName cfg) with
          | Ok cv =>
              let ck := normalizeLangCode cv in
              if negb (bool_decide (ck = "")) && allowed supported ck then Some ck
              else None
          | Err _ => None
          end in
      match fromCookie with
      | Some ck => ck
      | None =>
          let al := pickFromAcceptLanguage (GetHeader c "Accept-Language") supported in
          if negb (bool_decide (al = "")) then al
          else
            let def := normalizeLangCode (Default cfg) in
            if negb (bool_decide (def = "")) && allowed supported def then def
            else "en"
      end.

(** [LanguageMiddleware]: what the handler function does to the context
    before it calls [g.Next()]. *)
Definition LanguageMiddleware (cfg : option LanguageConfig) (g : GinContext) : GinContext :=
  let c := defaulted cfg in
  let lang := resolveRequestLanguage g c in
  mkGinContext (Query g) (Path g) (Cookie g) (GetHeader g)
    (WithLanguage (RequestContext g) lang)
    (<["authkit.language" := AString lang]> (Keys g)).

(** [GetUserContext] and [ClaimsFromGin], declared outside the sources. *)
Variable GetUserContext : GinContext → option UserContext.
Variable ClaimsFromGin : GinContext → option Claims.

(** [CurrentUser] *)
Definition CurrentUser (c : GinContext) : UserView * bool :=
  let reqLang :=
    match LanguageFromContext (RequestContext c) with
    | (v, true) => v
    | (_, false) => "en"
    end in
  let fromContext :=
    match GetUserContext c with
    | Some uc => if bool_decide (ucUserID uc = "") then None else Some uc
    | None => None
    end in
  match fromContext with
  | Some uc =>
      (mkUserView (ucUserID uc) (ucEmail uc) None (ucDiscordUsername uc) reqLang
         (ucRoles uc) (ucEntitlements uc) "userctx", true)
  | None =>
      let fromClaims :=
        match ClaimsFromGin c with
        | Some cl => if bool_decide (clUserID cl = "") then None else Some cl
        | None => None
        end in
      match fromClaims with
      | Some cl =>
          let du :=
            match Keys c !! "auth.discord_username" with
            | Some (AString s) => if bool_decide (s = "") then None else Some s
            | _ => None
            end in
          (mkUserView (clUserID cl) (clEmail cl) None du reqLang
             (clRoles cl) (clEntitlements cl) "claims", true)
      | None =>
          (mkUserView "" "" None None reqLang [] [] "none", false)
      end
  end.

End Language.

(** A language a pick may return. *)
Definition acceptable (supported : option (gset string)) (l : string) : Prop :=
  matchSimpleLang l = true ∧ allowed supported l = true.

End authgin.

Module LanguageExamples.

Import authlang authgin.

(** [strings.ToLower] on ASCII text. *)
Definition lowerASCII (s : string) : string :=
  string_of_list_ascii (map oidckit.lowerAscii (list_ascii_of_string s)).

(** The request of TestResolveRequestLanguage_SupportedEnforced. *)
Definition request : GinContext :=
  mkGinContext
    (λ k, if bool_decide (k = "lang") then "fr" else "")
    "/fr/auth/register"
    (λ n, if bool_decide (n = "lang") then Ok "fr" else Err "http: named cookie not present")
    (λ h, if bool_decide (h = "Accept-Language") then "fr-FR,fr;q=0.9,es;q=0.8" else "")
    [] ∅.

Definition config : LanguageConfig := mkLanguageConfig ["en"; "es"] "en" "lang" "lang".

End LanguageExamples.

(* ================================================================== *)
(** ** core/username.go, package core *)
(* ================================================================== *)

Module core.

Import gostd.

(** The bytes [cleanUsername] keeps: [a-z], [0-9] and the underscore.  The
    loop ranges over runes; a rune in these ranges is one ASCII byte, and
    an ASCII byte of a string is always a rune by itself. *)
Definition isDigit (c : ascii) : bool :=
  let n := nat_of_ascii c in ((48 <=? n) && (n <=? 57))%nat.

Definition keeps (c : ascii) : bool :=
  authgin.isLower c || isDigit c || Ascii.eqb c "_".

Fixpoint filterBytes (f : ascii → bool) (s : string) : string :=
  match s with
  | EmptyString => EmptyString
  | String c r => if f c then String c (filterBytes f r) else filterBytes f r
  end.

(** [s[:n]] for [n] no larger than [len(s)]. *)
Fixpoint firstBytes (n : nat) (s : string) : string :=
  match n, s with
  | S n', String c r => String c (firstBytes n' r)
  | _, _ => EmptyString
  end.

(** [fmt.Sprintf("%04d", n)] for a number that is not negative. *)
Definition pad4 (n : Z) : string :=
  let d := formatUint n in
  (string_of_list_ascii (repeat "0"%char (4 - String.length d)) ++ d)%string.

Section Usernames.

(** [strings.ToLower]; whether [s.getUserByUsername] finds a user with the
    name (its error is ignored by the callers); the successive results of
    [rand.Intn(10000)]. *)
Variable ToLower : string → string.
Variable taken : string → bool.
Variable randIntn : nat → Z.

(** [cleanUsername]; the text whose first byte is read is never empty. *)
Definition cleanUsername (s : string) : string :=
  let s := ToLower (siws.TrimSpace s) in
  if bool_decide (s = "") then ""
  else
    let out := filterBytes keeps s in
    let out := if bool_decide (out = "") then "user" else out in
    let out :=
      match out with
      | String c _ => if negb (authgin.isLower c) then ("u" ++ out)%string else out
      | EmptyString => out
      end in
    if (32 <? String.length out)%nat then firstBytes 32 out else out.

(** The names [GenerateAvailableUsername] tries, in order. *)
Definition candidates (base : string) : list string :=
  (base
   :: map (λ i, (base ++ formatUint (Z.of_nat i))%string) (seq 1 999)
   ++ map (λ tries, (base ++ pad4 (randIntn tries))%string) (seq 0 100))%list.

(** [(s *Service) GenerateAvailableUsername] *)
Definition GenerateAvailableUsername (base : string) : string :=
  let base := cleanUsername base in
  let base := if bool_decide (base = "") then "user" else base in
  match find (λ candidate, negb (taken candidate)) (candidates base) with
  | Some candidate => candidate
  | None => (base ++ "_user")%string
  end.

(** [(s *Service) DeriveUsernameForOAuth]; [local[:i]] for the index of the
    first at-sign, when it is not the first byte. *)
Definition DeriveUsernameForOAuth (provider preferred email displayName : string)
  : string :=
  if negb (bool_decide (siws.TrimSpace preferred = ""))
  then GenerateAvailableUsername preferred
  else
    let fromEmail :=
      if negb (bool_decide (siws.TrimSpace email = "")) then
        let local :=
          match email with
          | String c _ =>
              if Ascii.eqb c "@" then email
              else authgin.upTo (λ c, Ascii.eqb c "@") email
          | EmptyString => email
          end in
        if negb (bool_decide (siws.TrimSpace local = "")) then Some local else None
      else None in
    match fromEmail with
    | Some local => GenerateAvailableUsername local
    | None =>
        if negb (bool_decide (siws.TrimSpace displayName = ""))
        then GenerateAvailableUsername displayName
        else
          let base := if bool_decide (siws.TrimSpace provider = "") then "user"
                      else provider in
          GenerateAvailableUsername (base ++ "_user")
    end.

End Usernames.

(** A name as [cleanUsername] returns them: a lower-case letter first, then
    letters, digits and underscores. *)
Definition wellFormedName (u : string) : bool :=
  match u with
  | String c _ => authgin.isLower c
  | EmptyString => false
  end && forallb keeps (list_ascii_of_string u).

End core.

Module UsernameExamples.

(** The names "alice" and "alice1" to "alice3" exist. *)
Definition taken (u : string) : bool :=
  bool_decide (u ∈ ["alice"; "alice1"; "alice2"; "alice3"]).

End UsernameExamples.

(* ================================================================== *)
(** ** package oidckit: provider defaults and scopes *)
(* ================================================================== *)

Module oidcproviders.

(** [type RPConfig struct]; the secret provider is a function of the
    context, of which only its presence matters here. *)
Record RPConfig := mkRPConfig {
  ClientID : string;
  ClientSecret : string;
  SecretProvider : option (unit → result string);
  Scopes : list string
}.

(** [RPClient], declared outside the sources: the fields [DefaultsFor] and
    [NewManagerFromMinimal] set. *)
Record RPClient := mkRPClient {
  rpIssuer : string;
  rpScopes : list string;
  rpClientID : string;
  rpClientSecret : string;
  rpExtraAuthParams : gmap string string;
  rpClientSecretProvider : option (unit → result string)
}.

(** [DefaultsFor] *)
Definition DefaultsFor (name : string) : option RPClient :=
  if bool_decide (name = "google") then
    Some (mkRPClient "https://accounts.google.com" ["openid"; "email"; "profile"]
            "" "" ∅ None)
  else if bool_decide (name = "apple") then
    Some (mkRPClient "https://appleid.apple.com" ["openid"; "email"; "name"]
            "" "" {[ "response_mode" := "form_post" ]} None)
  else if bool_decide (name = "discord") then
    Some (mkRPClient "https://discord.com" ["identify"; "email"] "" "" ∅ None)
  else None.

(** [ensureOpenID] *)
Definition ensureOpenID (scopes : list string) : list string :=
  if existsb (λ s, bool_decide (s = "openid")) scopes then scopes
  else (scopes ++ ["openid"])%list.

Section Iteration.

(** The order in which a [range] over the set built by [mergeScopes]
    yields its keys: Go leaves it unspecified, so it is a parameter. *)
Variable keysInOrder : gset string → list string.

(** [mergeScopes] *)
Definition mergeScopes (base extra : list string) : list string :=
  let set := fold_left (λ set s, {[ s ]} ∪ set) base ∅ in
  let set := fold_left (λ set s, {[ s ]} ∪ set) extra set in
  keysInOrder set.

(** The entry [NewManagerFromMinimal] makes for one provider of the map it
    is given, if it makes one. *)
Definition clientFor (name : string) (m : RPConfig) : option RPClient :=
  match DefaultsFor name with
  | Some base =>
      let scopes :=
        if (0 <? length (Scopes m))%nat then mergeScopes (rpScopes base) (Scopes m)
        else rpScopes base in
      Some (mkRPClient (rpIssuer base) (ensureOpenID scopes) (ClientID m) (ClientSecret m)
              (rpExtraAuthParams base) (SecretProvider m))
  | None => None
  end.

(** The map [NewManagerFromMinimal] hands to [NewManager]. *)
Definition managerConfigs (min : gmap string RPConfig) : gmap string RPClient :=
  map_imap clientFor min.

End Iteration.

End oidcproviders.

(* ================================================================== *)
(** * Properties *)
(* ================================================================== *)

(** ** The rate limiters *)
Module LimiterProofs.

Import memorylimiter.

Lemma prune_cons ws t ts :
  prune ws (t :: ts) = if t <? ws then prune ws ts else t :: ts.
Proof.
  unfold prune; simpl.
  destruct (t <? ws); [|done].
  simpl. by destruct (pruneIdx ws ts).
Qed.

Lemma prune_nil ws : prune ws [] = [].
Proof. done. Qed.

Lemma prune_suffix ws ts : ∃ pre, ts = (pre ++ prune ws ts)%list ∧ Forall (λ t, t < ws) pre.
Proof.
  induction ts as [|t ts IH].
  - by exists [].
  - rewrite prune_cons. destruct (Z.ltb_spec t ws).
    + destruct IH as (pre & Heq & Hpre). exists (t :: pre). split.
      * simpl. by rewrite <- Heq.
      * by constructor.
    + by exists [].
Qed.

Lemma prune_Forall (P : Z → Prop) ws ts : Forall P ts → Forall P (prune ws ts).
Proof.
  intros H. destruct (prune_suffix ws ts) as (pre & Heq & _).
  rewrite Heq in H. by apply Forall_app in H as [_ H].
Qed.

Lemma prune_sorted ws ts : StronglySorted Z.le ts → StronglySorted Z.le (prune ws ts).
Proof.
  induction 1 as [|t ts Hs IH Hall].
  - constructor.
  - rewrite prune_cons. destruct (t <? ws); [done|]. by constructor.
Qed.

Lemma prune_fresh ws ts :
  StronglySorted Z.le ts → Forall (λ t, ws ≤ t) (prune ws ts).
Proof.
  induction 1 as [|t ts Hs IH Hall].
  - constructor.
  - rewrite prune_cons. destruct (Z.ltb_spec t ws); [done|].
    constructor; [done|]. eapply Forall_impl; [exact Hall|]. simpl. lia.
Qed.

Lemma prune_idem ws ts : prune ws (prune ws ts) = prune ws ts.
Proof.
  induction ts as [|t ts IH]; [done|].
  rewrite prune_cons. destruct (Z.ltb_spec t ws); [done|].
  rewrite prune_cons. destruct (Z.ltb_spec t ws); [lia|done].
Qed.

Lemma inWindow_prune ws ts : inWindow ws (prune ws ts) = inWindow ws ts.
Proof.
  unfold inWindow. induction ts as [|t ts IH]; [done|].
  rewrite prune_cons. destruct (Z.ltb_spec t ws); [|done].
  rewrite IH. rewrite filter_cons. by rewrite decide_False by lia.
Qed.

Lemma sorted_snoc ts c now :
  StronglySorted Z.le ts → Forall (λ t, t ≤ c) ts → c ≤ now →
  StronglySorted Z.le (ts ++ [now]).
Proof.
  induction 1 as [|t ts Hs IH Hall]; intros Hc Hle; simpl.
  - repeat constructor.
  - apply Forall_cons in Hc as [Ht Hc]. constructor; [by apply IH|].
    apply Forall_app. split; [done|]. constructor; [lia|constructor].
Qed.

(** One served call, seen at the accessed bucket: the decision and the
    timestamps stored afterwards are a function of the timestamps stored
    before. *)
Lemma AllowNamed_served l now bucket key :
  bucket ≠ "" → key ≠ "" →
  let lim := (get l bucket).1 in
  let nowMs := Z.quot now 1000000 in
  let lk := limitKeyOf key bucket in
  let ts := prune (nowMs - Milliseconds (window lim)) (stored l lk) in
  let allowed := negb (limit lim <=? Z.of_nat (length ts)) in
  let ts' := if allowed then (ts ++ [nowMs])%list else ts in
  AllowNamed (Some l) now bucket key =
    (Some {| limits := limits l;
             buckets := if bool_decide (ts' = []) then delete lk (buckets l)
                        else <[lk := mkBucket ts']> (buckets l) |},
     (allowed, None)).
Proof.
  intros Hb Hk. cbv zeta. unfold AllowNamed.
  rewrite !bool_decide_eq_false_2 by done. cbv zeta. simpl orb. cbv iota.
  replace (timestamps (default {| timestamps := [] |}
             (buckets l !! limitKeyOf key bucket)))
    with (stored l (limitKeyOf key bucket))
    by (unfold stored; by destruct (buckets l !! _)).
  set (ts := prune _ _).
  destruct (limit _ <=? _); simpl negb; cbv iota.
  - destruct ts as [|t ts0]; simpl.
    + by rewrite delete_insert_eq.
    + done.
  - rewrite bool_decide_eq_false_2 by (by destruct ts).
    rewrite length_app, Nat.add_1_r. reflexivity.
Qed.

Lemma AllowNamed_rejected l now bucket key :
  bucket = "" ∨ key = "" →
  AllowNamed (Some l) now bucket key = (Some l, (false, Some "bucket and key required")).
Proof.
  intros H. unfold AllowNamed.
  destruct H as [-> | ->]; [done|].
  rewrite (bool_decide_eq_true_2 ("" = "")) by done.
  by rewrite orb_true_r.
Qed.

Lemma bucketsInv_New lims c : bucketsInv (New lims) c.
Proof. intros k b H. simpl in H. by rewrite lookup_empty in H. Qed.

Lemma bucketsInv_mono l c c' : bucketsInv l c → c ≤ c' → bucketsInv l c'.
Proof.
  intros H Hle k b Hk. destruct (H k b Hk) as (Hne & Hs & Hall).
  repeat split; [done..|]. eapply Forall_impl; [exact Hall|]. simpl. lia.
Qed.

Lemma bucketsInv_stored l c k :
  bucketsInv l c →
  StronglySorted Z.le (stored l k) ∧ Forall (λ t, t ≤ c) (stored l k).
Proof.
  intros H. unfold stored. destruct (buckets l !! k) as [b|] eqn:Hk.
  - by destruct (H k b Hk) as (_ & ? & ?).
  - split; constructor.
Qed.

(** The in-memory limiter keeps its bucket map well formed across every
    AllowNamed call made with a clock that does not run backwards and a
    non-negative window: a fresh limiter has no entry; after a call every
    entry is non-empty and sorted; the accessed entry, if the call was
    served, holds no timestamp older than now minus the window; an entry is
    present afterwards only if it was present before or the call was
    admitted; the other entries are untouched; and an entry whose
    timestamps have all aged out is removed when the call is denied (when it
    is admitted it holds exactly the new timestamp), never kept empty. *)
Theorem memory_bucket_invariant
  (l : Limiter) (c now : Z) (bucket key : string) :
  bucketsInv l c →
  c ≤ Z.quot now 1000000 →
  0 ≤ window (get l bucket).1 →
  let nowMs := Z.quot now 1000000 in
  let ws := nowMs - Milliseconds (window (get l bucket).1) in
  let lk := limitKeyOf key bucket in
  let r := AllowNamed (Some l) now bucket key in
  (∀ lims c0, bucketsInv (New lims) c0) ∧
  ∃ l', after r = Some l' ∧
    bucketsInv l' nowMs ∧
    (snd (snd r) = None → Forall (λ t, ws ≤ t) (stored l' lk)) ∧
    (is_Some (buckets l' !! lk) → is_Some (buckets l !! lk) ∨ decision r = true) ∧
    (∀ k, k ≠ lk → buckets l' !! k = buckets l !! k) ∧
    (snd (snd r) = None → Forall (λ t, t < ws) (stored l lk) →
       if decision r then stored l' lk = [nowMs] else buckets l' !! lk = None).
Proof.
  intros Hinv Hclock Hwin nowMs ws lk r.
  split; [apply bucketsInv_New|].
  destruct (decide (bucket = "" ∨ key = "")) as [Hbad|Hok].
  { subst r. rewrite (AllowNamed_rejected _ _ _ _ Hbad). exists l.
    split; [done|]. split; [by eapply bucketsInv_mono|].
    split; [done|]. split; [by left|]. split; done. }
  assert (bucket ≠ "" ∧ key ≠ "") as [Hb Hk] by (split; intros ->; apply Hok; auto).
  subst r. rewrite (AllowNamed_served l now bucket key Hb Hk).
  fold nowMs lk ws.
  destruct (bucketsInv_stored l c lk Hinv) as [Hsorted Hbound].
  set (ts := prune ws (stored l lk)).
  assert (StronglySorted Z.le ts) as Hts by (by apply prune_sorted).
  assert (Forall (λ t, ws ≤ t) ts) as Hfresh by (by apply prune_fresh).
  assert (Forall (λ t, t ≤ c) ts) as Hold by (by apply prune_Forall).
  assert (0 ≤ Milliseconds (window (get l bucket).1)) as Hms
    by (unfold Milliseconds; apply Z.quot_pos; lia).
  set (allowed := negb (limit (get l bucket).1 <=? Z.of_nat (length ts))).
  set (ts' := if allowed then (ts ++ [nowMs])%list else ts).
  assert (StronglySorted Z.le ts') as Hts'.
  { subst ts'. destruct allowed; [|done]. by eapply sorted_snoc. }
  assert (Forall (λ t, ws ≤ t) ts') as Hfresh'.
  { subst ts'. destruct allowed; [|done]. apply Forall_app. split; [done|].
    constructor; [|constructor]. subst ws. lia. }
  assert (Forall (λ t, t ≤ nowMs) ts') as Hold'.
  { subst ts'. destruct allowed.
    - apply Forall_app. split.
      + eapply Forall_impl; [exact Hold|]. simpl. subst nowMs. lia.
      + constructor; [lia|constructor].
    - eapply Forall_impl; [exact Hold|]. simpl. subst nowMs. lia. }
  eexists. split; [reflexivity|]. simpl.
  split; [|split; [|split; [|split]]].
  - intros k b. simpl. case_bool_decide as Hnil.
    + intros Hlook. destruct (decide (k = lk)) as [->|Hne].
      * by rewrite lookup_delete_eq in Hlook.
      * rewrite lookup_delete_ne in Hlook by done.
        eapply bucketsInv_mono; [exact Hinv|exact Hclock|exact Hlook].
    + intros Hlook. destruct (decide (k = lk)) as [->|Hne].
      * rewrite lookup_insert_eq in Hlook. injection Hlook as <-. by simpl.
      * rewrite lookup_insert_ne in Hlook by done.
        eapply bucketsInv_mono; [exact Hinv|exact Hclock|exact Hlook].
  - intros _. unfold stored. simpl. case_bool_decide as Hnil.
    + rewrite lookup_delete_eq. constructor.
    + by rewrite lookup_insert_eq.
  - case_bool_decide as Hnil.
    + rewrite lookup_delete_eq. by intros [? ?].
    + intros _. destruct allowed eqn:Hadm; [by right|]. left.
      subst ts'. unfold stored in ts. destruct (buckets l !! lk); [done|].
      by subst ts.
  - intros k Hne. case_bool_decide.
    + by rewrite lookup_delete_ne.
    + by rewrite lookup_insert_ne.
  - intros _ Hstale.
    assert (ts = []) as Hempty.
    { subst ts. destruct (prune_suffix ws (stored l lk)) as (pre & Heq & _).
      destruct (prune ws (stored l lk)) as [|t rest] eqn:Hp; [done|].
      pose proof (prune_fresh ws _ Hsorted) as Hf. rewrite Hp in Hf.
      apply Forall_cons in Hf as [Hf _].
      rewrite Heq in Hstale. apply Forall_app in Hstale as [_ Hstale].
      apply Forall_cons in Hstale as [Hlt _]. lia. }
    unfold decision, stored. simpl. subst ts'. rewrite Hempty.
    destruct allowed; simpl.
    + by rewrite lookup_insert_eq.
    + by rewrite lookup_delete_eq.
Qed.

Lemma memory_bucket_invariant_witness :
  let l := LimiterExamples.twoAdmitted in
  let now := LimiterExamples.at_ms 61000 in
  let r := AllowNamed (Some l) now "login" "user1" in
  (∀ lims c0, bucketsInv (New lims) c0) ∧
  ∃ l', after r = Some l' ∧
    bucketsInv l' 1700000061000 ∧
    (snd (snd r) = None → Forall (λ t, 1700000001000 ≤ t) (stored l' "user1:login")) ∧
    (is_Some (buckets l' !! "user1:login") →
       is_Some (buckets l !! "user1:login") ∨ decision r = true) ∧
    (∀ k, k ≠ "user1:login" → buckets l' !! k = buckets l !! k) ∧
    (snd (snd r) = None → Forall (λ t, t < 1700000001000) (stored l "user1:login") →
       if decision r then stored l' "user1:login" = [1700000061000]
       else buckets l' !! "user1:login" = None).
Proof.
  apply (memory_bucket_invariant LimiterExamples.twoAdmitted 1700000000500
           (LimiterExamples.at_ms 61000) "login" "user1").
  - intros k b H. unfold LimiterExamples.twoAdmitted in H. simpl in H.
    apply lookup_singleton_Some in H as [_ <-]. simpl.
    split; [done|]. split; repeat constructor; lia.
  - vm_compute. discriminate.
  - vm_compute. discriminate.
Defined.

(** C9. The clock is read before the mutex is taken, so readings can reach
    the bucket out of order.  With limit 5 and window 60 s, calls that
    reach it with the readings 101 ms, 100 ms and 60101 ms are all
    admitted, and the entry accessed by the third call still holds the
    timestamp of the second, which is older than now minus the window
    (101 ms): the pruning loop stops at the first timestamp inside the
    window.  With limit 2 the stale timestamp is counted: the third call
    is denied although one admitted call only lies inside its window, and
    the stale timestamp stays in the entry. *)
Theorem memory_prune_keeps_stale_timestamp_behind_fresh_one :
  (snd (memorylimiter.run (Some (memorylimiter.New (Some LimiterExamples.loginLimits))) "login" "user1"
          [LimiterExamples.at_ms 101; LimiterExamples.at_ms 100;
           LimiterExamples.at_ms 60101])
     = [true; true; true] ∧
   (λ l, memorylimiter.stored l "user1:login")
     <$> fst (memorylimiter.run (Some (memorylimiter.New (Some LimiterExamples.loginLimits))) "login" "user1"
                [LimiterExamples.at_ms 101; LimiterExamples.at_ms 100;
                 LimiterExamples.at_ms 60101])
     = Some [1700000000101; 1700000000100; 1700000060101] ∧
   1700000000100 < Z.quot (LimiterExamples.at_ms 60101) 1000000
                   - Milliseconds (60 * Second)) ∧
  (snd (memorylimiter.run (Some (memorylimiter.New (Some LimiterExamples.twoLimit))) "login" "user1"
          [LimiterExamples.at_ms 101; LimiterExamples.at_ms 100;
           LimiterExamples.at_ms 60101])
     = [true; true; false] ∧
   (λ l, memorylimiter.stored l "user1:login")
     <$> fst (memorylimiter.run (Some (memorylimiter.New (Some LimiterExamples.twoLimit))) "login" "user1"
                [LimiterExamples.at_ms 101; LimiterExamples.at_ms 100;
                 LimiterExamples.at_ms 60101])
     = Some [1700000000101; 1700000000100] ∧
   memorylimiter.inWindow (Z.quot (LimiterExamples.at_ms 60101) 1000000 - Milliseconds (60 * Second))
     [1700000000101; 1700000000100]
     = [1700000000101]).
Proof. repeat split; vm_compute; reflexivity. Qed.

(** C10. Both limiters fail open on a nil receiver (the Redis one also on a
    nil client), returning (true, nil); on a non-nil limiter an empty bucket
    or key returns (false, error) and leaves the state as it was. *)
Theorem AllowNamed_nil_and_empty_arguments
  (ml : option memorylimiter.Limiter) (rl : option redislimiter.Limiter)
  (db : gmap string redislimiter.zkey) (execErr : option error)
  (now : Z) (bucket key : string) :
  (ml = None →
     memorylimiter.AllowNamed ml now bucket key = (None, (true, None))) ∧
  (rl = None ∨ (∃ l, rl = Some l ∧ redislimiter.rdb l = None) →
     redislimiter.AllowNamed rl db execErr now bucket key = (db, (true, None))) ∧
  (bucket = "" ∨ key = "" →
     (ml ≠ None →
        ∃ e, memorylimiter.AllowNamed ml now bucket key = (ml, (false, Some e))) ∧
     (∀ l, rl = Some l → redislimiter.rdb l ≠ None →
        ∃ e, redislimiter.AllowNamed rl db execErr now bucket key
             = (db, (false, Some e)))).
Proof.
  split; [by intros ->|]. split.
  - intros [-> | (l & -> & Hnil)]; [done|]. simpl. by rewrite Hnil.
  - intros Hempty. split.
    + destruct ml as [l|]; [intros _|done]. eexists.
      by apply AllowNamed_rejected.
    + intros l -> Hcli. unfold redislimiter.AllowNamed.
      destruct (redislimiter.rdb l); [|done].
      exists "bucket and key required".
      destruct Hempty as [-> | ->];
        rewrite (bool_decide_eq_true_2 ("" = "")) by done;
        [done|by rewrite orb_true_r].
Qed.

Lemma AllowNamed_nil_and_empty_arguments_witness :
  memorylimiter.AllowNamed None (LimiterExamples.at_ms 0) "login" "user1"
    = (None, (true, None)) ∧
  redislimiter.AllowNamed
    (Some (redislimiter.New None (Some LimiterExamples.loginLimitsR)))
    LimiterExamples.threeRecorded None (LimiterExamples.at_ms 0) "login" "user1"
    = (LimiterExamples.threeRecorded, (true, None)) ∧
  (∃ e, memorylimiter.AllowNamed (Some LimiterExamples.twoAdmitted)
          (LimiterExamples.at_ms 0) "login" ""
        = (Some LimiterExamples.twoAdmitted, (false, Some e))) ∧
  (∃ e, redislimiter.AllowNamed
          (Some (redislimiter.New (Some tt) (Some LimiterExamples.loginLimitsR)))
          LimiterExamples.threeRecorded None (LimiterExamples.at_ms 0) "" "user1"
        = (LimiterExamples.threeRecorded, (false, Some e))).
Proof.
  split; [|split; [|split]].
  - apply (AllowNamed_nil_and_empty_arguments None None ∅ None
             (LimiterExamples.at_ms 0) "login" "user1"). reflexivity.
  - apply (AllowNamed_nil_and_empty_arguments None
             (Some (redislimiter.New None (Some LimiterExamples.loginLimitsR)))
             LimiterExamples.threeRecorded None (LimiterExamples.at_ms 0)
             "login" "user1").
    right. eexists. split; reflexivity.
  - apply (AllowNamed_nil_and_empty_arguments
             (Some LimiterExamples.twoAdmitted) None ∅ None
             (LimiterExamples.at_ms 0) "login" "").
    + right. reflexivity.
    + discriminate.
  - destruct (AllowNamed_nil_and_empty_arguments None
             (Some (redislimiter.New (Some tt) (Some LimiterExamples.loginLimitsR)))
             LimiterExamples.threeRecorded None (LimiterExamples.at_ms 0)
             "" "user1") as (_ & _ & H).
    destruct (H (or_introl eq_refl)) as [_ Hredis].
    apply (Hredis _ eq_refl). discriminate.
Defined.

Lemma AllowNamed_stored l now bucket key :
  bucket ≠ "" → key ≠ "" →
  let lim := (get l bucket).1 in
  let nowMs := Z.quot now 1000000 in
  let lk := limitKeyOf key bucket in
  let ts := prune (nowMs - Milliseconds (window lim)) (stored l lk) in
  let allowed := negb (limit lim <=? Z.of_nat (length ts)) in
  ∃ l', AllowNamed (Some l) now bucket key = (Some l', (allowed, None)) ∧
        limits l' = limits l ∧
        stored l' lk = (if allowed then (ts ++ [nowMs])%list else ts).
Proof.
  intros Hb Hk. cbv zeta. rewrite (AllowNamed_served l now bucket key Hb Hk).
  eexists. split; [reflexivity|]. split; [done|].
  unfold stored at 1. simpl. case_bool_decide as Hnil.
  - by rewrite lookup_delete_eq.
  - by rewrite lookup_insert_eq.
Qed.

Lemma get_limits l l' bucket : limits l' = limits l → get l' bucket = get l bucket.
Proof. unfold get. by intros ->. Qed.

(** A denied call of the in-memory limiter records nothing, whatever the
    state: the bucket holds the pruned timestamps it held, the timestamps
    inside the window are the same as before, and the same call repeated
    at once is denied again and changes nothing. *)
Theorem memory_denial_records_nothing
  (l l' : Limiter) (now : Z) (bucket key : string) :
  AllowNamed (Some l) now bucket key = (Some l', (false, None)) →
  let ws := Z.quot now 1000000 - Milliseconds (window (get l bucket).1) in
  let lk := limitKeyOf key bucket in
  stored l' lk = prune ws (stored l lk) ∧
  inWindow ws (stored l' lk) = inWindow ws (stored l lk) ∧
  AllowNamed (Some l') now bucket key = (Some l', (false, None)).
Proof.
  intros H ws lk.
  destruct (decide (bucket = "" ∨ key = "")) as [Hbad|Hok].
  { by rewrite (AllowNamed_rejected _ _ _ _ Hbad) in H. }
  assert (bucket ≠ "" ∧ key ≠ "") as [Hb Hk] by (split; intros ->; apply Hok; auto).
  rewrite (AllowNamed_served l now bucket key Hb Hk) in H. fold ws lk in H.
  set (ts := prune ws (stored l lk)) in *.
  injection H as Hl' Hdec. rewrite Hdec in Hl'.
  assert (stored l' lk = ts) as Hst.
  { rewrite <- Hl'. unfold stored. simpl. case_bool_decide as Hnil.
    - by rewrite lookup_delete_eq.
    - by rewrite lookup_insert_eq. }
  assert (get l' bucket = get l bucket) as Hget by (apply get_limits; by rewrite <- Hl').
  split; [done|]. split; [by rewrite Hst; apply inWindow_prune|].
  rewrite (AllowNamed_served l' now bucket key Hb Hk).
  rewrite Hget. fold ws lk. rewrite Hst. subst ts. rewrite prune_idem.
  set (ts := prune ws (stored l lk)) in *. rewrite Hdec.
  f_equal. f_equal. rewrite <- Hl' at 3. simpl. rewrite <- Hl'. simpl.
  f_equal. case_bool_decide.
  - by rewrite delete_delete_eq.
  - by rewrite insert_insert_eq.
Qed.

Lemma memory_denial_records_nothing_witness :
  let l := LimiterExamples.threeStored in
  let now := LimiterExamples.at_ms 2000 in
  let ws := Z.quot now 1000000 - Milliseconds (window (get l "login").1) in
  stored l "user1:login" = prune ws (stored l "user1:login") ∧
  inWindow ws (stored l "user1:login") = inWindow ws (stored l "user1:login") ∧
  AllowNamed (Some l) now "login" "user1" = (Some l, (false, None)).
Proof.
  apply (memory_denial_records_nothing LimiterExamples.threeStored
           LimiterExamples.threeStored (LimiterExamples.at_ms 2000) "login" "user1").
  vm_compute. reflexivity.
Defined.

Lemma run_bucketRun bucket key clock : ∀ l,
  bucket ≠ "" → key ≠ "" →
  snd (run (Some l) bucket key clock)
  = bucketRun (get l bucket).1 (stored l (limitKeyOf key bucket))
      (map (λ n, Z.quot n 1000000) clock).
Proof.
  induction clock as [|now clock IH]; intros l Hb Hk; [done|].
  cbn [run map bucketRun].
  destruct (AllowNamed_stored l now bucket key Hb Hk) as (l' & Hcall & Hlim & Hst).
  rewrite Hcall. unfold after, decision. cbn [fst snd].
  specialize (IH l' Hb Hk). rewrite (get_limits l l' bucket Hlim), Hst in IH.
  destruct (run (Some l') bucket key clock) as [lf ds]. cbn [snd] in *.
  unfold bucketStep.
  destruct (limit (get l bucket).1 <=? _); cbn [negb] in *; by rewrite IH.
Qed.

Lemma bucketStep_admit lim ts m :
  prune (m - Milliseconds (window lim)) ts = ts →
  Z.of_nat (length ts) < limit lim →
  bucketStep lim ts m = ((ts ++ [m])%list, true).
Proof.
  intros Hp Hlen. unfold bucketStep. rewrite Hp.
  destruct (Z.leb_spec (limit lim) (Z.of_nat (length ts))); [lia|done].
Qed.

Lemma bucketStep_deny lim ts m :
  prune (m - Milliseconds (window lim)) ts = ts →
  limit lim ≤ Z.of_nat (length ts) →
  bucketStep lim ts m = (ts, false).
Proof.
  intros Hp Hlen. unfold bucketStep. rewrite Hp.
  destruct (Z.leb_spec (limit lim) (Z.of_nat (length ts))); [done|lia].
Qed.

Lemma prune_head_kept ws t ts : ws ≤ t → prune ws (t :: ts) = t :: ts.
Proof. intros H. rewrite prune_cons. destruct (Z.ltb_spec t ws); [lia|done]. Qed.

Lemma prune_length ws ts : (length (prune ws ts) ≤ length ts)%nat.
Proof.
  destruct (prune_suffix ws ts) as (pre & Heq & _).
  apply (f_equal length) in Heq. rewrite length_app in Heq. lia.
Qed.

(** The example of the specification on the in-memory limiter: with bucket
    "login", limit 5 and window 60 s, five calls within 60 s of the first
    are admitted, a sixth within those 60 s is denied, and a call later
    than 60 s after the first is admitted. *)
Theorem memory_login_example (n1 n2 n3 n4 n5 n6 n7 : Z) :
  let ms n := Z.quot n 1000000 in
  ms n1 ≤ ms n2 ≤ ms n1 + 60000 →
  ms n1 ≤ ms n3 ≤ ms n1 + 60000 →
  ms n1 ≤ ms n4 ≤ ms n1 + 60000 →
  ms n1 ≤ ms n5 ≤ ms n1 + 60000 →
  ms n1 ≤ ms n6 ≤ ms n1 + 60000 →
  ms n1 + 60000 < ms n7 →
  snd (run (Some (New (Some LimiterExamples.loginLimits))) "login" "user1"
         [n1; n2; n3; n4; n5; n6; n7])
  = [true; true; true; true; true; false; true].
Proof.
  intros ms H2 H3 H4 H5 H6 H7.
  rewrite run_bucketRun by done.
  change (get (New (Some LimiterExamples.loginLimits)) "login").1
    with (mkLimit 5 (60 * Second)).
  change (stored _ _) with (@nil Z). cbn [map].
  fold (ms n1) (ms n2) (ms n3) (ms n4) (ms n5) (ms n6) (ms n7).
  set (lim := mkLimit 5 (60 * Second)).
  assert (Milliseconds (window lim) = 60000) as Hw by done.
  assert (limit lim = 5) as Hlim by done.
  cbn [bucketRun].
  rewrite (bucketStep_admit lim [] (ms n1)) by (done || (simpl; lia)).
  rewrite (bucketStep_admit lim _ (ms n2))
    by (rewrite ?Hw, ?Hlim; (apply prune_head_kept; lia) || (simpl; lia)).
  rewrite (bucketStep_admit lim _ (ms n3))
    by (rewrite ?Hw, ?Hlim; (apply prune_head_kept; lia) || (simpl; lia)).
  rewrite (bucketStep_admit lim _ (ms n4))
    by (rewrite ?Hw, ?Hlim; (apply prune_head_kept; lia) || (simpl; lia)).
  rewrite (bucketStep_admit lim _ (ms n5))
    by (rewrite ?Hw, ?Hlim; (apply prune_head_kept; lia) || (simpl; lia)).
  rewrite (bucketStep_deny lim _ (ms n6))
    by (rewrite ?Hw, ?Hlim; (apply prune_head_kept; lia) || (simpl; lia)).
  do 6 f_equal. unfold bucketStep. rewrite Hw, Hlim. cbn [app].
  rewrite prune_cons. destruct (Z.ltb_spec (ms n1) (ms n7 - 60000)); [|lia].
  pose proof (prune_length (ms n7 - 60000) [ms n2; ms n3; ms n4; ms n5]) as Hlen.
  simpl in Hlen.
  destruct (Z.leb_spec 5 (Z.of_nat (length (prune (ms n7 - 60000)
                                            [ms n2; ms n3; ms n4; ms n5]))));
    [lia|done].
Qed.

Lemma memory_login_example_witness :
  snd (run (Some (New (Some LimiterExamples.loginLimits))) "login" "user1"
         (map LimiterExamples.at_ms [0; 1000; 2000; 3000; 60000; 60000; 60001]))
  = [true; true; true; true; true; false; true].
Proof.
  apply (memory_login_example
           (LimiterExamples.at_ms 0) (LimiterExamples.at_ms 1000)
           (LimiterExamples.at_ms 2000) (LimiterExamples.at_ms 3000)
           (LimiterExamples.at_ms 60000) (LimiterExamples.at_ms 60000)
           (LimiterExamples.at_ms 60001));
    vm_compute; repeat split; discriminate.
Defined.

(** C2. On the Redis limiter configured with bucket "login", limit 5 and
    window 60 s, six calls of Allow("login","user1") made within the same
    millisecond are all admitted: the sorted-set member is the millisecond
    timestamp, so the six events are one member.  The in-memory limiter
    denies the sixth of the same six calls. *)
Theorem redis_admits_sixth_call_of_one_millisecond :
  snd (redislimiter.run
         (Some (redislimiter.New (Some tt) (Some LimiterExamples.loginLimitsR)))
         ∅ "login" "user1" (repeat (LimiterExamples.at_ms 0) 6))
    = [true; true; true; true; true; true] ∧
  snd (memorylimiter.run
         (Some (memorylimiter.New (Some LimiterExamples.loginLimits)))
         "login" "user1" (repeat (LimiterExamples.at_ms 0) 6))
    = [true; true; true; true; true; false].
Proof. split; vm_compute; reflexivity. Qed.

(** C4. With limit 1 and window 60 s, a call followed by a second call
    exactly 60 s later is denied by the in-memory limiter (it keeps a
    timestamp equal to now minus the window) and admitted by the Redis
    limiter (ZREMRANGEBYSCORE removes it, its upper bound being inclusive);
    and two calls of one millisecond are denied, respectively admitted. *)
Theorem backends_disagree_on_boundary_and_on_equal_timestamps :
  (snd (memorylimiter.run
          (Some (memorylimiter.New (Some LimiterExamples.oneLimit)))
          "login" "user1" [LimiterExamples.at_ms 0; LimiterExamples.at_ms 60000])
     = [true; false] ∧
   snd (redislimiter.run
          (Some (redislimiter.New (Some tt) (Some LimiterExamples.oneLimitR)))
          ∅ "login" "user1" [LimiterExamples.at_ms 0; LimiterExamples.at_ms 60000])
     = [true; true]) ∧
  (snd (memorylimiter.run
          (Some (memorylimiter.New (Some LimiterExamples.oneLimit)))
          "login" "user1" [LimiterExamples.at_ms 0; LimiterExamples.at_ms 0])
     = [true; false] ∧
   snd (redislimiter.run
          (Some (redislimiter.New (Some tt) (Some LimiterExamples.oneLimitR)))
          ∅ "login" "user1" [LimiterExamples.at_ms 0; LimiterExamples.at_ms 0])
     = [true; true]).
Proof. repeat split; vm_compute; reflexivity. Qed.

(** C5. A denied call of the Redis limiter can remove a recorded event:
    with three events recorded and a limit of two, a call in the millisecond
    of the third event is denied and its ZREM deletes that event.  The
    in-memory limiter, on the same three events, leaves them in place. *)
Theorem redis_denial_removes_event_of_same_millisecond :
  let l := Some (redislimiter.New (Some tt) (Some LimiterExamples.twoLimitR)) in
  let r := redislimiter.AllowNamed l LimiterExamples.threeRecorded None
             (LimiterExamples.at_ms 2000) "login" "user1" in
  redislimiter.members LimiterExamples.threeRecorded 1700000002000 "user1:login"
    = {[ 1700000000000; 1700000001000; 1700000002000 ]} ∧
  snd r = (false, None) ∧
  redislimiter.members (fst r) 1700000002000 "user1:login"
    = {[ 1700000000000; 1700000001000 ]} ∧
  memorylimiter.AllowNamed (Some LimiterExamples.threeStored)
    (LimiterExamples.at_ms 2000) "login" "user1"
    = (Some LimiterExamples.threeStored, (false, None)).
Proof. repeat split; vm_compute; reflexivity. Qed.

End LimiterProofs.

(** ** The Redis limiter against the in-memory limiter *)
Module BackendProofs.
Import redislimiter LimiterRelation.

Lemma formatSec_pos w : 0 ≤ w → 0 < formatSec (w + Second).
Proof.
  intros Hw. unfold formatSec, Second, Millisecond.
  destruct ((0 <? w + 1000 * 1000000) && (w + 1000 * 1000000 <? 1000 * 1000000));
    [lia|].
  apply Z.quot_str_pos. lia.
Qed.

Lemma live_insert_fresh db now k z d :
  now < d → live (<[k := mkZKey z (Some d)]> db) now k = Some (mkZKey z (Some d)).
Proof.
  intros Hd. unfold live. rewrite lookup_insert_eq. simpl.
  destruct (Z.leb_spec d now); [lia|done].
Qed.

Lemma redis_call_served l db now bucket key c :
  rdb l = Some c → bucket ≠ "" → key ≠ "" →
  let lim := (get l bucket).1 in
  let nowMs := Z.quot now 1000000 in
  let start := nowMs - Milliseconds (window lim) in
  let lk := limitKeyOf key bucket in
  0 ≤ window lim → 0 < Milliseconds (window lim) →
  let z := trimmedSet (<[nowMs := nowMs]> (current db nowMs lk)) 0 start in
  let deadline := nowMs + 1000 * formatSec (window lim + Second) in
  let denied := limit lim <? Z.of_nat (size z) in
  AllowNamed (Some l) db None now bucket key =
    (if denied then store (<[lk := mkZKey z (Some deadline)]> db) lk
                      (mkZKey (delete nowMs z) (Some deadline))
     else <[lk := mkZKey z (Some deadline)]> db,
     (negb denied, None)).
Proof.
  intros Hc Hb Hk lim nowMs start lk Hw Hms z deadline denied.
  unfold AllowNamed. rewrite Hc. rewrite !bool_decide_eq_false_2 by done.
  cbn [orb]. fold lim nowMs lk. fold start.
  pose proof (formatSec_pos (window lim) Hw) as Hfs.
  assert (nowMs < deadline) as Hdl by (subst deadline; lia).
  (* ZADD *)
  assert (∃ ex, ZAdd db nowMs lk nowMs nowMs
                = <[lk := mkZKey (<[nowMs := nowMs]> (current db nowMs lk)) ex]> db
                ∧ live (ZAdd db nowMs lk nowMs nowMs) nowMs lk
                  = Some (mkZKey (<[nowMs := nowMs]> (current db nowMs lk)) ex))
    as (ex & Hadd & Hlive1).
  { unfold ZAdd, current. destruct (live db nowMs lk) as [e|] eqn:Hl.
    - exists (expireAt e). split; [done|].
      unfold live in *. rewrite lookup_insert_eq. simpl.
      destruct (db !! lk) as [e0|]; [|done].
      destruct (expireAt e0) as [d|] eqn:Hd.
      + destruct (d <=? nowMs) eqn:Hle; [done|]. injection Hl as <-. by rewrite Hd, Hle.
      + injection Hl as <-. by rewrite Hd.
    - exists None. split; [by rewrite insert_empty|].
      unfold live. rewrite lookup_insert_eq. simpl. by rewrite insert_empty. }
  rewrite Hadd in *.
  (* ZREMRANGEBYSCORE *)
  assert (z !! nowMs = Some nowMs) as Hznow.
  { subst z. unfold trimmedSet. apply map_lookup_filter_Some. split.
    - by rewrite lookup_insert_eq.
    - simpl. apply negb_true_iff, andb_false_iff. right.
      apply Z.leb_gt. subst start. lia. }
  assert (z ≠ ∅) as Hzne by (intros Hz; by rewrite Hz, lookup_empty in Hznow).
  assert (ZRemRangeByScore (<[lk := mkZKey (<[nowMs := nowMs]> (current db nowMs lk)) ex]> db)
            nowMs lk 0 start = <[lk := mkZKey z ex]> db) as Hrem.
  { unfold ZRemRangeByScore. rewrite Hlive1. unfold store. cbn [zset expireAt].
    fold (trimmedSet (<[nowMs := nowMs]> (current db nowMs lk)) 0 start). fold z.
    rewrite bool_decide_eq_false_2 by done. by rewrite insert_insert_eq. }
  rewrite Hrem.
  assert (live (<[lk := mkZKey z ex]> db) nowMs lk = Some (mkZKey z ex)) as Hlive2.
  { unfold live in *. rewrite lookup_insert_eq in *. simpl in *.
    destruct ex as [d|]; [|done]. by destruct (d <=? nowMs). }
  unfold ZCard. rewrite Hlive2. cbn [zset]. fold denied.
  (* EXPIRE *)
  assert (Expire (<[lk := mkZKey z ex]> db) nowMs lk (window lim + Second)
          = <[lk := mkZKey z (Some deadline)]> db) as Hexp.
  { unfold Expire. rewrite Hlive2. cbn [zset].
    destruct (Z.leb_spec (formatSec (window lim + Second)) 0); [lia|].
    by rewrite insert_insert_eq. }
  rewrite Hexp. destruct denied; [|done]. cbn [negb].
  unfold ZRem. by rewrite (live_insert_fresh _ _ _ _ _ Hdl).
Qed.

Import memorylimiter LimiterProofs.












Lemma window_below_deadline w :
  0 ≤ w → Milliseconds w < 1000 * formatSec (w + Second).
Proof.
  intros Hw. unfold formatSec, Milliseconds, Second, Millisecond.
  destruct (Z.ltb_spec (w + 1000 * 1000000) (1000 * 1000000)); [lia|].
  rewrite andb_false_r.
  rewrite !Z.quot_div_nonneg by lia.
  Z.to_euclidean_division_equations. lia.
Qed.








End BackendProofs.

(** ** The OIDC relying party *)
Module OidcProofs.

Import oidckit.

Example EqualFold_examples :
  EqualFold "TRUE" "true" = true ∧ EqualFold "False" "false" = true ∧
  EqualFold "yes" "true" = false ∧ EqualFold "tru" "true" = false ∧
  EqualFold (String "f" (String "a" (String "l" (String "197" (String "191" "e")))))
            "false" = true.
Proof. repeat split. Qed.

Example TrimRight_examples :
  TrimRight "https://idp.example//" "/" = "https://idp.example" ∧
  TrimRight "/" "/" = "" ∧ TrimRight "a/b" "/" = "a/b".
Proof. repeat split. Qed.

(** C6, as stated, fails: a discovery document that reports the issuer
    with a trailing slash, or no issuer at all, differs from the configured
    issuer and is accepted. *)
Lemma issuer_difference_alone_is_accepted :
  Issuer (OidcExamples.endpoints "https://idp.example/") ≠ OidcExamples.configured ∧
  (∃ rp, NewRelyingPartyOIDC (OidcExamples.serve "https://idp.example/")
           OidcExamples.configured "client-1" "secret" "https://app.example/cb"
           ["openid"] = Ok rp) ∧
  Issuer (OidcExamples.endpoints "") ≠ OidcExamples.configured ∧
  (∃ rp, NewRelyingPartyOIDC (OidcExamples.serve "")
           OidcExamples.configured "client-1" "secret" "https://app.example/cb"
           ["openid"] = Ok rp).
Proof.
  split; [discriminate|]. split; [eexists; vm_compute; reflexivity|].
  split; [discriminate|]. eexists; vm_compute; reflexivity.
Qed.

(** C6 (amended). Whenever the discovery endpoint answers with a document
    whose reported issuer, trailing slashes removed, is non-empty and
    differs from the configured issuer with its trailing slashes removed,
    [discoverOIDC] and [NewRelyingPartyOIDC] return an error: no relying
    party exists with which an authorization step could be taken. *)
Theorem issuer_mismatch_fails_closed
  (httpGet : string → httpResult)
  (issuer clientID clientSecret redirectURI : string) (scopes : list string)
  (StatusCode : Z) (Status : string) (doc : discoveryDoc) :
  httpGet (TrimRight (TrimRight issuer "/") "/" ++ "/.well-known/openid-configuration")%string
    = Response StatusCode Status (Ok doc) →
  TrimRight (Issuer doc) "/" ≠ "" →
  TrimRight (Issuer doc) "/" ≠ TrimRight issuer "/" →
  (∃ e, discoverOIDC httpGet (TrimRight issuer "/") = Err e) ∧
  (∃ e, NewRelyingPartyOIDC httpGet issuer clientID clientSecret redirectURI scopes
        = Err e).
Proof.
  intros Hget Hne Hdiff.
  assert (∃ e, discoverOIDC httpGet (TrimRight issuer "/") = Err e) as [e He].
  { unfold discoverOIDC. rewrite Hget.
    destruct ((StatusCode <? 200) || (300 <=? StatusCode)); [by eexists|].
    rewrite !bool_decide_eq_false_2 by done. simpl. by eexists. }
  split; [by exists e|].
  unfold NewRelyingPartyOIDC. case_bool_decide; [by eexists|].
  rewrite He. by eexists.
Qed.

Lemma issuer_mismatch_fails_closed_witness :
  (∃ e, discoverOIDC (OidcExamples.serve "https://evil.example")
          (TrimRight OidcExamples.configured "/") = Err e) ∧
  (∃ e, NewRelyingPartyOIDC (OidcExamples.serve "https://evil.example")
          OidcExamples.configured "client-1" "secret" "https://app.example/cb"
          ["openid"] = Err e).
Proof.
  apply (issuer_mismatch_fails_closed (OidcExamples.serve "https://evil.example")
           OidcExamples.configured "client-1" "secret" "https://app.example/cb"
           ["openid"] 200 "200 OK" (OidcExamples.endpoints "https://evil.example")).
  - reflexivity.
  - vm_compute. discriminate.
  - vm_compute. discriminate.
Defined.

(** C7, as stated, fails: when the nonce bound to the request is the empty
    string the nonce claim is not looked at, and an ID token whose nonce
    claim is missing, or is some other value, yields an identity. *)
Lemma empty_bound_nonce_skips_nonce_check :
  (∃ c, DefaultExchanger unit OidcExamples.exchange OidcExamples.fetchKeys
          (OidcExamples.parse ∅) OidcExamples.rp "google" "code-1" "verifier-1" ""
        = Ok c) ∧
  (∃ c, DefaultExchanger unit OidcExamples.exchange OidcExamples.fetchKeys
          (OidcExamples.parse {[ "nonce" := JString "other" ]})
          OidcExamples.rp "google" "code-1" "verifier-1" ""
        = Ok c).
Proof. split; eexists; vm_compute; reflexivity. Qed.

(** C7 (amended). [DefaultExchanger] returns claims only after the code was
    exchanged, the response carried a non-empty ID token, the provider's
    key set was fetched from the relying party's JWKS URL, the JWT library
    accepted the raw token against that key set, the relying party's issuer
    and its client ID as audience, and, when the nonce bound to the request
    is non-empty, the token's nonce claim is that very string.  The claims
    returned are those of the verified token. *)
Theorem exchanger_returns_only_verified_claims
  (KeySet : Type)
  (Exchange : Config → string → list (string * string) → result OAuth2Token)
  (Fetch : string → result KeySet)
  (ParseString : string → KeySet → string → string → result Token)
  (rpClient : RelyingParty) (provider code verifier nonce : string) (c : Claims) :
  DefaultExchanger KeySet Exchange Fetch ParseString rpClient provider code verifier nonce
    = Ok c →
  ∃ oauth2Token rawIDToken keySet token,
    Exchange (oauthConfig rpClient) code
      (if bool_decide (provider = "apple") then [] else [("code_verifier", verifier)])
      = Ok oauth2Token ∧
    Extra oauth2Token !! "id_token" = Some (JString rawIDToken) ∧
    rawIDToken ≠ "" ∧
    jwksURL rpClient ≠ "" ∧
    Fetch (jwksURL rpClient) = Ok keySet ∧
    ParseString rawIDToken keySet (issuer rpClient) (clientID rpClient) = Ok token ∧
    (nonce ≠ "" → private token !! "nonce" = Some (JString nonce)) ∧
    cSubject c = Subject token ∧
    cRawIDToken c = rawIDToken.
Proof.
  unfold DefaultExchanger. intros H.
  destruct (Exchange _ _ _) as [tok|e] eqn:Hex; [|done].
  destruct (Extra tok !! "id_token") as [[raw| |]|] eqn:Hid; try done.
  case_bool_decide as Hraw; [done|].
  unfold RPKeySet in H. case_bool_decide as Hurl; [done|].
  destruct (Fetch _) as [ks|e] eqn:Hks; [|done].
  unfold VerifyIDToken, NewIDTokenVerifier in H. simpl in H.
  destruct (ParseString _ _ _ _) as [token|e] eqn:Hparse; [|done].
  destruct (checkNonce _ _ token) as [e|] eqn:Hnonce; [done|].
  injection H as <-. exists tok, raw, ks, token.
  repeat split; try done.
  intros Hnz. unfold checkNonce in Hnonce. simpl in Hnonce.
  rewrite bool_decide_eq_false_2 in Hnonce by done.
  destruct (private token !! "nonce") as [[n| |]|]; try done.
  case_bool_decide; [by subst|done].
Qed.

Lemma exchanger_returns_only_verified_claims_witness :
  ∃ oauth2Token rawIDToken keySet token,
    OidcExamples.exchange (oauthConfig OidcExamples.rp) "code-1"
      [("code_verifier", "verifier-1")] = Ok oauth2Token ∧
    Extra oauth2Token !! "id_token" = Some (JString rawIDToken) ∧
    rawIDToken ≠ "" ∧
    jwksURL OidcExamples.rp ≠ "" ∧
    OidcExamples.fetchKeys (jwksURL OidcExamples.rp) = Ok keySet ∧
    OidcExamples.parse {[ "nonce" := JString "n-1" ]} rawIDToken keySet
      (issuer OidcExamples.rp) (clientID OidcExamples.rp) = Ok token ∧
    ("n-1" ≠ "" → private token !! "nonce" = Some (JString "n-1")) ∧
    "alice" = Subject token ∧
    "idtoken-1" = rawIDToken.
Proof.
  apply (exchanger_returns_only_verified_claims unit OidcExamples.exchange
           OidcExamples.fetchKeys (OidcExamples.parse {[ "nonce" := JString "n-1" ]})
           OidcExamples.rp "google" "code-1" "verifier-1" "n-1"
           {| cSubject := "alice"; cEmail := None; cEmailVerified := Some false;
              cName := None; cPreferredUsername := None;
              cRawIDToken := "idtoken-1" |}).
  vm_compute. reflexivity.
Defined.

(** With a non-empty bound nonce, a token without a nonce claim, or with
    another one, is refused. *)
Example bound_nonce_is_enforced :
  (∃ e, DefaultExchanger unit OidcExamples.exchange OidcExamples.fetchKeys
          (OidcExamples.parse ∅) OidcExamples.rp "google" "code-1" "verifier-1" "n-1"
        = Err e) ∧
  (∃ e, DefaultExchanger unit OidcExamples.exchange OidcExamples.fetchKeys
          (OidcExamples.parse {[ "nonce" := JString "other" ]})
          OidcExamples.rp "google" "code-1" "verifier-1" "n-1"
        = Err e).
Proof. split; eexists; vm_compute; reflexivity. Qed.

End OidcProofs.

(** ** Refresh sessions (rotation modelled from the specification) *)
Module SessionProofs.

Import sessions.

Lemma existsb_false_Forall {A} (f : A → bool) (l : list A) :
  existsb f l = false ↔ ∀ x, x ∈ l → f x = false.
Proof.
  induction l as [|a l IH]; simpl.
  - split; [intros _ x Hx; by apply elem_of_nil in Hx|done].
  - rewrite orb_false_iff, IH. split.
    + intros [Ha Hl] x Hx. apply elem_of_cons in Hx as [->|Hx]; auto.
    + intros H. split; [apply H; left|intros x Hx; apply H; by right].
Qed.

Lemma existsb_true_elem {A} (f : A → bool) (l : list A) x :
  x ∈ l → f x = true → existsb f l = true.
Proof.
  intros Hx Hf. apply existsb_exists. exists x. split; [|done].
  by apply list_elem_of_In.
Qed.

Lemma holdsCurrent_spec fp s :
  holdsCurrent fp s = true ↔ revoked_at s = None ∧ current_token_hash s = fp.
Proof.
  unfold holdsCurrent, notRevoked.
  by rewrite andb_true_iff, !bool_decide_eq_true.
Qed.

Lemma holdsPrevious_spec fp s :
  holdsPrevious fp s = true ↔ revoked_at s = None ∧ previous_token_hash s = Some fp.
Proof.
  unfold holdsPrevious, notRevoked.
  by rewrite andb_true_iff, !bool_decide_eq_true.
Qed.

Lemma holdsCurrent_false fp s :
  revoked_at s = None → holdsCurrent fp s = false → current_token_hash s ≠ fp.
Proof.
  intros Hr Hc Heq.
  by rewrite (proj2 (holdsCurrent_spec fp s) (conj Hr Heq)) in Hc.
Qed.

Lemma untracked_no_match fp tbl :
  untracked fp tbl →
  existsb (holdsCurrent fp) tbl = false ∧ existsb (holdsPrevious fp) tbl = false.
Proof.
  intros H. split; apply existsb_false_Forall; intros s Hs;
    unfold holdsCurrent, holdsPrevious, notRevoked;
    destruct (revoked_at s) as [t|] eqn:Hr; simpl; try done;
    destruct (H s Hs Hr) as [Hc Hp]; by rewrite bool_decide_eq_false_2.
Qed.

Lemma rotate_untracked fp tbl now family fresh :
  untracked fp tbl →
  rotate tbl now family fp fresh = (revokeFamily now family tbl, ReuseDetected).
Proof.
  intros H. unfold rotate.
  destruct (untracked_no_match fp tbl H) as [-> ->]. done.
Qed.

Lemma untracked_revokeFamily fp now family tbl :
  untracked fp tbl → untracked fp (revokeFamily now family tbl).
Proof.
  intros H s Hs Hr. unfold revokeFamily in Hs.
  apply list_elem_of_fmap in Hs as (s0 & -> & Hs0).
  case_bool_decide.
  - unfold revokeRow in Hr. simpl in Hr. by destruct (revoked_at s0).
  - by apply H.
Qed.

Lemma revokeFamily_revoked now family tbl s :
  s ∈ revokeFamily now family tbl → family_id s = family → revoked_at s ≠ None.
Proof.
  intros Hs Hf. unfold revokeFamily in Hs.
  apply list_elem_of_fmap in Hs as (s0 & -> & Hs0).
  case_bool_decide as Hfam.
  - simpl. by destruct (revoked_at s0).
  - done.
Qed.

(** After the F0 -> F1 shift, F0 is tracked only as the previous slot of
    rows whose current fingerprint is F1. *)
Lemma after_first_rotation tbl now F0 F1 s :
  (∀ x, x ∈ tbl → revoked_at x = None → previous_token_hash x ≠ Some F0) →
  F0 ≠ F1 →
  s ∈ map (λ x, if holdsCurrent F0 x then shift now F1 x else x) tbl →
  revoked_at s = None →
  current_token_hash s ≠ F0 ∧
  (previous_token_hash s = Some F0 → current_token_hash s = F1).
Proof.
  intros Hprev Hne Hs Hr.
  apply list_elem_of_fmap in Hs as (x & -> & Hx).
  destruct (holdsCurrent F0 x) eqn:Hc.
  - simpl. split; [by intros ->|done].
  - split; [by apply holdsCurrent_false|].
    intros Hp. by destruct (Hprev x Hx Hr).
Qed.

Lemma after_second_rotation tbl now F0 F1 F2 s :
  (∀ x, x ∈ tbl → revoked_at x = None →
     current_token_hash x ≠ F0 ∧
     (previous_token_hash x = Some F0 → current_token_hash x = F1)) →
  F0 ≠ F1 → F0 ≠ F2 →
  s ∈ map (λ x, if holdsCurrent F1 x then shift now F2 x else x) tbl →
  revoked_at s = None →
  current_token_hash s ≠ F0 ∧ previous_token_hash s ≠ Some F0.
Proof.
  intros Hinv H01 H02 Hs Hr.
  apply list_elem_of_fmap in Hs as (x & -> & Hx).
  destruct (holdsCurrent F1 x) eqn:Hc.
  - simpl. apply holdsCurrent_spec in Hc as [_ Hc].
    split; [by intros ->|]. rewrite Hc. intros [=]. done.
  - destruct (Hinv x Hx Hr) as [Hcur Hprev]. split; [done|].
    intros Hp. specialize (Hprev Hp).
    by apply (holdsCurrent_false F1 x Hr Hc).
Qed.

Lemma untracked_trackedWithin fp family tbl :
  untracked fp tbl → trackedWithin fp family tbl.
Proof. intros H s Hs Hr [Hc|Hp]; by destruct (H s Hs Hr). Qed.

Lemma trackedWithin_shift old new fp family now tbl :
  trackedWithin old family tbl →
  trackedWithin fp family tbl →
  trackedWithin fp family
    (map (λ x, if holdsCurrent old x then shift now new x else x) tbl).
Proof.
  intros Hold Hfp s Hs Hr Htr.
  apply list_elem_of_fmap in Hs as (x & -> & Hx).
  destruct (holdsCurrent old x) eqn:Hc.
  - apply holdsCurrent_spec in Hc as [Hrx Hcx]. simpl. apply (Hold x Hx Hrx). by left.
  - by apply (Hfp x Hx Hr).
Qed.

Lemma trackedWithin_revoked fp family now tbl :
  trackedWithin fp family tbl → untracked fp (revokeFamily now family tbl).
Proof.
  intros H s Hs Hr. unfold revokeFamily in Hs.
  apply list_elem_of_fmap in Hs as (x & -> & Hx).
  case_bool_decide as Hfam.
  - simpl in Hr. by destruct (revoked_at x).
  - split; intros Heq; apply Hfam; apply (H x Hx Hr); auto.
Qed.

Lemma rotateAll_untracked (fps : list string) family later : ∀ tbl,
  (∀ fp, fp ∈ fps → untracked fp tbl) →
  Forall (λ c : Z * string * string, c.1.2 ∈ fps) later →
  Forall (λ o, o = ReuseDetected) (snd (rotateAll tbl family later)).
Proof.
  induction later as [|[[now fp] fresh] later IH]; intros tbl Hun Hall; simpl.
  - constructor.
  - apply Forall_cons in Hall as [Hfp Hall]. simpl in Hfp.
    rewrite (rotate_untracked fp tbl now family fresh (Hun fp Hfp)). simpl.
    specialize (IH (revokeFamily now family tbl)).
    destruct (rotateAll (revokeFamily now family tbl) family later) as [tbl' os] eqn:Hrun.
    simpl. constructor; [done|]. apply IH; [|done].
    intros fp' Hfp'. apply untracked_revokeFamily. by apply Hun.
Qed.

(** C3. A session of the family holds F0; the family is rotated F0 -> F1 ->
    F2 (F1 and F2 freshly generated).  Both rotations succeed; afterwards F0
    matches neither slot of any non-revoked session, and a rotate call
    presenting it returns the reuse error and leaves every session of the
    family revoked; from then on every rotate call presenting F0, F1 or F2
    is rejected with the reuse error. *)
Theorem reuse_of_superseded_token_revokes_family
  (tbl0 : list refresh_session) (family F0 F1 F2 fresh : string) (t1 t2 t3 : Z)
  (later : list (Z * string * string)) :
  current_hash_active tbl0 →
  (∃ s, s ∈ tbl0 ∧ revoked_at s = None ∧ family_id s = family
        ∧ current_token_hash s = F0) →
  (∀ x, x ∈ tbl0 → revoked_at x = None → previous_token_hash x ≠ Some F0) →
  untracked F1 tbl0 → untracked F2 tbl0 →
  F0 ≠ F1 → F0 ≠ F2 →
  Forall (λ c : Z * string * string, c.1.2 ∈ [F0; F1; F2]) later →
  let r1 := rotate tbl0 t1 family F0 F1 in
  let r2 := rotate (fst r1) t2 family F1 F2 in
  let r3 := rotate (fst r2) t3 family F0 fresh in
  snd r1 = Rotated ∧ snd r2 = Rotated ∧
  untracked F0 (fst r2) ∧
  snd r3 = ReuseDetected ∧
  (∀ s, s ∈ fst r3 → family_id s = family → revoked_at s ≠ None) ∧
  Forall (λ o, o = ReuseDetected) (snd (rotateAll (fst r3) family later)).
Proof.
  intros Huniq (s & Hs & Hrs & Hfs & Hcs) Hprev0 Hf1 Hf2 H01 H02 Hlater.
  (* first rotation *)
  assert (existsb (holdsCurrent F0) tbl0 = true) as He0.
  { apply (existsb_true_elem _ _ s Hs). by apply holdsCurrent_spec. }
  assert (trackedWithin F0 family tbl0) as Ht0.
  { intros x Hx Hrx [Hc|Hp]; [|by destruct (Hprev0 x Hx Hrx)].
    rewrite <- (Huniq s x Hs Hx Hrs Hrx); [done|congruence]. }
  pose proof (untracked_trackedWithin F1 family tbl0 Hf1) as Ht1.
  pose proof (untracked_trackedWithin F2 family tbl0 Hf2) as Ht2.
  intros r1. assert (r1 = (map (λ x, if holdsCurrent F0 x then shift t1 F1 x else x) tbl0,
                           Rotated)) as Hr1.
  { subst r1. unfold rotate. by rewrite He0. }
  set (tbl1 := map (λ x, if holdsCurrent F0 x then shift t1 F1 x else x) tbl0) in Hr1.
  rewrite Hr1. simpl fst.
  (* second rotation *)
  assert (existsb (holdsCurrent F1) tbl1 = true) as He1.
  { apply (existsb_true_elem _ _ (shift t1 F1 s)).
    - subst tbl1. apply list_elem_of_fmap. exists s. split; [|done].
      by rewrite (proj2 (holdsCurrent_spec F0 s) (conj Hrs Hcs)).
    - by apply holdsCurrent_spec. }
  intros r2. assert (r2 = (map (λ x, if holdsCurrent F1 x then shift t2 F2 x else x) tbl1,
                           Rotated)) as Hr2.
  { subst r2. unfold rotate. by rewrite He1. }
  set (tbl2 := map (λ x, if holdsCurrent F1 x then shift t2 F2 x else x) tbl1) in Hr2.
  rewrite Hr2. simpl fst.
  assert (untracked F0 tbl2) as Hun0.
  { intros x Hx Hrx. eapply (after_second_rotation tbl1 t2 F0 F1 F2); try done.
    intros y Hy Hry. by eapply (after_first_rotation tbl0 t1 F0 F1). }
  assert (∀ fp, fp ∈ [F0; F1; F2] → trackedWithin fp family tbl2) as Htr2.
  { assert (∀ fp, fp ∈ [F0; F1; F2] → trackedWithin fp family tbl0) as Hall0.
    { intros fp Hfp. repeat (apply elem_of_cons in Hfp as [->|Hfp]); try done.
      by apply elem_of_nil in Hfp. }
    intros fp Hfp. subst tbl2 tbl1.
    apply trackedWithin_shift; apply trackedWithin_shift; auto;
      apply Hall0; set_solver. }
  (* the reuse *)
  intros r3. assert (r3 = (revokeFamily t3 family tbl2, ReuseDetected)) as Hr3.
  { subst r3. by apply rotate_untracked. }
  rewrite Hr3. simpl.
  split; [done|]. split; [done|]. split; [done|]. split; [done|]. split.
  - intros x Hx Hfx. by eapply revokeFamily_revoked.
  - apply (rotateAll_untracked [F0; F1; F2]); [|done].
    intros fp Hfp. apply trackedWithin_revoked. by apply Htr2.
Qed.

Lemma reuse_of_superseded_token_revokes_family_witness :
  let r1 := rotate SessionExamples.table0 1700000100 "fam-1" "F0" "F1" in
  let r2 := rotate (fst r1) 1700000200 "fam-1" "F1" "F2" in
  let r3 := rotate (fst r2) 1700000300 "fam-1" "F0" "F3" in
  snd r1 = Rotated ∧ snd r2 = Rotated ∧
  untracked "F0" (fst r2) ∧
  snd r3 = ReuseDetected ∧
  (∀ s, s ∈ fst r3 → family_id s = "fam-1" → revoked_at s ≠ None) ∧
  Forall (λ o, o = ReuseDetected)
    (snd (rotateAll (fst r3) "fam-1"
            [(1700000400, "F2", "F4"); (1700000500, "F1", "F5");
             (1700000600, "F0", "F6")])).
Proof.
  apply (reuse_of_superseded_token_revokes_family SessionExamples.table0
           "fam-1" "F0" "F1" "F2" "F3" 1700000100 1700000200 1700000300
           [(1700000400, "F2", "F4"); (1700000500, "F1", "F5");
            (1700000600, "F0", "F6")]).
  - intros s1 s2 H1 H2 _ _ Hc.
    repeat (apply elem_of_cons in H1 as [->|H1]);
      repeat (apply elem_of_cons in H2 as [->|H2]);
      try done; by apply elem_of_nil in H1 || by apply elem_of_nil in H2.
  - eexists. split; [left|]. done.
  - intros x Hx _. repeat (apply elem_of_cons in Hx as [->|Hx]); try done.
    by apply elem_of_nil in Hx.
  - intros x Hx _. repeat (apply elem_of_cons in Hx as [->|Hx]); try done.
    by apply elem_of_nil in Hx.
  - intros x Hx _. repeat (apply elem_of_cons in Hx as [->|Hx]); try done.
    by apply elem_of_nil in Hx.
  - done.
  - done.
  - repeat constructor; simpl; set_solver.
Defined.

(** The same scenario evaluated: the family's session ends revoked at the
    instant of the reuse, the other family is untouched. *)
Example reuse_scenario_evaluated :
  let r1 := rotate SessionExamples.table0 1700000100 "fam-1" "F0" "F1" in
  let r2 := rotate (fst r1) 1700000200 "fam-1" "F1" "F2" in
  let r3 := rotate (fst r2) 1700000300 "fam-1" "F0" "F3" in
  map (λ s, (id s, current_token_hash s, previous_token_hash s, revoked_at s)) (fst r3)
  = [("s-1", "F2", Some "F1", Some 1700000300); ("s-2", "G0", None, None)].
Proof. vm_compute. reflexivity. Qed.

End SessionProofs.

(** ** Strings, base64 and decimal numerals *)
Module GoStdProofs.

Import gostd.

Lemma append_cons a (s t : string) : (String a s ++ t = String a (s ++ t))%string.
Proof. reflexivity. Qed.

Lemma append_nil_l (s : string) : ("" ++ s = s)%string.
Proof. reflexivity. Qed.

Lemma append_nil_r (s : string) : (s ++ "" = s)%string.
Proof. induction s as [|a s IH]; [done|]. by rewrite append_cons, IH. Qed.

Lemma append_assoc (s t u : string) : ((s ++ t) ++ u = s ++ (t ++ u))%string.
Proof. induction s as [|a s IH]; [done|]. by rewrite !append_cons, IH. Qed.

Lemma stripPrefix_app p s : stripPrefix p (p ++ s) = Some s.
Proof.
  induction p as [|a p IH]; [done|].
  rewrite append_cons. simpl. by rewrite Ascii.eqb_refl.
Qed.

Lemma occurs_app c a b : occurs c (a ++ b) = occurs c a || occurs c b.
Proof.
  induction a as [|x a IH]; [done|].
  rewrite append_cons. simpl. by rewrite IH, orb_assoc.
Qed.

Lemma Split_nonempty s sep : Split s sep ≠ [].
Proof.
  induction s as [|c r IH]; simpl; [done|].
  destruct (Ascii.eqb c sep); [done|]. by destruct (Split r sep).
Qed.

Lemma Split_none s sep : occurs sep s = false → Split s sep = [s].
Proof.
  induction s as [|c r IH]; simpl; [done|].
  intros H. apply orb_false_iff in H as [Hc Hr]. rewrite Hc, (IH Hr). done.
Qed.

Lemma Split_app s t sep :
  occurs sep s = false → Split (s ++ String sep t) sep = s :: Split t sep.
Proof.
  induction s as [|c r IH].
  - intros _. rewrite append_nil_l. simpl. by rewrite Ascii.eqb_refl.
  - intros H. simpl in H. apply orb_false_iff in H as [Hc Hr].
    rewrite append_cons. simpl. rewrite Hc, (IH Hr). done.
Qed.

(** *** Decimal numerals *)

Lemma digits_only c d :
  isDecimalDigit c = false →
  occurs c (NilEmpty.string_of_uint d) = false.
Proof.
  intros Hc. induction d; cbn [occurs NilEmpty.string_of_uint]; [done|..];
    rewrite IHd, orb_false_r; apply Ascii.eqb_neq; intros <-; done.
Qed.

Lemma formatUint_occurs c n :
  isDecimalDigit c = false → occurs c (formatUint n) = false.
Proof. apply digits_only. Qed.

Lemma scanNumber_digits d rest :
  match rest with
  | String c _ => isDecimalDigit c = false
  | EmptyString => True
  end →
  scanNumber (NilEmpty.string_of_uint d ++ rest) = (NilEmpty.string_of_uint d, rest).
Proof.
  intros Hrest.
  induction d; cbn [NilEmpty.string_of_uint]; rewrite ?append_cons;
    try (cbn [scanNumber]; rewrite IHd; reflexivity).
  rewrite append_nil_l. destruct rest as [|c r]; simpl; [done|]. by rewrite Hrest.
Qed.

Lemma to_uint_nonnil n : N.to_uint n ≠ Nil.
Proof.
  destruct n as [|p]; simpl; [done|]. apply DecimalPos.Unsigned.to_uint_nonnil.
Qed.

Lemma skipSpace_digits d rest :
  d ≠ Nil →
  skipSpace (NilEmpty.string_of_uint d ++ rest)
  = Ok (NilEmpty.string_of_uint d ++ rest)%string.
Proof.
  assert (∀ a s, isDecimalDigit a = true → skipSpace (String a s) = Ok (String a s)) as H.
  { intros a s Ha. unfold isDecimalDigit in Ha. cbn [occurs] in Ha.
    rewrite !orb_true_iff in Ha.
    destruct Ha as [Ha|[Ha|[Ha|[Ha|[Ha|[Ha|[Ha|[Ha|[Ha|[Ha|Ha]]]]]]]]]];
      [apply Ascii.eqb_eq in Ha; subst a; cbn [skipSpace];
       repeat match goal with
              | |- context [match ?x with EmptyString => _ | String _ _ => _ end] =>
                  destruct x
              end; reflexivity ..|done]. }
  intros Hd. destruct d; [done|..]; cbn [NilEmpty.string_of_uint]; rewrite append_cons;
    by apply H.
Qed.

Lemma string_of_uint_nonempty d : d ≠ Nil → NilEmpty.string_of_uint d ≠ "".
Proof. by destruct d. Qed.

Lemma scanUint32_formatUint n rest :
  0 ≤ n < 2 ^ 32 →
  match rest with
  | String c _ => isDecimalDigit c = false
  | EmptyString => True
  end →
  scanUint32 (formatUint n ++ rest) = Ok (n, rest).
Proof.
  intros Hn Hrest. unfold scanUint32, formatUint.
  rewrite skipSpace_digits by apply to_uint_nonnil.
  rewrite bool_decide_eq_false_2.
  2: { pose proof (string_of_uint_nonempty _ (to_uint_nonnil (Z.to_N n))) as Hne.
       destruct (NilEmpty.string_of_uint _); [done|]. by rewrite append_cons. }
  rewrite scanNumber_digits by done.
  rewrite bool_decide_eq_false_2
    by (apply string_of_uint_nonempty, to_uint_nonnil).
  rewrite NilEmpty.usu, DecimalN.Unsigned.of_to, Z2N.id by lia.
  destruct (Z.leb_spec (2 ^ 64) n); [lia|].
  destruct (Z.leb_spec (2 ^ 32) n); [lia|done].
Qed.

Lemma scanLiteral_app lit s : scanLiteral lit (lit ++ s) = Ok s.
Proof.
  induction lit as [|a lit IH]; [by rewrite append_nil_l|].
  rewrite append_cons. cbn [scanLiteral]. by rewrite Ascii.eqb_refl.
Qed.

(** *** Base64 *)

Lemma encodeChar_decodeChar v : (v < 64)%N → decodeChar (encodeChar v) = Some v.
Proof.
  intros Hv.
  assert (forallb (λ n, bool_decide (decodeChar (encodeChar (N.of_nat n))
                                     = Some (N.of_nat n))) (seq 0 64) = true) as H
    by (vm_compute; reflexivity).
  rewrite forallb_forall in H. specialize (H (N.to_nat v)).
  rewrite N2Nat.id in H. eapply bool_decide_eq_true_1, H, in_seq. lia.
Qed.

Lemma encodeChar_plain v :
  encodeChar v ≠ "$"%char ∧ encodeChar v ≠ "013"%char ∧ encodeChar v ≠ "010"%char.
Proof.
  unfold encodeChar. generalize (N.to_nat v) as n. intros n.
  do 65 (destruct n as [|n]; [by vm_compute|]). by vm_compute.
Qed.

Ltac divlia := zify; Z.to_euclidean_division_equations; lia.

Lemma sextets_bound bs :
  Forall (λ b, (b < 256)%N) bs → Forall (λ v, (v < 64)%N) (sextets bs).
Proof.
  revert bs. fix IH 1. intros [|a [|b [|c rest]]] H; simpl.
  - constructor.
  - apply Forall_cons in H as [Ha _].
    apply Forall_cons; split; [divlia|].
    apply Forall_cons; split; [divlia|constructor].
  - apply Forall_cons in H as [Ha H]. apply Forall_cons in H as [Hb _].
    apply Forall_cons; split; [divlia|].
    apply Forall_cons; split; [divlia|].
    apply Forall_cons; split; [divlia|constructor].
  - apply Forall_cons in H as [Ha H]. apply Forall_cons in H as [Hb H].
    apply Forall_cons in H as [Hc H].
    apply Forall_cons; split; [divlia|].
    apply Forall_cons; split; [divlia|].
    apply Forall_cons; split; [divlia|].
    apply Forall_cons; split; [divlia|]. by apply IH.
Qed.

Lemma octets_sextets bs :
  Forall (λ b, (b < 256)%N) bs → octets (sextets bs) = Some bs.
Proof.
  revert bs. fix IH 1. intros [|a [|b [|c rest]]] H; simpl.
  - done.
  - apply Forall_cons in H as [Ha _]. do 2 f_equal. divlia.
  - apply Forall_cons in H as [Ha H]. apply Forall_cons in H as [Hb _].
    do 2 f_equal; [divlia|]. f_equal. divlia.
  - apply Forall_cons in H as [Ha H]. apply Forall_cons in H as [Hb H].
    apply Forall_cons in H as [Hc H].
    rewrite (IH rest H). do 2 f_equal; [divlia|]. f_equal; [divlia|].
    f_equal. divlia.
Qed.

Lemma allSome_encode vs :
  Forall (λ v, (v < 64)%N) vs → allSome (map decodeChar (map encodeChar vs)) = Some vs.
Proof.
  induction 1 as [|v vs Hv _ IH]; simpl; [done|].
  by rewrite (encodeChar_decodeChar v Hv), IH.
Qed.

Lemma filter_encode vs :
  List.filter (λ c, negb (Ascii.eqb c "013" || Ascii.eqb c "010")) (map encodeChar vs)
  = map encodeChar vs.
Proof.
  induction vs as [|v vs IH]; simpl; [done|].
  destruct (encodeChar_plain v) as (_ & Hcr & Hlf).
  apply Ascii.eqb_neq in Hcr, Hlf. rewrite Hcr, Hlf. simpl. by rewrite IH.
Qed.

Lemma bytes_bound (src : list ascii) : Forall (λ b, (b < 256)%N) (map N_of_ascii src).
Proof.
  induction src as [|c src IH]; simpl; constructor; [apply N_ascii_bounded|done].
Qed.

Lemma DecodeString_EncodeToString src : DecodeString (EncodeToString src) = Ok src.
Proof.
  unfold DecodeString, EncodeToString.
  rewrite list_ascii_of_string_of_list_ascii, filter_encode.
  rewrite allSome_encode by apply sextets_bound, bytes_bound.
  rewrite octets_sextets by apply bytes_bound.
  f_equal. rewrite map_map. rewrite <- (map_id src) at 2.
  apply map_ext. intros c. apply ascii_N_embedding.
Qed.

Lemma EncodeToString_no_dollar src : occurs "$" (EncodeToString src) = false.
Proof.
  unfold EncodeToString. induction (sextets (map N_of_ascii src)) as [|v vs IH];
    simpl; [done|].
  rewrite IH, orb_false_r. apply Ascii.eqb_neq. apply encodeChar_plain.
Qed.

Example base64_examples :
  EncodeToString (list_ascii_of_string "hello") = "aGVsbG8" ∧
  EncodeToString (list_ascii_of_string "ab") = "YWI" ∧
  DecodeString "aGVsbG8" = Ok (list_ascii_of_string "hello") ∧
  DecodeString "aGVsbG8=" = Err "illegal base64 data" ∧
  DecodeString "a" = Err "illegal base64 data".
Proof. repeat split. Qed.

End GoStdProofs.

(** ** The Argon2id PHC codec *)
Module PasswordProofs.

Import gostd password GoStdProofs.

Example phcEncode_default :
  phcEncode DefaultParams (list_ascii_of_string "0123456789abcdef")
    (list_ascii_of_string "key")
  = "$argon2id$v=19$m=65536,t=1,p=1$MDEyMzQ1Njc4OWFiY2RlZg$a2V5".
Proof. vm_compute. reflexivity. Qed.

Lemma scanCost_format m t p :
  0 ≤ m < 2 ^ 32 → 0 ≤ t < 2 ^ 32 → 0 ≤ p < 2 ^ 32 →
  scanCost ("m=" ++ formatUint m ++ ",t=" ++ formatUint t ++ ",p=" ++ formatUint p)
  = Ok (m, t, p).
Proof.
  intros Hm Ht Hp. unfold scanCost.
  rewrite scanLiteral_app.
  rewrite (scanUint32_formatUint m) by done.
  rewrite scanLiteral_app.
  rewrite (scanUint32_formatUint t) by done.
  rewrite scanLiteral_app.
  rewrite <- (append_nil_r (formatUint p)).
  by rewrite (scanUint32_formatUint p).
Qed.

Lemma Split_phcEncode p salt sum :
  Split (phcEncode p salt sum) "$" =
  [""; "argon2id"; "v=19";
   ("m=" ++ formatUint (Memory p) ++ ",t=" ++ formatUint (Time p)
    ++ ",p=" ++ formatUint (Threads p))%string;
   EncodeToString salt; EncodeToString sum].
Proof.
  unfold phcEncode.
  change ("$argon2id$v=19$m=" ++ ?x)%string
    with ("" ++ String "$" ("argon2id" ++ String "$" ("v=19" ++ String "$" ("m=" ++ x))))%string.
  rewrite !(Split_app _ _ "$") by done.
  do 3 f_equal.
  assert (∀ a b c d e f rest : string,
            (a ++ b ++ c ++ d ++ e ++ f ++ "$" ++ rest
             = (a ++ b ++ c ++ d ++ e ++ f) ++ String "$" rest)%string) as Hshape
    by (intros; by rewrite !append_assoc).
  rewrite Hshape, Split_app.
  - f_equal.
    change ("$" ++ ?x)%string with (String "$" x).
    rewrite Split_app by apply EncodeToString_no_dollar.
    f_equal. apply Split_none, EncodeToString_no_dollar.
  - rewrite !occurs_app. by rewrite !formatUint_occurs.
Qed.

(** [phcDecode] is a left inverse of [phcEncode]. *)
Lemma phcDecode_phcEncode p salt sum :
  describes p salt sum → phcDecode (phcEncode p salt sum) = Ok (p, salt, sum).
Proof.
  intros (Ht & Hm & Hth & Hsl & Hkl & Hsb & Hkb).
  unfold phcDecode. rewrite Split_phcEncode.
  cbn [length nth Nat.eqb negb orb].
  rewrite bool_decide_eq_true_2 by done. cbn [negb].
  rewrite scanCost_format by lia.
  rewrite !DecodeString_EncodeToString.
  do 2 f_equal. destruct p as [t m th sl kl]; simpl in *.
  rewrite <- Hsl, <- Hkl.
  rewrite !Z.mod_small by lia. done.
Qed.

Lemma cycle_length fuel src cur : length (PasswordExamples.cycle fuel src cur) = fuel.
Proof.
  revert cur. induction fuel as [|f IH]; intros cur; simpl; [done|].
  destruct cur; [destruct src|]; simpl; by rewrite IH.
Qed.

(** C8. Hashing a password with HashArgon2id (the random source having
    delivered the 16-byte salt) and verifying the same password against the
    result returns (true, nil): phcDecode recovers from the encoded hash
    the default parameters, the salt and the derived key, and the second
    derivation, over the same salt and parameters, yields the same key.
    More generally phcDecode is a left inverse of phcEncode on every
    parameter record that describes the salt and the key it is encoded
    with.  Argon2id itself is a parameter, a function that returns keyLen
    bytes. *)
Theorem hash_then_verify_accepts
  (IDKey : list ascii → list ascii → Z → Z → Z → Z → list ascii)
  (randRead : Z → result (list ascii))
  (plaintext : string) (salt : list ascii) :
  (∀ pw s t m p k, 0 ≤ k → length (IDKey pw s t m p k) = Z.to_nat k) →
  randRead 16 = Ok salt →
  length salt = 16%nat →
  let dk := IDKey (list_ascii_of_string plaintext) salt 1 65536 1 32 in
  let encoded := phcEncode DefaultParams salt dk in
  HashArgon2id IDKey randRead plaintext = (encoded, None) ∧
  phcDecode encoded = Ok (DefaultParams, salt, dk) ∧
  VerifyArgon2id IDKey encoded plaintext = (true, None) ∧
  (∀ p s k, describes p s k → phcDecode (phcEncode p s k) = Ok (p, s, k)).
Proof.
  intros Hlen Hrand Hsalt dk encoded.
  assert (length dk = 32%nat) as Hdk by (subst dk; by rewrite Hlen).
  assert (phcDecode encoded = Ok (DefaultParams, salt, dk)) as Hdec.
  { apply phcDecode_phcEncode. unfold describes. simpl. rewrite Hsalt, Hdk. lia. }
  split; [|split; [done|split; [|apply phcDecode_phcEncode]]].
  - unfold HashArgon2id. simpl. by rewrite Hrand.
  - unfold VerifyArgon2id. rewrite Hdec. cbn [Time Memory Threads DefaultParams].
    rewrite Hdk. change (Z.of_nat 32 mod 2 ^ 32) with 32.
    change (64 * 1024) with 65536. fold dk.
    rewrite Hdk. cbn [Nat.eqb negb]. by rewrite bool_decide_eq_true_2.
Qed.

Lemma hash_then_verify_accepts_witness :
  let dk := PasswordExamples.toyKey (list_ascii_of_string "correct horse")
              PasswordExamples.salt16 1 65536 1 32 in
  let encoded := phcEncode DefaultParams PasswordExamples.salt16 dk in
  HashArgon2id PasswordExamples.toyKey PasswordExamples.fixedRand "correct horse"
    = (encoded, None) ∧
  phcDecode encoded = Ok (DefaultParams, PasswordExamples.salt16, dk) ∧
  VerifyArgon2id PasswordExamples.toyKey encoded "correct horse" = (true, None) ∧
  (∀ p s k, describes p s k → phcDecode (phcEncode p s k) = Ok (p, s, k)).
Proof.
  apply (hash_then_verify_accepts PasswordExamples.toyKey PasswordExamples.fixedRand
           "correct horse" PasswordExamples.salt16).
  - intros pw s t m p k _. unfold PasswordExamples.toyKey. apply cycle_length.
  - reflexivity.
  - reflexivity.
Defined.

(** The example evaluated: the encoded hash, and a wrong password. *)
Example hash_example_evaluated :
  fst (HashArgon2id PasswordExamples.toyKey PasswordExamples.fixedRand "correct horse")
    = "$argon2id$v=19$m=65536,t=1,p=1$MDEyMzQ1Njc4OWFiY2RlZg$Y29ycmVjdCBob3JzZTAxMjM0NTY3ODlhYmNkZWZjb3I"
  ∧ VerifyArgon2id PasswordExamples.toyKey
      "$argon2id$v=19$m=65536,t=1,p=1$MDEyMzQ1Njc4OWFiY2RlZg$Y29ycmVjdCBob3JzZTAxMjM0NTY3ODlhYmNkZWZjb3I"
      "wrong horse" = (false, None)
  ∧ VerifyArgon2id PasswordExamples.toyKey "$argon2id$v=19$m=65536" "x"
      = (false, Some "bad_phc").
Proof. vm_compute. repeat split. Qed.

End PasswordProofs.

(** ** The SIWS message codec *)
Module SiwsProofs.

Import gostd siws SiwsLines GoStdProofs.

(** *** Reversal *)

Lemma rev_app_append s acc : String.rev_app s acc = (String.rev s ++ acc)%string.
Proof.
  unfold String.rev. revert acc. induction s as [|a s IH]; intros acc; simpl; [done|].
  rewrite (IH (String a acc)), (IH (String a "")).
  by rewrite append_assoc.
Qed.

Lemma rev_cons a s : String.rev (String a s) = (String.rev s ++ String a "")%string.
Proof. unfold String.rev at 1. simpl. apply rev_app_append. Qed.

Lemma rev_append s t : String.rev (s ++ t) = (String.rev t ++ String.rev s)%string.
Proof.
  induction s as [|a s IH].
  - by rewrite append_nil_l, append_nil_r.
  - by rewrite append_cons, !rev_cons, IH, append_assoc.
Qed.

Lemma rev_involutive s : String.rev (String.rev s) = s.
Proof.
  induction s as [|a s IH]; [done|].
  by rewrite rev_cons, rev_append, IH.
Qed.

Lemma rev_eq_empty s : String.rev s = "" → s = "".
Proof. intros H. by rewrite <- (rev_involutive s), H. Qed.

Lemma append_eq_empty (s t : string) : (s ++ t)%string = "" → s = "" ∧ t = "".
Proof. destruct s; [done|]. by rewrite append_cons. Qed.

(** *** Prefixes *)

Lemma stripPrefix_Some r s w : stripPrefix r s = Some w → s = (r ++ w)%string.
Proof.
  revert s. induction r as [|a r IH]; intros s H; simpl in H.
  - by injection H as ->.
  - destruct s as [|b s]; [done|]. destruct (Ascii.eqb_spec a b) as [->|]; [|done].
    rewrite append_cons. f_equal. by apply IH.
Qed.

Lemma stripPrefix_extend r s w t :
  stripPrefix r s = Some w → stripPrefix r (s ++ t) = Some (w ++ t)%string.
Proof.
  intros H. apply stripPrefix_Some in H as ->.
  by rewrite append_assoc, stripPrefix_app.
Qed.

Lemma firstMatch_Some runes s w :
  firstMatch runes s = Some w → ∃ r, r ∈ runes ∧ s = (r ++ w)%string.
Proof.
  induction runes as [|r rs IH]; simpl; [done|].
  destruct (stripPrefix r s) as [w'|] eqn:Hr.
  - intros [= ->]. exists r. split; [left|by apply stripPrefix_Some].
  - intros H. destruct (IH H) as (r' & Hin & ->). exists r'. split; [by right|done].
Qed.

Lemma firstMatch_rune runes r w : r ∈ runes → firstMatch runes (r ++ w) ≠ None.
Proof.
  induction runes as [|r0 rs IH]; intros Hin; [by apply elem_of_nil in Hin|].
  simpl. destruct (stripPrefix r0 (r ++ w)) eqn:Hr0; [done|].
  apply elem_of_cons in Hin as [->|Hin]; [by rewrite stripPrefix_app in Hr0|by apply IH].
Qed.

Lemma firstMatch_extend runes s t :
  firstMatch runes (s ++ t) = None → firstMatch runes s = None.
Proof.
  intros H. destruct (firstMatch runes s) as [w|] eqn:Hs; [|done].
  apply firstMatch_Some in Hs as (r & Hin & ->).
  rewrite append_assoc in H. by apply firstMatch_rune in H.
Qed.

Lemma firstMatch_lead runes c x :
  leads runes c = false → firstMatch runes (String c x) = None.
Proof.
  induction runes as [|r rs IH]; simpl; [done|].
  intros H. apply orb_false_iff in H as [Hr Hrs].
  destruct r as [|a r]; [done|]. simpl. rewrite Hr. by apply IH.
Qed.

(** A rune none of whose bytes is [c] does not reach past a [c]. *)
Lemma stripPrefix_stops r a c b w :
  occurs c r = false →
  stripPrefix r (a ++ String c b) = Some w →
  ∃ a', w = (a' ++ String c b)%string.
Proof.
  revert a. induction r as [|x r IH]; intros a Hc H.
  - simpl in H. injection H as <-. by exists a.
  - simpl in Hc. apply orb_false_iff in Hc as [Hx Hr].
    destruct a as [|y a].
    + rewrite append_nil_l in H. simpl in H. by rewrite Hx in H.
    + rewrite append_cons in H. simpl in H.
      destruct (Ascii.eqb x y); [|done]. by apply (IH a).
Qed.

Lemma trimLeftFuel_stops runes c fuel : ∀ a b,
  inRunes runes c = false →
  ∃ a', trimLeftFuel fuel runes (a ++ String c b) = (a' ++ String c b)%string.
Proof.
  induction fuel as [|f IH]; intros a b Hc; simpl; [by exists a|].
  destruct (firstMatch runes (a ++ String c b)) as [w|] eqn:Hm; [|by exists a].
  assert (∃ a', w = (a' ++ String c b)%string) as [a' ->].
  { clear IH. induction runes as [|r rs IHr]; simpl in Hm; [done|].
    simpl in Hc. apply orb_false_iff in Hc as [Hr Hrs].
    destruct (stripPrefix r (a ++ String c b)) as [w'|] eqn:Hs.
    - injection Hm as <-. by eapply stripPrefix_stops.
    - by apply IHr. }
  by apply IH.
Qed.

Lemma trimLeftFuel_none fuel runes s :
  firstMatch runes s = None → trimLeftFuel fuel runes s = s.
Proof. intros H. destruct fuel; simpl; [done|]. by rewrite H. Qed.

(** Appending a line feed does not complete a rune. *)
Lemma stripPrefix_lf r s t :
  occurs LF r = false → stripPrefix r s = None →
  stripPrefix r (s ++ String LF t) = None.
Proof.
  revert s. induction r as [|x r IH]; intros s Hlf H; [done|].
  simpl in Hlf. apply orb_false_iff in Hlf as [Hx Hr].
  destruct s as [|y s].
  - rewrite append_nil_l. simpl. by rewrite Hx.
  - rewrite append_cons. simpl in *. destruct (Ascii.eqb x y); [by apply IH|done].
Qed.

Lemma firstMatch_lf runes c s t :
  lfOnlyFirst runes = true →
  firstMatch runes (String c s) = None →
  firstMatch runes (String c s ++ String LF t) = None.
Proof.
  induction runes as [|r rs IH]; simpl; [done|].
  intros Hlf H. apply andb_true_iff in Hlf as [Hr Hrs].
  destruct r as [|x r]; [done|]. apply negb_true_iff in Hr.
  rewrite append_cons. simpl in *.
  destruct (Ascii.eqb x c).
  - destruct (stripPrefix r s) eqn:Hs; [done|].
    rewrite (stripPrefix_lf r s t Hr Hs). rewrite <- append_cons. by apply IH.
  - rewrite <- append_cons. by apply IH.
Qed.

(** *** White space *)

Lemma TrimSpace_empty : TrimSpace "" = "".
Proof. reflexivity. Qed.

Lemma TrimSpace_trimmed s : trimmed s = true → TrimSpace s = s.
Proof.
  unfold trimmed, startsWithSpace, endsWithSpace. intros H.
  apply andb_true_iff in H as [Hl Hr].
  destruct (firstMatch spaceRunes s) eqn:Hls; [done|].
  destruct (firstMatch (map String.rev spaceRunes) (String.rev s)) eqn:Hrs; [done|].
  unfold TrimSpace, TrimLeftSpace. rewrite (trimLeftFuel_none _ _ _ Hls).
  unfold TrimRightSpace. rewrite (trimLeftFuel_none _ _ _ Hrs).
  apply rev_involutive.
Qed.

Lemma TrimSpace_label c0 P v :
  leads spaceRunes c0 = false →
  ∃ z, TrimSpace (String c0 P ++ String ":" v) = (String c0 P ++ String ":" z)%string.
Proof.
  intros Hc0. unfold TrimSpace, TrimLeftSpace.
  rewrite trimLeftFuel_none by (rewrite append_cons; by apply firstMatch_lead).
  unfold TrimRightSpace.
  rewrite rev_append, (rev_cons ":" v), append_assoc.
  change (String ":" "" ++ ?x)%string with (String ":" x).
  destruct (trimLeftFuel_stops (map String.rev spaceRunes) ":"
              (String.length (String c0 P ++ String ":" v)) (String.rev v)
              (String.rev (String c0 P))) as [a' ->]; [by vm_compute|].
  exists (String.rev a').
  rewrite rev_append, rev_cons, rev_involutive, append_assoc. done.
Qed.

Lemma startsField_label (label v : string) :
  label ∈ ["URI: "; "Version: "; "Chain ID: "; "Nonce: "] →
  startsField (TrimSpace (label ++ v)) = true.
Proof.
  intros Hin. unfold startsField, HasPrefix.
  repeat (apply elem_of_cons in Hin as [->|Hin]); [..|by apply elem_of_nil in Hin].
  - destruct (TrimSpace_label "U" "RI" (String " " v)) as [z Hz]; [by vm_compute|].
    change ("URI: " ++ v)%string with (String "U" "RI" ++ String ":" (String " " v))%string.
    rewrite Hz. change (String "U" "RI" ++ String ":" z)%string with ("URI:" ++ z)%string.
    by rewrite stripPrefix_app.
  - destruct (TrimSpace_label "V" "ersion" (String " " v)) as [z Hz]; [by vm_compute|].
    change ("Version: " ++ v)%string
      with (String "V" "ersion" ++ String ":" (String " " v))%string.
    rewrite Hz. change (String "V" "ersion" ++ String ":" z)%string with ("Version:" ++ z)%string.
    rewrite (stripPrefix_app "Version:"). by rewrite orb_true_r.
  - destruct (TrimSpace_label "C" "hain ID" (String " " v)) as [z Hz]; [by vm_compute|].
    change ("Chain ID: " ++ v)%string
      with (String "C" "hain ID" ++ String ":" (String " " v))%string.
    rewrite Hz. change (String "C" "hain ID" ++ String ":" z)%string with ("Chain ID:" ++ z)%string.
    rewrite (stripPrefix_app "Chain ID:"). by rewrite orb_true_r.
  - destruct (TrimSpace_label "N" "once" (String " " v)) as [z Hz]; [by vm_compute|].
    change ("Nonce: " ++ v)%string
      with (String "N" "once" ++ String ":" (String " " v))%string.
    rewrite Hz. change (String "N" "once" ++ String ":" z)%string with ("Nonce:" ++ z)%string.
    rewrite (stripPrefix_app "Nonce:"). by rewrite orb_true_r.
Qed.

Lemma TrimSpace_statement v :
  v ≠ "" → trimmed v = true → TrimSpace (v ++ nl) = v.
Proof.
  intros Hne H. unfold trimmed, startsWithSpace, endsWithSpace in H.
  apply andb_true_iff in H as [Hl Hr].
  destruct (firstMatch spaceRunes v) eqn:Hls; [done|].
  destruct (firstMatch (map String.rev spaceRunes) (String.rev v)) eqn:Hrs; [done|].
  destruct v as [|c v]; [done|].
  unfold TrimSpace, TrimLeftSpace.
  rewrite trimLeftFuel_none by (apply firstMatch_lf; [by vm_compute|done]).
  unfold TrimRightSpace. rewrite rev_append.
  change (String.rev nl) with nl.
  change (nl ++ ?x)%string with (String LF x).
  rewrite append_cons. cbn [String.length trimLeftFuel].
  assert (∀ x, firstMatch (map String.rev spaceRunes) (String LF x) = Some x) as ->
    by (intros x; by vm_compute).
  rewrite (trimLeftFuel_none _ _ _ Hrs). apply rev_involutive.
Qed.

Lemma trimLeftFuel_empty runes fuel : ∀ x,
  trimLeftFuel fuel (map String.rev runes) x = "" →
  x = "" ∨ ∃ r y, r ∈ runes ∧ String.rev x = (r ++ y)%string.
Proof.
  induction fuel as [|f IH]; intros x H; simpl in H; [by left|].
  destruct (firstMatch (map String.rev runes) x) as [w|] eqn:Hm; [|by left].
  apply firstMatch_Some in Hm as (r' & Hin & ->).
  apply list_elem_of_fmap in Hin as (r & -> & Hin).
  right. destruct (IH w H) as [->|(r2 & y & Hin2 & Hw)].
  - exists r, "". by rewrite !append_nil_r, rev_involutive.
  - exists r2, (y ++ r)%string.
    by rewrite rev_append, rev_involutive, Hw, append_assoc.
Qed.

Lemma TrimSpace_not_blank s :
  s ≠ "" → firstMatch spaceRunes s = None → TrimSpace s ≠ "".
Proof.
  intros Hne Hl. unfold TrimSpace, TrimLeftSpace.
  rewrite (trimLeftFuel_none _ _ _ Hl). unfold TrimRightSpace. intros H.
  apply rev_eq_empty, trimLeftFuel_empty in H as [H|(r & y & Hin & H)].
  - by apply rev_eq_empty in H.
  - rewrite rev_involutive in H. rewrite H in Hl. by apply firstMatch_rune in Hl.
Qed.

(** The first line of a statement without leading white space is not blank. *)
Lemma first_line_not_blank v :
  v ≠ "" → startsWithSpace v = false →
  ∃ l ls, Split v LF = l :: ls ∧ TrimSpace l ≠ "".
Proof.
  intros Hne Hs. unfold startsWithSpace in Hs.
  destruct (firstMatch spaceRunes v) eqn:Hl; [done|]. clear Hs.
  destruct (Split v LF) as [|l ls] eqn:Hsplit; [by apply Split_nonempty in Hsplit|].
  exists l, ls. split; [done|].
  assert (∃ t, v = (l ++ t)%string ∧ (l = "" → v = "" ∨ ∃ t', v = String LF t')) as (t & Hv & Hl0).
  { clear Hl Hne. revert l ls Hsplit. induction v as [|c v IH]; intros l ls H; simpl in H.
    - injection H as <- <-. exists "". split; [done|]. by left.
    - destruct (Ascii.eqb_spec c LF) as [->|Hc].
      + injection H as <- <-. exists (String LF v). split; [done|]. intros _. right. by exists v.
      + destruct (Split v LF) as [|l' ls'] eqn:Hs'; [by apply Split_nonempty in Hs'|].
        injection H as <- <-. destruct (IH l' ls' eq_refl) as (t & -> & _).
        exists t. split; [done|]. done. }
  apply TrimSpace_not_blank.
  - intros ->. destruct (Hl0 eq_refl) as [->|[t' ->]]; [done|].
    apply (firstMatch_rune spaceRunes nl t'); [|exact Hl].
    by vm_compute; set_solver.
  - rewrite Hv in Hl. by apply firstMatch_extend in Hl.
Qed.

(** *** The lines of a constructed message *)

Lemma unlines_app l1 l2 : unlines (l1 ++ l2) = (unlines l1 ++ unlines l2)%string.
Proof.
  induction l1 as [|l l1 IH]; simpl; [done|].
  by rewrite IH, !append_assoc.
Qed.

Lemma unlines_cons l ls : unlines (l :: ls) = (nl ++ l ++ unlines ls)%string.
Proof. done. Qed.

Lemma unlines_Split v : unlines (Split v LF) = (nl ++ v)%string.
Proof.
  induction v as [|c v IH]; [done|]. simpl.
  destruct (Ascii.eqb_spec c LF) as [->|Hc].
  - rewrite unlines_cons, IH. done.
  - destruct (Split v LF) as [|l ls]; [done|].
    rewrite unlines_cons in IH. apply (inj (String.app nl)) in IH.
    by rewrite unlines_cons, append_cons, IH.
Qed.

Lemma writeOptional_unlines label p :
  writeOptional (nl ++ label) p = unlines (optionalLine label p).
Proof.
  unfold writeOptional, optionalLine. destruct p as [v|]; [|done].
  case_bool_decide; [done|]. simpl. by rewrite append_nil_r, append_assoc.
Qed.

Lemma statement_unlines i :
  writeOptional (nl ++ nl) (Statement i) = unlines (statementBlock i).
Proof.
  unfold writeOptional, statementBlock. destruct (Statement i) as [v|]; [|done].
  case_bool_decide; [done|].
  by rewrite unlines_cons, unlines_Split, append_nil_l, append_assoc.
Qed.

Lemma resources_unlines rs :
  (if (0 <? length rs)%nat
   then (nl ++ "Resources:") ++ fold_right (λ r acc, (nl ++ "- ") ++ r ++ acc) "" rs
   else "")%string
  = unlines (resourceLines rs).
Proof.
  unfold resourceLines. destruct (0 <? length rs)%nat; [|done].
  rewrite unlines_cons, append_assoc. do 2 f_equal.
  induction rs as [|r rs IH]; [done|]. simpl.
  by rewrite IH, !append_assoc.
Qed.

Lemma ConstructMessage_unlines i :
  ConstructMessage i =
  ((Domain i ++ " wants you to sign in with your Solana account:")
   ++ unlines (Address i :: statementBlock i ++ [""] ++ fieldLines i))%string.
Proof.
  unfold ConstructMessage.
  rewrite statement_unlines, !writeOptional_unlines, resources_unlines.
  unfold fieldLines, leadingFields, trailingFields.
  rewrite unlines_cons, !unlines_app. rewrite !unlines_cons.
  cbn [unlines fold_right].
  rewrite !append_assoc, !append_nil_l, ?append_nil_r. done.
Qed.

Lemma Split_unlines a ls :
  singleLine a = true → forallb singleLine ls = true →
  Split (a ++ unlines ls) LF = a :: ls.
Proof.
  revert a. induction ls as [|l ls IH]; intros a Ha Hls.
  - simpl. rewrite append_nil_r. apply Split_none. by apply negb_true_iff.
  - simpl in Hls. apply andb_true_iff in Hls as [Hl Hls].
    rewrite unlines_cons. change (nl ++ ?x)%string with (String LF x).
    rewrite Split_app by (by apply negb_true_iff). f_equal. by apply IH.
Qed.

Lemma singleLine_Split v : forallb singleLine (Split v LF) = true.
Proof.
  induction v as [|c v IH]; [done|]. simpl.
  destruct (Ascii.eqb_spec c LF) as [->|Hc]; [done|].
  destruct (Split v LF) as [|l ls]; [simpl|].
  - unfold singleLine. simpl. apply Ascii.eqb_neq in Hc. by rewrite Hc.
  - simpl in *. apply andb_true_iff in IH as [Hl Hls]. rewrite Hls, andb_true_r.
    unfold singleLine in *. simpl. apply Ascii.eqb_neq in Hc. by rewrite Hc.
Qed.

Lemma singleLine_append a b :
  singleLine a = true → singleLine b = true → singleLine (a ++ b) = true.
Proof.
  unfold singleLine. rewrite occurs_app, !negb_true_iff. by intros -> ->.
Qed.

Lemma optionalOK_lines label p :
  singleLine label = true → optionalOK p = true →
  forallb singleLine (optionalLine label p) = true.
Proof.
  intros Hl Hp. unfold optionalOK, optionalLine in *. destruct p as [v|]; [|done].
  apply andb_true_iff in Hp as [Hne Hv]. case_bool_decide; [done|].
  simpl. by rewrite singleLine_append.
Qed.

Lemma length_append (a b : string) :
  String.length (a ++ b) = (String.length a + String.length b)%nat.
Proof. induction a as [|c a IH]; [done|]. rewrite append_cons. simpl. by rewrite IH. Qed.

Lemma stripSuffix_unfold suf s :
  stripSuffix suf s =
  if String.eqb s suf then Some EmptyString
  else match s with
       | String c r => option_map (String c) (stripSuffix suf r)
       | EmptyString => None
       end.
Proof. by destruct s. Qed.

Lemma stripSuffix_app suf d : stripSuffix suf (d ++ suf) = Some d.
Proof.
  induction d as [|c d IH]; rewrite stripSuffix_unfold.
  - by rewrite append_nil_l, String.eqb_refl.
  - rewrite append_cons.
    destruct (String.eqb_spec (String c (d ++ suf)) suf) as [Heq|_].
    + apply (f_equal String.length) in Heq. simpl in Heq.
      rewrite length_append in Heq. lia.
    + by rewrite IH.
Qed.

Lemma matchHeader_domain d :
  d ≠ "" → singleLine d = true →
  matchHeader (d ++ " wants you to sign in with your Solana account:") = Some d.
Proof.
  intros Hne Hd. unfold matchHeader. rewrite stripSuffix_app.
  rewrite bool_decide_eq_false_2 by done.
  unfold singleLine in Hd. apply negb_true_iff in Hd. by rewrite Hd.
Qed.

Lemma findFieldsStart_app k pre l post :
  forallb (λ l, negb (startsField (TrimSpace l))) pre = true →
  startsField (TrimSpace l) = true →
  findFieldsStart k (pre ++ l :: post) = k + Z.of_nat (length pre).
Proof.
  revert k. induction pre as [|p pre IH]; intros k Hpre Hl; simpl.
  - rewrite Hl. lia.
  - simpl in Hpre. apply andb_true_iff in Hpre as [Hp Hpre].
    apply negb_true_iff in Hp. rewrite Hp, IH by done. lia.
Qed.

(** The statement loop keeps everything from the first non-blank line on. *)
Lemma collectStatement_kept acc ls :
  acc ≠ [] →
  fold_left
    (λ statementLines line,
       if (length statementLines =? 0)%nat && bool_decide (TrimSpace line = "")
       then statementLines else (statementLines ++ [line])%list)
    ls acc = (acc ++ ls)%list.
Proof.
  revert acc. induction ls as [|l ls IH]; intros acc Hacc; simpl.
  - by rewrite app_nil_r.
  - destruct acc as [|a acc]; [done|]. simpl.
    rewrite (IH (a :: acc ++ [l])%list) by done.
    simpl. f_equal. by rewrite <- (assoc_L (++)).
Qed.

Lemma collectStatement_blank_first l ls :
  TrimSpace l ≠ "" → collectStatement ("" :: l :: ls) = l :: ls.
Proof.
  intros Hl. unfold collectStatement. cbn [fold_left].
  rewrite TrimSpace_empty, (bool_decide_eq_true_2 ("" = "")) by done.
  cbn [length Nat.eqb andb].
  rewrite bool_decide_eq_false_2 by done.
  by rewrite collectStatement_kept.
Qed.

Lemma collectStatement_blank : collectStatement [""] = [].
Proof. reflexivity. Qed.

Lemma Join_snoc_blank ls : ls ≠ [] → (nl ++ Join (ls ++ [""]) nl)%string = (unlines ls ++ nl)%string.
Proof.
  induction ls as [|l ls IH]; [done|]. intros _.
  destruct ls as [|l' ls].
  - simpl. by rewrite !append_nil_r.
  - change (Join ((l :: l' :: ls) ++ [""]) nl)
      with (l ++ nl ++ Join ((l' :: ls) ++ [""]) nl)%string.
    rewrite IH by done. rewrite (unlines_cons l). by rewrite !append_assoc.
Qed.

Lemma Join_statement v : Join (Split v LF ++ [""]) nl = (v ++ nl)%string.
Proof.
  apply (inj (String.app nl)).
  rewrite Join_snoc_blank by apply Split_nonempty.
  by rewrite unlines_Split, append_assoc.
Qed.

(** *** The field loop *)

Ltac field_line :=
  intros; unfold parseLine, assignField, HasPrefix, TrimPrefix;
  rewrite !append_cons, append_nil_l; reflexivity.

Lemma parseLine_URI inp rs v :
  parseLine (inp, false, rs) ("URI: " ++ v) = (setURI inp v, false, rs).
Proof. field_line. Qed.

Lemma parseLine_Version inp rs v :
  parseLine (inp, false, rs) ("Version: " ++ v) = (setVersion inp v, false, rs).
Proof. field_line. Qed.

Lemma parseLine_ChainID inp rs v :
  parseLine (inp, false, rs) ("Chain ID: " ++ v) = (setChainID inp v, false, rs).
Proof. field_line. Qed.

Lemma parseLine_Nonce inp rs v :
  parseLine (inp, false, rs) ("Nonce: " ++ v) = (setNonce inp v, false, rs).
Proof. field_line. Qed.

Lemma parseLine_IssuedAt inp rs v :
  parseLine (inp, false, rs) ("Issued At: " ++ v) = (setIssuedAt inp v, false, rs).
Proof. field_line. Qed.

Lemma parseLine_ExpirationTime inp rs v :
  parseLine (inp, false, rs) ("Expiration Time: " ++ v)
  = (setExpirationTime inp v, false, rs).
Proof. field_line. Qed.

Lemma parseLine_NotBefore inp rs v :
  parseLine (inp, false, rs) ("Not Before: " ++ v) = (setNotBefore inp v, false, rs).
Proof. field_line. Qed.

Lemma parseLine_RequestID inp rs v :
  parseLine (inp, false, rs) ("Request ID: " ++ v) = (setRequestID inp v, false, rs).
Proof. field_line. Qed.

Lemma parseLine_Resources inp rs :
  parseLine (inp, false, rs) "Resources:" = (inp, true, rs).
Proof. reflexivity. Qed.

Lemma parseLine_resource inp rs r :
  parseLine (inp, true, rs) ("- " ++ r) = (inp, true, (rs ++ [r])%list).
Proof.
  unfold parseLine, HasPrefix, TrimPrefix.
  rewrite !append_cons, append_nil_l. reflexivity.
Qed.

Lemma fold_resources inp rs : ∀ acc,
  fold_left parseLine (map (λ r, ("- " ++ r)%string) rs) (inp, true, acc)
  = (inp, true, (acc ++ rs)%list).
Proof.
  induction rs as [|r rs IH]; intros acc; cbn [map fold_left].
  - by rewrite app_nil_r.
  - rewrite parseLine_resource, IH. by rewrite <- (assoc_L (++)).
Qed.

Lemma fold_resourceLines inp rs :
  fold_left parseLine (resourceLines rs) (inp, false, [])
  = (inp, (0 <? length rs)%nat, rs).
Proof.
  unfold resourceLines. destruct rs as [|r rs]; [done|].
  cbn [length Nat.ltb Nat.leb fold_left].
  rewrite parseLine_Resources. apply fold_resources.
Qed.

Lemma fold_optional label set p inp :
  (∀ inp v, parseLine (inp, false, []) (label ++ v) = (set inp v, false, [])) →
  optionalOK p = true →
  fold_left parseLine (optionalLine label p) (inp, false, [])
  = (setOptional set p inp, false, []).
Proof.
  intros Hline Hp. unfold optionalLine, setOptional, optionalOK in *.
  destruct p as [v|]; [|done]. apply andb_true_iff in Hp as [Hne _].
  apply negb_true_iff in Hne. rewrite Hne. simpl. apply Hline.
Qed.

(** *** The round trip *)

Lemma wellFormed_spec i :
  wellFormed i = true →
  Domain i ≠ "" ∧ singleLine (Domain i) = true ∧
  Address i ≠ "" ∧ singleLine (Address i) = true ∧ trimmed (Address i) = true ∧
  statementOK (Statement i) = true ∧
  optionalOK (URI i) = true ∧ optionalOK (Version i) = true ∧
  optionalOK (ChainID i) = true ∧
  singleLine (Nonce i) = true ∧ singleLine (IssuedAt i) = true ∧
  optionalOK (ExpirationTime i) = true ∧ optionalOK (NotBefore i) = true ∧
  optionalOK (RequestID i) = true ∧
  forallb singleLine (Resources i) = true.
Proof.
  unfold wellFormed. intros H.
  repeat (apply andb_true_iff in H as [H ?]).
  apply negb_true_iff, bool_decide_eq_false in H.
  match goal with Hn : negb (bool_decide (Address i = "")) = true |- _ =>
    apply negb_true_iff, bool_decide_eq_false in Hn end.
  repeat split; assumption.
Qed.

Lemma fieldLines_single i :
  wellFormed i = true → forallb singleLine (fieldLines i) = true.
Proof.
  intros H. apply wellFormed_spec in H
    as (_ & _ & _ & _ & _ & _ & Hu & Hv & Hc & Hn & Hi & He & Hb & Hr & Hres).
  unfold fieldLines, leadingFields, trailingFields.
  rewrite !forallb_app. cbn [forallb].
  rewrite !optionalOK_lines, !singleLine_append by done.
  simpl. unfold resourceLines. destruct (0 <? length (Resources i))%nat; [|done].
  simpl. induction (Resources i) as [|r rs IH]; [done|].
  simpl in *. apply andb_true_iff in Hres as [Hr0 Hrs].
  by rewrite singleLine_append, IH.
Qed.

Lemma statementBlock_single i : forallb singleLine (statementBlock i) = true.
Proof.
  unfold statementBlock. destruct (Statement i) as [v|]; [|done].
  case_bool_decide; [done|]. simpl. apply singleLine_Split.
Qed.

Lemma Split_ConstructMessage i :
  wellFormed i = true → Split (ConstructMessage i) LF = messageLines i.
Proof.
  intros H. pose proof (fieldLines_single i H) as Hfl.
  apply wellFormed_spec in H as (_ & Hd & _ & Ha & _).
  rewrite ConstructMessage_unlines. unfold messageLines.
  apply Split_unlines; [by apply singleLine_append|].
  cbn [forallb]. rewrite Ha, !forallb_app, statementBlock_single, Hfl. done.
Qed.

Lemma statementBlock_not_fields i :
  statementOK (Statement i) = true →
  forallb (λ l, negb (startsField (TrimSpace l))) (statementBlock i ++ [""]) = true.
Proof.
  intros H. unfold statementBlock, statementOK in *. rewrite forallb_app.
  destruct (Statement i) as [v|]; [|done].
  apply andb_true_iff in H as [H Hlines]. case_bool_decide; [done|].
  simpl. by rewrite Hlines.
Qed.

Lemma fieldLines_head i :
  optionalOK (URI i) = true → optionalOK (Version i) = true →
  optionalOK (ChainID i) = true →
  ∃ l rest, fieldLines i = l :: rest ∧ startsField (TrimSpace l) = true.
Proof.
  intros Hu Hv Hc. unfold fieldLines, leadingFields, optionalLine, optionalOK in *.
  destruct (URI i) as [u|].
  { apply andb_true_iff in Hu as [Hne _]. apply negb_true_iff in Hne. rewrite Hne.
    eexists _, _. split; [reflexivity|]. apply startsField_label. set_solver. }
  destruct (Version i) as [v|].
  { apply andb_true_iff in Hv as [Hne _]. apply negb_true_iff in Hne. rewrite Hne.
    eexists _, _. split; [reflexivity|]. apply startsField_label. set_solver. }
  destruct (ChainID i) as [c|].
  { apply andb_true_iff in Hc as [Hne _]. apply negb_true_iff in Hne. rewrite Hne.
    eexists _, _. split; [reflexivity|]. apply startsField_label. set_solver. }
  eexists _, _. split; [reflexivity|]. apply startsField_label. set_solver.
Qed.

Lemma fold_fieldLines i inp :
  wellFormed i = true →
  fold_left parseLine (fieldLines i) (inp, false, []) =
  (setOptional setRequestID (RequestID i)
     (setOptional setNotBefore (NotBefore i)
        (setOptional setExpirationTime (ExpirationTime i)
           (setIssuedAt
              (setNonce
                 (setOptional setChainID (ChainID i)
                    (setOptional setVersion (Version i)
                       (setOptional setURI (URI i) inp)))
                 (Nonce i))
              (IssuedAt i)))),
   (0 <? length (Resources i))%nat, Resources i).
Proof.
  intros H. apply wellFormed_spec in H
    as (_ & _ & _ & _ & _ & _ & Hu & Hv & Hc & _ & _ & He & Hb & Hr & _).
  unfold fieldLines, leadingFields, trailingFields.
  rewrite !fold_left_app.
  rewrite (fold_optional "URI: " setURI) by (done || apply parseLine_URI).
  rewrite (fold_optional "Version: " setVersion) by (done || apply parseLine_Version).
  rewrite (fold_optional "Chain ID: " setChainID) by (done || apply parseLine_ChainID).
  cbn [fold_left]. rewrite parseLine_Nonce, parseLine_IssuedAt.
  rewrite (fold_optional "Expiration Time: " setExpirationTime)
    by (done || apply parseLine_ExpirationTime).
  rewrite (fold_optional "Not Before: " setNotBefore) by (done || apply parseLine_NotBefore).
  rewrite (fold_optional "Request ID: " setRequestID) by (done || apply parseLine_RequestID).
  apply fold_resourceLines.
Qed.

(** The statement the parser recovers from the statement block. *)
Lemma statement_recovered i :
  statementOK (Statement i) = true →
  let statementLines := collectStatement (statementBlock i ++ [""]) in
  (if (0 <? length statementLines)%nat
   then let statement := TrimSpace (Join statementLines nl) in
        if bool_decide (statement = "") then None else Some statement
   else None) = Statement i.
Proof.
  intros H. unfold statementBlock, statementOK in *.
  destruct (Statement i) as [v|]; [|done].
  apply andb_true_iff in H as [H _]. apply andb_true_iff in H as [Hne Htrim].
  apply negb_true_iff in Hne. rewrite Hne. apply bool_decide_eq_false in Hne.
  assert (startsWithSpace v = false) as Hstart.
  { unfold trimmed in Htrim. apply andb_true_iff in Htrim as [Hs _].
    by apply negb_true_iff in Hs. }
  destruct (first_line_not_blank v Hne Hstart) as (l & ls & Hsplit & Hl).
  cbv zeta. rewrite Hsplit. cbn [app].
  rewrite (collectStatement_blank_first l (ls ++ [""]) Hl).
  cbn [length Nat.ltb Nat.leb].
  change (l :: ls ++ [""])%list with ((l :: ls) ++ [""])%list.
  rewrite <- Hsplit, Join_statement, TrimSpace_statement by done.
  by rewrite bool_decide_eq_false_2.
Qed.

(** C1 (amended). For every sign-in input that the line format can carry
    ([wellFormed]: the Domain is non-empty and has no line feed; the Address
    is non-empty, has no line feed and no leading or trailing white space;
    the Statement, if present, is non-empty, has no leading or trailing
    white space and no line whose trimmed text begins with "URI:",
    "Version:", "Chain ID:", "Nonce:" or "Issued At:"; every other optional
    field, if present, is non-empty and has no line feed; the Nonce, the
    IssuedAt and every resource have no line feed), parsing the message
    ConstructMessage builds succeeds and returns the input, field by
    field. *)
Theorem ParseMessage_ConstructMessage (i : SignInInput) :
  wellFormed i = true →
  ParseMessage (ConstructMessage i) = (i, None).
Proof.
  intros Hwf. unfold ParseMessage.
  rewrite (Split_ConstructMessage i Hwf). unfold messageLines.
  pose proof (fold_fieldLines i) as Hfold.
  pose proof (wellFormed_spec i Hwf)
    as (Hd & Hd1 & Ha & Ha1 & Hat & Hs & Hu & Hv & Hc & _).
  change (length (?a :: ?b :: ?x) <? 2)%nat with false.
  cbn [nth skipn]. rewrite !drop_0.
  rewrite (matchHeader_domain _ Hd Hd1).
  rewrite (TrimSpace_trimmed _ Hat).
  cbn [Address]. rewrite bool_decide_eq_false_2 by done.
  destruct (fieldLines_head i Hu Hv Hc) as (l & rest & Hfl & Hl).
  set (block := (statementBlock i ++ [""])%list).
  assert ((statementBlock i ++ [""] ++ fieldLines i)%list = (block ++ l :: rest)%list) as Hlines
    by (subst block; by rewrite <- (assoc_L (++)), Hfl).
  rewrite Hlines.
  rewrite (findFieldsStart_app 2 block l rest (statementBlock_not_fields i Hs) Hl).
  assert (0 < Z.of_nat (length block)) as Hblock
    by (subst block; rewrite length_app; simpl; lia).
  destruct (Z.ltb_spec 2 (2 + Z.of_nat (length block))) as [_|]; [|lia].
  destruct (Z.ltb_spec 0 (2 + Z.of_nat (length block))) as [_|]; [|lia].
  replace (Z.to_nat (2 + Z.of_nat (length block) - 2)) with (length block) by lia.
  rewrite take_app_length.
  replace (Z.to_nat (2 + Z.of_nat (length block))) with (S (S (length block))) by lia.
  cbn [skipn]. rewrite drop_app_length, <- Hfl.
  pose proof (statement_recovered i Hs) as Hst. cbv zeta in Hst. fold block in Hst.
  set (inp := if (0 <? length (collectStatement block))%nat then _ else _).
  assert (inp = mkInput (Domain i) (Address i) (Statement i) None None None "" ""
                  None None None []) as ->.
  { subst inp. rewrite <- Hst.
    destruct (0 <? length (collectStatement block))%nat; [|done].
    by case_bool_decide. }
  rewrite (Hfold _ Hwf).
  destruct i as [d a s u v c n t e b r rs]. cbn.
  destruct u, v, c, e, b, r, rs; reflexivity.
Qed.

Lemma ParseMessage_ConstructMessage_witness :
  wellFormed SiwsExamples.full = true ∧
  ParseMessage (ConstructMessage SiwsExamples.full) = (SiwsExamples.full, None).
Proof.
  split; [by vm_compute|].
  apply (ParseMessage_ConstructMessage SiwsExamples.full). by vm_compute.
Defined.

Example ConstructMessage_minimal :
  ConstructMessage SiwsExamples.minimal =
  ("example.com wants you to sign in with your Solana account:" ++ nl
   ++ "7xKXtg2CW87d97TXJSDpbD5jBkheTqA83TZRuJosgAsU" ++ nl
   ++ nl ++ "Nonce: abc12345" ++ nl ++ "Issued At: 2025-12-05T11:00:00Z")%string.
Proof. vm_compute. reflexivity. Qed.

Example ParseMessage_examples :
  ParseMessage (ConstructMessage SiwsExamples.full) = (SiwsExamples.full, None) ∧
  ParseMessage (ConstructMessage SiwsExamples.minimal) = (SiwsExamples.minimal, None) ∧
  wellFormed SiwsExamples.full = true ∧ wellFormed SiwsExamples.minimal = true ∧
  ParseMessage "no newline here" = (zeroInput, Some "message too short").
Proof. vm_compute. repeat split. Qed.

Example TrimSpace_examples :
  TrimSpace "  a b  " = "a b" ∧
  TrimSpace (bytes [194; 160; 97; 226; 128; 137; 10]%nat) = "a" ∧
  TrimSpace (bytes [9; 13; 10]%nat) = "" ∧
  TrimSpace (bytes [128; 97; 194]%nat) = bytes [128; 97; 194]%nat.
Proof. vm_compute. repeat split. Qed.

(** C1, as stated, fails: an optional field that points to the empty
    string is not written and comes back nil, and a statement that reads
    like a field line comes back as that field. *)
Lemma round_trip_fails_on_empty_or_field_like_statement :
  fst (ParseMessage (ConstructMessage SiwsExamples.emptyStatement))
    ≠ SiwsExamples.emptyStatement ∧
  Statement (fst (ParseMessage (ConstructMessage SiwsExamples.emptyStatement))) = None ∧
  fst (ParseMessage (ConstructMessage SiwsExamples.labelStatement))
    ≠ SiwsExamples.labelStatement ∧
  Statement (fst (ParseMessage (ConstructMessage SiwsExamples.labelStatement))) = None ∧
  URI (fst (ParseMessage (ConstructMessage SiwsExamples.labelStatement)))
    = Some "https://evil.example".
Proof. vm_compute. repeat split; discriminate. Qed.

End SiwsProofs.

(* ================================================================== *)
(** * Further properties of the code *)
(* ================================================================== *)

(** ** Strings *)
Module GoStringsProofs.
Import gostd gostrings GoStdProofs SiwsProofs.

Lemma HasPrefix_split s p : HasPrefix s p = true → ∃ r, s = (p ++ r)%string.
Proof.
  unfold HasPrefix. destruct (stripPrefix p s) as [r|] eqn:H; [|done].
  intros _. exists r. by apply stripPrefix_Some.
Qed.

Lemma Split_length s sep : length (Split s sep) = S (Count s sep).
Proof.
  induction s as [|c r IH]; simpl; [done|].
  destruct (Ascii.eqb c sep); simpl; [by rewrite IH|].
  destruct (Split r sep) as [|l ls] eqn:E; [by destruct (Split_nonempty r sep)|].
  simpl in *. done.
Qed.

End GoStringsProofs.

(** ** Password hashes: the two formats and the verifier *)
Module PasswordFormatProofs.
Import gostd gostrings password bcrypt GoStdProofs PasswordProofs GoStringsProofs.

(** A bcrypt hash is never taken for an Argon2id hash: whatever follows the
    prefix, the second field is not argon2id. *)
Theorem bcrypt_hash_is_bad_phc
  (IDKey : list ascii → list ascii → Z → Z → Z → Z → list ascii)
  (hash pw : string) :
  IsBcryptHash hash = true →
  VerifyArgon2id IDKey hash pw = (false, Some "bad_phc").
Proof.
  intros H. unfold VerifyArgon2id.
  assert (phcDecode hash = Err "bad_phc") as ->; [|done].
  assert (∀ v r, occurs "$" v = false → v ≠ "argon2id" →
            phcDecode ("" ++ String "$" (v ++ String "$" r)) = Err "bad_phc") as Hbad.
  { intros v r Hocc Hv. unfold phcDecode.
    rewrite (Split_app "" _ "$") by done. rewrite (Split_app v _ "$") by done.
    cbn [nth]. rewrite (bool_decide_eq_false_2 (v = "argon2id")) by done.
    by rewrite orb_true_r. }
  unfold IsBcryptHash in H.
  apply orb_true_iff in H as [H|H]; [apply orb_true_iff in H as [H|H]|];
    apply HasPrefix_split in H as [r ->].
  - by apply (Hbad "2a" r).
  - by apply (Hbad "2b" r).
  - by apply (Hbad "2y" r).
Qed.

Lemma bcrypt_hash_is_bad_phc_witness :
  VerifyArgon2id PasswordExamples.toyKey
    "$2a$10$N9qo8uLOickgx2ZMRZoMyeIjZAgcfl7p92ldGxad68LJZdL17lhWy" "secret"
  = (false, Some "bad_phc").
Proof.
  apply (bcrypt_hash_is_bad_phc PasswordExamples.toyKey
           "$2a$10$N9qo8uLOickgx2ZMRZoMyeIjZAgcfl7p92ldGxad68LJZdL17lhWy" "secret").
  reflexivity.
Defined.

(** What HashArgon2id returns is an Argon2id PHC string with the default
    costs, which IsBcryptHash does not take for a bcrypt hash. *)
Theorem argon2_hash_has_default_header
  (IDKey : list ascii → list ascii → Z → Z → Z → Z → list ascii)
  (randRead : Z → result (list ascii)) (pw encoded : string) :
  HashArgon2id IDKey randRead pw = (encoded, None) →
  HasPrefix encoded "$argon2id$v=19$m=65536,t=1,p=1$" = true ∧
  IsBcryptHash encoded = false ∧
  Count encoded "$" = 5%nat.
Proof.
  unfold HashArgon2id. destruct (randRead _) as [salt|e]; [|done].
  intros [= <-]. set (dk := IDKey _ _ _ _ _ _).
  split; [|split].
  - unfold HasPrefix, phcEncode.
    change ("$argon2id$v=19$m=" ++ formatUint (Memory DefaultParams) ++ ",t="
            ++ formatUint (Time DefaultParams) ++ ",p=" ++ formatUint (Threads DefaultParams)
            ++ "$" ++ ?x)%string
      with ("$argon2id$v=19$m=65536,t=1,p=1$" ++ x)%string.
    by rewrite stripPrefix_app.
  - reflexivity.
  - assert (length (Split (phcEncode DefaultParams salt dk) "$") = 6%nat) as Hl
      by (by rewrite Split_phcEncode).
    rewrite Split_length in Hl. lia.
Qed.

Lemma argon2_hash_has_default_header_witness :
  let encoded :=
    fst (HashArgon2id PasswordExamples.toyKey PasswordExamples.fixedRand "correct horse") in
  HasPrefix encoded "$argon2id$v=19$m=65536,t=1,p=1$" = true ∧
  IsBcryptHash encoded = false ∧
  Count encoded "$" = 5%nat.
Proof.
  apply (argon2_hash_has_default_header PasswordExamples.toyKey
           PasswordExamples.fixedRand "correct horse").
  reflexivity.
Defined.

(** A string that does not hold exactly five dollar signs is refused as
    bad_phc: an error, not a mere mismatch. *)
Theorem malformed_hash_is_an_error
  (IDKey : list ascii → list ascii → Z → Z → Z → Z → list ascii)
  (encoded pw : string) :
  Count encoded "$" ≠ 5%nat →
  VerifyArgon2id IDKey encoded pw = (false, Some "bad_phc").
Proof.
  intros H. unfold VerifyArgon2id, phcDecode.
  rewrite Split_length.
  destruct (Nat.eqb_spec (S (Count encoded "$")) 6) as [Heq|_]; [lia|done].
Qed.

Lemma malformed_hash_is_an_error_witness :
  VerifyArgon2id PasswordExamples.toyKey "" "secret" = (false, Some "bad_phc").
Proof.
  apply (malformed_hash_is_an_error PasswordExamples.toyKey "" "secret").
  simpl. lia.
Defined.

(** Verification against an encoded hash decides by the derived key alone:
    the parameters, the salt and the key length are those the hash carries,
    and the password is accepted exactly when the key derived with them is
    the stored key.  No error is returned.  The hash carries at least one
    pass, one thread and a key of one byte: with less, argon2.IDKey panics
    and the verification does not return. *)
Theorem verify_decides_by_derived_key
  (IDKey : list ascii → list ascii → Z → Z → Z → Z → list ascii)
  (p : Params) (salt sum : list ascii) (pw : string) :
  describes p salt sum →
  1 ≤ Time p → 1 ≤ Threads p → 1 ≤ KeyLen p →
  VerifyArgon2id IDKey (phcEncode p salt sum) pw
  = (bool_decide (IDKey (list_ascii_of_string pw) salt (Time p) (Memory p) (Threads p)
                    (KeyLen p) = sum), None).
Proof.
  intros Hd _ _ _. unfold VerifyArgon2id. rewrite (phcDecode_phcEncode p salt sum Hd).
  destruct Hd as (_ & _ & _ & _ & Hkl & _ & Hkb).
  rewrite <- Hkl. rewrite Z.mod_small by lia.
  set (dk := IDKey _ _ _ _ _ _).
  destruct (Nat.eqb_spec (length dk) (length sum)) as [Hlen|Hlen]; cbn [negb].
  - by case_bool_decide.
  - rewrite bool_decide_eq_false_2; [done|]. intros ->. done.
Qed.

Lemma verify_decides_by_derived_key_witness :
  VerifyArgon2id PasswordExamples.toyKey
    (phcEncode (mkParams 3 4096 2 16 3) PasswordExamples.salt16 (list_ascii_of_string "key"))
    "wrong horse"
  = (bool_decide (PasswordExamples.toyKey (list_ascii_of_string "wrong horse")
                    PasswordExamples.salt16 3 4096 2 3 = list_ascii_of_string "key"), None).
Proof.
  apply (verify_decides_by_derived_key PasswordExamples.toyKey (mkParams 3 4096 2 16 3)
           PasswordExamples.salt16 (list_ascii_of_string "key") "wrong horse").
  - unfold describes. simpl. lia.
  - simpl. lia.
  - simpl. lia.
  - simpl. lia.
Defined.

End PasswordFormatProofs.

(** ** The in-memory limiter as a sliding window *)
Module LimiterWindowProofs.
Import memorylimiter LimiterWindow LimiterProofs.

Lemma inWindow_all ws ts : Forall (λ t, ws ≤ t) ts → inWindow ws ts = ts.
Proof.
  unfold inWindow. induction 1 as [|t ts Ht _ IH]; [done|].
  rewrite filter_cons, decide_True by done. by rewrite IH.
Qed.

Lemma prune_inWindow ws ts : StronglySorted Z.le ts → prune ws ts = inWindow ws ts.
Proof.
  intros Hs. rewrite <- (inWindow_prune ws ts).
  symmetry. by apply inWindow_all, prune_fresh.
Qed.

Lemma inWindow_app ws ts us : inWindow ws (ts ++ us) = (inWindow ws ts ++ inWindow ws us)%list.
Proof. unfold inWindow. apply filter_app. Qed.

Lemma inWindow_inWindow ws ws' ts :
  ws ≤ ws' → inWindow ws' (inWindow ws ts) = inWindow ws' ts.
Proof.
  intros Hle. unfold inWindow. induction ts as [|t ts IH]; [done|].
  rewrite !filter_cons. destruct (decide (ws ≤ t)) as [Ht|Ht].
  - rewrite filter_cons. destruct (decide (ws' ≤ t)); by rewrite IH.
  - rewrite decide_False by lia. done.
Qed.

Lemma tracks_step lim c ts adm m :
  tracks (Milliseconds (window lim)) c ts adm → c ≤ m →
  let ws := m - Milliseconds (window lim) in
  let d := bool_decide (Z.of_nat (length (inWindow ws adm)) < limit lim) in
  bucketStep lim ts m = (if d then (inWindow ws adm ++ [m])%list else inWindow ws adm, d) ∧
  tracks (Milliseconds (window lim)) m (bucketStep lim ts m).1
    (adm ++ if d then [m] else [])%list.
Proof.
  intros (Hs & Hc & Hw) Hm ws d.
  assert (prune ws ts = inWindow ws adm) as Hp.
  { rewrite prune_inWindow by done. apply Hw. unfold ws. lia. }
  assert (StronglySorted Z.le (inWindow ws adm)) as Hs1.
  { rewrite <- Hp. by apply prune_sorted. }
  assert (Forall (λ t, t ≤ c) (inWindow ws adm)) as Hc1.
  { rewrite <- Hp. by apply prune_Forall. }
  assert (bucketStep lim ts m
          = (if d then (inWindow ws adm ++ [m])%list else inWindow ws adm, d)) as Hstep.
  { unfold bucketStep. fold ws. rewrite Hp. subst d.
    destruct (Z.leb_spec (limit lim) (Z.of_nat (length (inWindow ws adm)))).
    - by rewrite bool_decide_eq_false_2 by lia.
    - by rewrite bool_decide_eq_true_2 by lia. }
  split; [done|]. rewrite Hstep. cbn [fst]. destruct d.
  - split; [by apply (sorted_snoc _ c)|]. split.
    + apply Forall_app. split.
      * eapply Forall_impl; [exact Hc1|]. simpl. lia.
      * repeat constructor. lia.
    + intros ws' Hws'. rewrite !inWindow_app. f_equal.
      apply inWindow_inWindow. unfold ws. lia.
  - split; [done|]. split.
    + eapply Forall_impl; [exact Hc1|]. simpl. lia.
    + intros ws' Hws'. rewrite app_nil_r. apply inWindow_inWindow. unfold ws. lia.
Qed.

Lemma bucketRun_window lim clock : ∀ c ts adm m,
  tracks (Milliseconds (window lim)) c ts adm →
  StronglySorted Z.le (c :: clock ++ [m]) →
  bucketRun lim ts (clock ++ [m])
  = (bucketRun lim ts clock
     ++ [bool_decide
           (Z.of_nat (length (inWindow (m - Milliseconds (window lim))
                                (adm ++ admittedTimes clock (bucketRun lim ts clock))))
            < limit lim)])%list.
Proof.
  induction clock as [|m1 rest IH]; intros c ts adm m Htr Hs.
  - cbn [app bucketRun admittedTimes]. rewrite app_nil_r.
    assert (c ≤ m) as Hm.
    { apply StronglySorted_inv in Hs as [_ Hall]. by apply Forall_cons in Hall as [? _]. }
    destruct (tracks_step lim c ts adm m Htr Hm) as [-> _]. done.
  - assert (c ≤ m1 ∧ StronglySorted Z.le (m1 :: rest ++ [m])) as [Hm1 Hs'].
    { apply StronglySorted_inv in Hs as [Hs Hall]. split; [|done].
      by apply Forall_cons in Hall as [? _]. }
    destruct (tracks_step lim c ts adm m1 Htr Hm1) as [Hstep Htr'].
    cbn [app bucketRun]. rewrite Hstep in Htr' |- *. cbn [fst] in Htr'.
    set (d := bool_decide _) in *.
    set (ts' := if d then _ else _) in *.
    rewrite (IH m1 ts' _ m Htr' Hs'). cbn [admittedTimes]. cbn [app].
    do 4 f_equal. rewrite <- app_assoc. by destruct d.
Qed.

(** From an empty bucket, on a clock that does not run backwards (in
    milliseconds), every call of the in-memory limiter is admitted exactly
    when fewer than [limit] of the calls admitted before it carry a
    timestamp at or after the start of its window, now - window; the
    decisions taken before it are not revised. *)
Theorem memory_admits_by_window_count
  (l : Limiter) (bucket key : string) (pre : list Z) (now : Z) :
  bucket ≠ "" → key ≠ "" →
  buckets l !! limitKeyOf key bucket = None →
  StronglySorted Z.le (map unixMs (pre ++ [now])) →
  let lim := (get l bucket).1 in
  let ds := snd (run (Some l) bucket key pre) in
  let earlier := admittedTimes (map unixMs pre) ds in
  snd (run (Some l) bucket key (pre ++ [now]))
  = (ds ++ [bool_decide
              (Z.of_nat (length (inWindow (unixMs now - Milliseconds (window lim)) earlier))
               < limit lim)])%list.
Proof.
  intros Hb Hk Hfresh Hs lim ds earlier. subst ds earlier.
  rewrite !run_bucketRun by done. fold lim.
  unfold stored. rewrite Hfresh.
  rewrite map_app in Hs |- *. cbn [map] in Hs |- *.
  change (λ n : Z, n `quot` 1000000) with unixMs.
  set (clock := map unixMs pre) in *.
  assert (∃ c, StronglySorted Z.le (c :: clock ++ [unixMs now])) as [c Hc].
  { destruct (clock ++ [unixMs now])%list as [|x r] eqn:E.
    - exists 0. repeat constructor.
    - exists x. constructor; [done|]. constructor; [lia|].
      by apply StronglySorted_inv in Hs as [_ ?]. }
  change (now `quot` 1000000) with (unixMs now).
  rewrite (bucketRun_window lim clock c [] [] (unixMs now)); [done| |done].
  split; [constructor|]. split; [constructor|]. done.
Qed.

Lemma memory_admits_by_window_count_witness :
  let l := New (Some LimiterExamples.twoLimit) in
  let pre := map LimiterExamples.at_ms [0; 1000; 2000] in
  let now := LimiterExamples.at_ms 60500 in
  let ds := snd (run (Some l) "login" "user1" pre) in
  let earlier := admittedTimes (map unixMs pre) ds in
  snd (run (Some l) "login" "user1" (pre ++ [now]))
  = (ds ++ [bool_decide
              (Z.of_nat (length (inWindow (unixMs now - Milliseconds (window (get l "login").1))
                                   earlier))
               < limit (get l "login").1)])%list.
Proof.
  apply (memory_admits_by_window_count (New (Some LimiterExamples.twoLimit))
           "login" "user1" (map LimiterExamples.at_ms [0; 1000; 2000])
           (LimiterExamples.at_ms 60500)).
  - discriminate.
  - discriminate.
  - reflexivity.
  - change (StronglySorted Z.le
              [1700000000000; 1700000001000; 1700000002000; 1700000060500]).
    repeat (constructor; [|repeat (constructor; [lia|]); constructor]). constructor.
Defined.

(** A call leaves at most [limit] timestamps in its bucket when it is
    admitted, and never more than were stored when it is denied: the
    bucket of a key does not grow beyond the limit. *)
Theorem memory_bucket_size_bounded
  (l l' : Limiter) (now : Z) (bucket key : string) (allowed : bool) :
  AllowNamed (Some l) now bucket key = (Some l', (allowed, None)) →
  let lk := limitKeyOf key bucket in
  let lim := (get l bucket).1 in
  (allowed = true → Z.of_nat (length (stored l' lk)) ≤ limit lim) ∧
  (allowed = false → (length (stored l' lk) ≤ length (stored l lk))%nat) ∧
  (Z.of_nat (length (stored l lk)) ≤ limit lim →
   Z.of_nat (length (stored l' lk)) ≤ limit lim).
Proof.
  intros H lk lim.
  destruct (decide (bucket = "" ∨ key = "")) as [Hbad|Hok].
  { by rewrite (AllowNamed_rejected _ _ _ _ Hbad) in H. }
  assert (bucket ≠ "" ∧ key ≠ "") as [Hb Hk] by (split; intros ->; apply Hok; auto).
  destruct (AllowNamed_stored l now bucket key Hb Hk) as (l1 & Hcall & _ & Hst).
  rewrite Hcall in H. injection H as <- <-. fold lk lim in Hst |- *.
  pose proof (prune_length (now `quot` 1000000 - Milliseconds (window lim)) (stored l lk))
    as Hlen.
  set (ts := prune _ (stored l lk)) in *.
  rewrite Hst.
  destruct (Z.leb_spec (limit lim) (Z.of_nat (length ts))); cbn [negb].
  - split; [done|]. split; [intros _; lia|]. lia.
  - rewrite length_app. cbn [length]. split; [intros _; lia|]. split; [done|]. lia.
Qed.

Lemma memory_bucket_size_bounded_witness :
  let l := LimiterExamples.twoAdmitted in
  let l' := default l (after (AllowNamed (Some l) (LimiterExamples.at_ms 1000) "login" "user1")) in
  (true = true → Z.of_nat (length (stored l' "user1:login")) ≤ limit (get l "login").1) ∧
  (true = false → (length (stored l' "user1:login") ≤ length (stored l "user1:login"))%nat) ∧
  (Z.of_nat (length (stored l "user1:login")) ≤ limit (get l "login").1 →
   Z.of_nat (length (stored l' "user1:login")) ≤ limit (get l "login").1).
Proof.
  apply (memory_bucket_size_bounded LimiterExamples.twoAdmitted _
           (LimiterExamples.at_ms 1000) "login" "user1" true).
  vm_compute. reflexivity.
Defined.

End LimiterWindowProofs.

(** ** The Redis limiter: what a call leaves on the server *)
Module RedisKeyProofs.
Import redislimiter LimiterRelation LimiterWindow BackendProofs.

Lemma store_other db k e k' : k' ≠ k → store db k e !! k' = db !! k'.
Proof.
  intros Hne. unfold store. case_bool_decide.
  - by rewrite lookup_delete_ne.
  - by rewrite lookup_insert_ne.
Qed.

Lemma deadline_within_second w :
  0 ≤ w → 1000 * formatSec (w + Second) ≤ Milliseconds w + 1000.
Proof.
  intros Hw. unfold formatSec, Milliseconds, Second, Millisecond.
  destruct (Z.ltb_spec (w + 1000 * 1000000) (1000 * 1000000)); [lia|].
  rewrite andb_false_r.
  rewrite !Z.quot_div_nonneg by lia.
  Z.to_euclidean_division_equations. lia.
Qed.

(** A served call of the Redis limiter changes no key but its own, and
    leaves that key absent or expiring more than one window, and at most
    one window and a second, after the call: a key that is not called
    again holds no member from then on. *)
Theorem redis_call_leaves_expiring_key
  (l : Limiter) (c : unit) (db db' : gmap string zkey) (now : Z)
  (bucket key : string) (r : bool * option error) :
  rdb l = Some c → bucket ≠ "" → key ≠ "" →
  let lim := (get l bucket).1 in
  let nowMs := unixMs now in
  let lk := limitKeyOf key bucket in
  0 ≤ window lim → 0 < Milliseconds (window lim) →
  AllowNamed (Some l) db None now bucket key = (db', r) →
  (∀ k, k ≠ lk → db' !! k = db !! k) ∧
  ∃ ttl, Milliseconds (window lim) < ttl ≤ Milliseconds (window lim) + 1000 ∧
    (db' !! lk = None ∨
     ∃ z, db' !! lk = Some (mkZKey z (Some (nowMs + ttl)))) ∧
    ∀ t, nowMs + ttl ≤ t → members db' t lk = ∅.
Proof.
  intros Hc Hb Hk lim nowMs lk Hw Hms Hcall.
  rewrite (redis_call_served l db now bucket key c Hc Hb Hk Hw Hms) in Hcall.
  fold lim lk in Hcall. change (now `quot` 1000000) with nowMs in Hcall.
  set (ttl := 1000 * formatSec (window lim + Second)) in *.
  set (z := trimmedSet _ 0 _) in *.
  injection Hcall as Hdb _.
  assert (Milliseconds (window lim) < ttl ≤ Milliseconds (window lim) + 1000) as Httl.
  { split; [by apply window_below_deadline|by apply deadline_within_second]. }
  split.
  - intros k Hne. rewrite <- Hdb. destruct (_ <? _).
    + rewrite store_other by done. by rewrite lookup_insert_ne.
    + by rewrite lookup_insert_ne.
  - exists ttl. split; [done|].
    assert (db' !! lk = None ∨ ∃ z, db' !! lk = Some (mkZKey z (Some (nowMs + ttl)))) as Hkey.
    { rewrite <- Hdb. destruct (_ <? _).
      - unfold store. case_bool_decide.
        + left. by rewrite lookup_delete_eq.
        + right. eexists. by rewrite lookup_insert_eq.
      - right. eexists. by rewrite lookup_insert_eq. }
    split; [done|]. intros t Ht. unfold members, live.
    destruct Hkey as [->|[z' ->]]; [done|]. cbn [expireAt].
    destruct (Z.leb_spec (nowMs + ttl) t); [done|lia].
Qed.

Lemma redis_call_leaves_expiring_key_witness :
  let l := New (Some tt) (Some LimiterExamples.twoLimitR) in
  let now := LimiterExamples.at_ms 2000 in
  let db' := fst (AllowNamed (Some l) LimiterExamples.threeRecorded None now "login" "user1") in
  (∀ k, k ≠ "user1:login" → db' !! k = LimiterExamples.threeRecorded !! k) ∧
  ∃ ttl, Milliseconds (window (get l "login").1) < ttl
           ≤ Milliseconds (window (get l "login").1) + 1000 ∧
    (db' !! "user1:login" = None ∨
     ∃ z, db' !! "user1:login" = Some (mkZKey z (Some (unixMs now + ttl)))) ∧
    ∀ t, unixMs now + ttl ≤ t → members db' t "user1:login" = ∅.
Proof.
  apply (redis_call_leaves_expiring_key (New (Some tt) (Some LimiterExamples.twoLimitR)) tt
           LimiterExamples.threeRecorded _ (LimiterExamples.at_ms 2000) "login" "user1"
           (snd (AllowNamed (Some (New (Some tt) (Some LimiterExamples.twoLimitR)))
                   LimiterExamples.threeRecorded None (LimiterExamples.at_ms 2000)
                   "login" "user1"))).
  - reflexivity.
  - discriminate.
  - discriminate.
  - vm_compute. discriminate.
  - vm_compute. reflexivity.
  - apply surjective_pairing.
Defined.

(** A denied call of the Redis limiter leaves no member with the
    millisecond of the call, whether the member was added by this call or
    recorded by an admitted call of the same millisecond. *)
Theorem redis_denial_leaves_no_member_of_its_millisecond
  (l : Limiter) (c : unit) (db db' : gmap string zkey) (now : Z)
  (bucket key : string) :
  rdb l = Some c →
  let lim := (get l bucket).1 in
  0 ≤ window lim → 0 < Milliseconds (window lim) →
  AllowNamed (Some l) db None now bucket key = (db', (false, None)) →
  ∀ t, unixMs now ∉ members db' t (limitKeyOf key bucket).
Proof.
  intros Hc lim Hw Hms Hcall t.
  destruct (decide (bucket = "" ∨ key = "")) as [Hbad|Hok].
  { unfold AllowNamed in Hcall. rewrite Hc in Hcall.
    destruct Hbad as [-> | ->].
    - by rewrite bool_decide_eq_true_2 in Hcall.
    - rewrite (bool_decide_eq_true_2 ("" = "")), orb_true_r in Hcall by done. done. }
  assert (bucket ≠ "" ∧ key ≠ "") as [Hb Hk] by (split; intros ->; apply Hok; auto).
  rewrite (redis_call_served l db now bucket key c Hc Hb Hk Hw Hms) in Hcall.
  fold lim in Hcall. change (now `quot` 1000000) with (unixMs now) in Hcall.
  set (z := trimmedSet _ 0 _) in *. set (dl := unixMs now + _) in *.
  destruct (_ <? _); [|done]. injection Hcall as Hdb.
  unfold members, live. rewrite <- Hdb. unfold store. cbn [zset].
  case_bool_decide.
  - rewrite lookup_delete_eq. set_solver.
  - rewrite lookup_insert_eq. cbn [expireAt zset].
    destruct (dl <=? t); [set_solver|].
    cbn [zset]. rewrite elem_of_dom, lookup_delete_eq. by intros [? ?].
Qed.

Lemma redis_denial_leaves_no_member_of_its_millisecond_witness :
  1700000002000 ∉
    members (fst (AllowNamed (Some (New (Some tt) (Some LimiterExamples.twoLimitR)))
                    LimiterExamples.threeRecorded None (LimiterExamples.at_ms 2000)
                    "login" "user1")) 1700000002000 "user1:login".
Proof.
  refine (redis_denial_leaves_no_member_of_its_millisecond
           (New (Some tt) (Some LimiterExamples.twoLimitR)) tt
           LimiterExamples.threeRecorded _ (LimiterExamples.at_ms 2000) "login" "user1"
           _ _ _ _ 1700000002000).
  - reflexivity.
  - vm_compute. discriminate.
  - vm_compute. reflexivity.
  - vm_compute. reflexivity.
Defined.

Lemma redis_same_millisecond_step l c db now bucket key :
  rdb l = Some c → bucket ≠ "" → key ≠ "" →
  let lim := (get l bucket).1 in
  let m := unixMs now in
  let lk := limitKeyOf key bucket in
  let recorded := mkZKey {[ m := m ]} (Some (m + 1000 * formatSec (window lim + Second))) in
  0 ≤ window lim → 0 < Milliseconds (window lim) → 1 ≤ limit lim →
  db !! lk = None ∨ db !! lk = Some recorded →
  ∃ db', AllowNamed (Some l) db None now bucket key = (db', (true, None)) ∧
         db' !! lk = Some recorded.
Proof.
  intros Hc Hb Hk lim m lk recorded Hw Hms Hlim Hdb.
  rewrite (redis_call_served l db now bucket key c Hc Hb Hk Hw Hms).
  fold lim lk. change (now `quot` 1000000) with m.
  pose proof (window_below_deadline _ Hw) as Hdl. fold lim in Hdl.
  assert (<[m := m]> (current db m lk) = ({[ m := m ]} : gmap Z Z)) as ->.
  { unfold current, live. destruct Hdb as [-> | ->]; [apply insert_empty|].
    unfold recorded. cbn [expireAt zset].
    destruct (Z.leb_spec (m + 1000 * formatSec (window lim + Second)) m);
      [apply insert_empty|].
    cbn [zset]. by rewrite insert_singleton, decide_True. }
  assert (trimmedSet {[ m := m ]} 0 (m - Milliseconds (window lim))
          = ({[ m := m ]} : gmap Z Z)) as ->.
  { unfold trimmedSet. rewrite map_filter_singleton. rewrite decide_True; [done|].
    cbn [snd]. apply negb_true_iff, andb_false_iff. right. apply Z.leb_gt. lia. }
  rewrite map_size_singleton.
  destruct (Z.ltb_spec (limit lim) (Z.of_nat 1)); [lia|]. cbn [negb].
  eexists. split; [reflexivity|]. by rewrite lookup_insert_eq.
Qed.

(** Calls of one millisecond are one event for the Redis limiter: on a key
    that is absent, with a limit of at least one, any number of calls whose
    clock readings share their millisecond are all admitted. *)
Theorem redis_admits_every_call_of_one_millisecond
  (l : Limiter) (c : unit) (db : gmap string zkey) (bucket key : string)
  (m : Z) (clock : list Z) :
  rdb l = Some c → bucket ≠ "" → key ≠ "" →
  let lim := (get l bucket).1 in
  0 ≤ window lim → 0 < Milliseconds (window lim) → 1 ≤ limit lim →
  db !! limitKeyOf key bucket = None →
  Forall (λ now, unixMs now = m) clock →
  snd (run (Some l) db bucket key clock) = repeat true (length clock).
Proof.
  intros Hc Hb Hk lim Hw Hms Hlim Hdb Hclock.
  set (lk := limitKeyOf key bucket) in *.
  set (recorded := mkZKey {[ m := m ]} (Some (m + 1000 * formatSec (window lim + Second)))).
  assert (db !! lk = None ∨ db !! lk = Some recorded) as Hinv by (by left).
  clear Hdb. revert db Hinv.
  induction Hclock as [|now rest Hnow _ IH]; intros db Hinv; [done|].
  cbn [run length repeat].
  destruct (redis_same_millisecond_step l c db now bucket key Hc Hb Hk Hw Hms Hlim)
    as (db' & Hcall & Hdb').
  { fold lim lk. by rewrite Hnow. }
  fold lim lk in Hdb'. rewrite Hnow in Hdb'. fold recorded in Hdb'.
  rewrite Hcall. cbn [fst]. unfold decision. cbn [fst snd].
  specialize (IH db' (or_intror Hdb')).
  destruct (run (Some l) db' bucket key rest) as [dbf ds]. cbn [snd] in *.
  by rewrite IH.
Qed.

Lemma redis_admits_every_call_of_one_millisecond_witness :
  snd (run (Some (New (Some tt) (Some LimiterExamples.oneLimitR))) ∅ "login" "user1"
         [1700000000000000000; 1700000000000000001; 1700000000000999999])
  = repeat true 3.
Proof.
  apply (redis_admits_every_call_of_one_millisecond
           (New (Some tt) (Some LimiterExamples.oneLimitR)) tt ∅ "login" "user1"
           1700000000000
           [1700000000000000000; 1700000000000000001; 1700000000000999999]).
  - reflexivity.
  - discriminate.
  - discriminate.
  - vm_compute. discriminate.
  - vm_compute. reflexivity.
  - vm_compute. discriminate.
  - reflexivity.
  - repeat constructor.
Defined.

End RedisKeyProofs.

(** ** The relying party a discovery yields, and the claims an exchange yields *)
Module OidcShapeProofs.
Import oidckit.

Lemma TrimRight_cons c r cutset :
  TrimRight (String c r) cutset =
  match TrimRight r cutset with
  | EmptyString => if inCutset c cutset then EmptyString else String c EmptyString
  | r' => String c r'
  end.
Proof. reflexivity. Qed.

Lemma TrimRight_idem s cutset : TrimRight (TrimRight s cutset) cutset = TrimRight s cutset.
Proof.
  induction s as [|c r IH]; [done|].
  rewrite TrimRight_cons. destruct (TrimRight r cutset) as [|c' r'] eqn:E.
  - destruct (inCutset c cutset) eqn:Hc; [done|].
    rewrite TrimRight_cons. cbn [TrimRight]. by rewrite Hc.
  - rewrite TrimRight_cons, IH. done.
Qed.

(** A relying party exists only after a complete discovery: the document
    was served with a 2xx status from the well-known path under the
    issuer without its trailing slashes, the three endpoints and the
    issuer kept are non-empty, the client settings are those given, and
    the issuer kept is, trailing slashes apart, the configured one (or
    consists of slashes only, when the document reports such an issuer). *)
Theorem relying_party_comes_from_complete_discovery
  (httpGet : string → httpResult)
  (issuer0 clientID0 clientSecret redirectURI : string) (scopes : list string)
  (rp : RelyingParty) :
  NewRelyingPartyOIDC httpGet issuer0 clientID0 clientSecret redirectURI scopes = Ok rp →
  (∃ StatusCode Status doc,
     httpGet (TrimRight issuer0 "/" ++ "/.well-known/openid-configuration")%string
       = Response StatusCode Status (Ok doc) ∧
     200 ≤ StatusCode < 300 ∧
     jwksURL rp = JWKSURI doc ∧
     AuthURL (oauthConfig rp) = AuthorizationEndpoint doc ∧
     TokenURL (oauthConfig rp) = TokenEndpoint doc) ∧
  issuer rp ≠ "" ∧ jwksURL rp ≠ "" ∧
  AuthURL (oauthConfig rp) ≠ "" ∧ TokenURL (oauthConfig rp) ≠ "" ∧
  clientID rp = clientID0 ∧
  ClientID (oauthConfig rp) = clientID0 ∧
  ClientSecret (oauthConfig rp) = clientSecret ∧
  RedirectURL (oauthConfig rp) = redirectURI ∧
  Scopes (oauthConfig rp) = scopes ∧
  (TrimRight (issuer rp) "/" = TrimRight issuer0 "/" ∨ TrimRight (issuer rp) "/" = "").
Proof.
  unfold NewRelyingPartyOIDC. case_bool_decide as Hempty; [done|].
  unfold discoverOIDC. rewrite TrimRight_idem.
  destruct (httpGet _) as [e|code status [doc|e]] eqn:Hget; try done.
  2: { by destruct ((code <? 200) || (300 <=? code)). }
  destruct (Z.ltb_spec code 200); [done|].
  destruct (Z.leb_spec 300 code); [done|]. cbn [orb].
  destruct (negb _ && negb _) eqn:Hmis; [done|].
  destruct (bool_decide (AuthorizationEndpoint doc = "")) eqn:Ha; [done|].
  destruct (bool_decide (TokenEndpoint doc = "")) eqn:Ht; [done|].
  destruct (bool_decide (JWKSURI doc = "")) eqn:Hj; [done|].
  cbn [orb]. intros [= <-]. cbn [issuer jwksURL oauthConfig clientID AuthURL TokenURL
                                 ClientID ClientSecret RedirectURL Scopes].
  apply bool_decide_eq_false_1 in Ha, Ht, Hj.
  split; [by exists code, status, doc|].
  split.
  { destruct (decide (Issuer doc = "")) as [Hi|Hi].
    - rewrite bool_decide_eq_true_2 by done. intros ->. by apply Hempty.
    - by rewrite bool_decide_eq_false_2. }
  do 8 (split; [done|]).
  destruct (decide (Issuer doc = "")) as [Hi|Hi].
  - rewrite bool_decide_eq_true_2 by done. by left.
  - rewrite bool_decide_eq_false_2 by done.
    apply andb_false_iff in Hmis as [Hm|Hm]; apply negb_false_iff in Hm;
      apply bool_decide_eq_true_1 in Hm; auto.
Qed.

Lemma relying_party_comes_from_complete_discovery_witness :
  let rp := {| issuer := "https://idp.example/"; clientID := "client-1";
               jwksURL := "https://idp.example/jwks";
               oauthConfig := oauthConfig OidcExamples.rp |} in
  (∃ StatusCode Status doc,
     OidcExamples.serve "https://idp.example/"
       (TrimRight "https://idp.example//" "/" ++ "/.well-known/openid-configuration")%string
       = Response StatusCode Status (Ok doc) ∧
     200 ≤ StatusCode < 300 ∧
     jwksURL rp = JWKSURI doc ∧
     AuthURL (oauthConfig rp) = AuthorizationEndpoint doc ∧
     TokenURL (oauthConfig rp) = TokenEndpoint doc) ∧
  issuer rp ≠ "" ∧ jwksURL rp ≠ "" ∧
  AuthURL (oauthConfig rp) ≠ "" ∧ TokenURL (oauthConfig rp) ≠ "" ∧
  clientID rp = "client-1" ∧
  ClientID (oauthConfig rp) = "client-1" ∧
  ClientSecret (oauthConfig rp) = "secret" ∧
  RedirectURL (oauthConfig rp) = "https://app.example/cb" ∧
  Scopes (oauthConfig rp) = ["openid"] ∧
  (TrimRight (issuer rp) "/" = TrimRight "https://idp.example//" "/"
   ∨ TrimRight (issuer rp) "/" = "").
Proof.
  apply (relying_party_comes_from_complete_discovery
           (OidcExamples.serve "https://idp.example/")
           "https://idp.example//" "client-1" "secret" "https://app.example/cb" ["openid"]).
  vm_compute. reflexivity.
Defined.

(** The claims an exchange returns are those of the token the JWT library
    accepted for the raw ID token returned with them: an optional string is
    never a pointer to the empty string, and is set exactly when the token
    carries the claim as a non-empty string; EmailVerified is never nil,
    and is true exactly when the token's email_verified claim is the
    boolean true or a string equal to "true" under case folding. *)
Theorem exchanger_claims_are_normalised
  (KeySet : Type)
  (Exchange : Config → string → list (string * string) → result OAuth2Token)
  (Fetch : string → result KeySet)
  (ParseString : string → KeySet → string → string → result Token)
  (rpClient : RelyingParty) (provider code verifier nonce : string) (c : Claims) :
  DefaultExchanger KeySet Exchange Fetch ParseString rpClient provider code verifier nonce
    = Ok c →
  cRawIDToken c ≠ "" ∧
  ∃ keySet token,
    Fetch (jwksURL rpClient) = Ok keySet ∧
    ParseString (cRawIDToken c) keySet (issuer rpClient) (clientID rpClient) = Ok token ∧
    cSubject c = Subject token ∧
    (∀ e, cEmail c = Some e ↔ e ≠ "" ∧ private token !! "email" = Some (JString e)) ∧
    (∀ n, cName c = Some n ↔ n ≠ "" ∧ private token !! "name" = Some (JString n)) ∧
    (∀ u, cPreferredUsername c = Some u ↔
          u ≠ "" ∧ private token !! "preferred_username" = Some (JString u)) ∧
    (∃ b, cEmailVerified c = Some b) ∧
    (cEmailVerified c = Some true ↔
       private token !! "email_verified" = Some (JBool true) ∨
       ∃ s, private token !! "email_verified" = Some (JString s) ∧
            EqualFold s "true" = true).
Proof.
  unfold DefaultExchanger. intros H.
  destruct (Exchange _ _ _) as [tok|e]; [|done].
  destruct (Extra tok !! "id_token") as [[raw| |]|]; try done.
  case_bool_decide as Hraw; [done|].
  unfold RPKeySet in H. case_bool_decide as Hurl; [done|].
  destruct (Fetch _) as [ks|e] eqn:Hks; [|done].
  unfold VerifyIDToken, NewIDTokenVerifier in H. simpl in H.
  destruct (ParseString _ _ _ _) as [token|e] eqn:Hparse; [|done].
  destruct (checkNonce _ _ token) as [e|]; [done|].
  injection H as <-. cbn [cRawIDToken cSubject cEmail cName cPreferredUsername cEmailVerified
                          idSubject idEmail idName idPreferredUsername idEmailVerified].
  split; [done|]. exists ks, token. split; [done|]. split; [done|]. split; [done|].
  assert (∀ name v, strptr (stringClaim token name) = Some v ↔
                    v ≠ "" ∧ private token !! name = Some (JString v)) as Hstr.
  { intros name v. unfold strptr, stringClaim.
    destruct (private token !! name) as [[s| |]|]; case_bool_decide as Hs;
      (split; [intros [= <-]|intros [Hv [= <-]]]); done. }
  split; [apply Hstr|]. split; [apply Hstr|]. split; [apply Hstr|].
  split; [by eexists|].
  unfold boolptr, emailVerifiedClaim.
  destruct (private token !! "email_verified") as [[s|b|]|]; cbn [default].
  - destruct (EqualFold s "true") eqn:Ht; cbn [default].
    + split; [intros _; right; by exists s|done].
    + assert (default false (if EqualFold s "false" then Some false else None) = false)
        as -> by (by destruct (EqualFold s "false")).
      split; [done|]. intros [[=]|(s' & [= <-] & Hs')]. congruence.
  - destruct b; (split; [by (left || discriminate)|]); [done|].
    by intros [[=]|(s' & [=] & _)].
  - split; [done|]. by intros [[=]|(s' & [=] & _)].
  - split; [done|]. by intros [[=]|(s' & [=] & _)].
Qed.

Lemma exchanger_claims_are_normalised_witness :
  let claims : gmap string jsonValue :=
    {[ "email" := JString "alice@example.com"; "email_verified" := JString "True";
       "name" := JString "" ]} in
  let c := {| cSubject := "alice"; cEmail := Some "alice@example.com";
              cEmailVerified := Some true; cName := None; cPreferredUsername := None;
              cRawIDToken := "idtoken-1" |} in
  cRawIDToken c ≠ "" ∧
  ∃ keySet token,
    OidcExamples.fetchKeys (jwksURL OidcExamples.rp) = Ok keySet ∧
    OidcExamples.parse claims (cRawIDToken c) keySet
      (issuer OidcExamples.rp) (clientID OidcExamples.rp) = Ok token ∧
    cSubject c = Subject token ∧
    (∀ e, cEmail c = Some e ↔ e ≠ "" ∧ private token !! "email" = Some (JString e)) ∧
    (∀ n, cName c = Some n ↔ n ≠ "" ∧ private token !! "name" = Some (JString n)) ∧
    (∀ u, cPreferredUsername c = Some u ↔
          u ≠ "" ∧ private token !! "preferred_username" = Some (JString u)) ∧
    (∃ b, cEmailVerified c = Some b) ∧
    (cEmailVerified c = Some true ↔
       private token !! "email_verified" = Some (JBool true) ∨
       ∃ s, private token !! "email_verified" = Some (JString s) ∧
            EqualFold s "true" = true).
Proof.
  apply (exchanger_claims_are_normalised unit OidcExamples.exchange OidcExamples.fetchKeys
           (OidcExamples.parse
              {[ "email" := JString "alice@example.com";
                 "email_verified" := JString "True"; "name" := JString "" ]})
           OidcExamples.rp "google" "code-1" "verifier-1" "").
  vm_compute. reflexivity.
Defined.

End OidcShapeProofs.

(** ** SIWS: what ParseMessage accepts, nonces, new inputs, timestamps *)
Module SiwsInputProofs.
Import gostd gostrings siws SiwsLines siwsinput GoStdProofs GoStringsProofs SiwsProofs
  OidcShapeProofs.

(** *** Substrings left by trimming *)

Lemma stripPrefix_empty r : r ≠ "" → stripPrefix r "" = None.
Proof. by destruct r. Qed.

Lemma firstMatch_empty runes : Forall (λ r, r ≠ "") runes → firstMatch runes "" = None.
Proof.
  induction 1 as [|r rs Hr _ IH]; simpl; [done|]. by rewrite stripPrefix_empty.
Qed.

Lemma trimLeftFuel_suffix fuel runes : ∀ s,
  ∃ p, s = (p ++ trimLeftFuel fuel runes s)%string.
Proof.
  induction fuel as [|f IH]; intros s; simpl; [by exists ""|].
  destruct (firstMatch runes s) as [w|] eqn:Hm; [|by exists ""].
  apply firstMatch_Some in Hm as (r & _ & ->).
  destruct (IH w) as [p Hp]. exists (r ++ p)%string.
  rewrite append_assoc. by rewrite <- Hp.
Qed.

Lemma trimLeftFuel_done runes : Forall (λ r, r ≠ "") runes →
  ∀ fuel s, (String.length s ≤ fuel)%nat →
  firstMatch runes (trimLeftFuel fuel runes s) = None.
Proof.
  intros Hne. induction fuel as [|f IH]; intros s Hlen; simpl.
  - destruct s; [|simpl in Hlen; lia]. by apply firstMatch_empty.
  - destruct (firstMatch runes s) as [w|] eqn:Hm; [|done].
    apply IH. apply firstMatch_Some in Hm as (r & Hin & ->).
    rewrite Forall_forall in Hne. specialize (Hne r Hin).
    rewrite length_append in Hlen. destruct r; [done|]. simpl in Hlen. lia.
Qed.

Lemma length_rev s : String.length (String.rev s) = String.length s.
Proof.
  induction s as [|a s IH]; [done|].
  rewrite rev_cons, length_append. simpl. lia.
Qed.

Lemma spaceRunes_nonempty : Forall (λ r, r ≠ "") spaceRunes.
Proof. by repeat constructor. Qed.

Lemma revRunes_nonempty : Forall (λ r, r ≠ "") (map String.rev spaceRunes).
Proof. by repeat constructor. Qed.

(** What [TrimSpace] returns lies inside its argument. *)
Lemma TrimSpace_inside s : ∃ p q, s = (p ++ TrimSpace s ++ q)%string.
Proof.
  unfold TrimSpace, TrimRightSpace, TrimLeftSpace.
  destruct (trimLeftFuel_suffix (String.length s) spaceRunes s) as [p Hp].
  set (s1 := trimLeftFuel (String.length s) spaceRunes s) in *.
  destruct (trimLeftFuel_suffix (String.length s1) (map String.rev spaceRunes)
              (String.rev s1)) as [q Hq].
  set (x := trimLeftFuel _ _ (String.rev s1)) in *.
  exists p, (String.rev q). rewrite <- rev_append, <- Hq, rev_involutive. done.
Qed.

Lemma TrimSpace_occurs c s : occurs c s = false → occurs c (TrimSpace s) = false.
Proof.
  destruct (TrimSpace_inside s) as (p & q & Hs). intros H. rewrite Hs in H.
  rewrite !occurs_app in H. apply orb_false_iff in H as [_ H].
  by apply orb_false_iff in H as [H _].
Qed.

(** What [TrimSpace] returns neither begins nor ends with white space. *)
Lemma TrimSpace_is_trimmed s : trimmed (TrimSpace s) = true.
Proof.
  unfold trimmed, startsWithSpace, endsWithSpace, TrimSpace, TrimRightSpace, TrimLeftSpace.
  set (s1 := trimLeftFuel (String.length s) spaceRunes s).
  assert (firstMatch spaceRunes s1 = None) as H1
    by (by apply trimLeftFuel_done; [apply spaceRunes_nonempty|]).
  set (x := trimLeftFuel _ _ (String.rev s1)).
  assert (firstMatch (map String.rev spaceRunes) x = None) as H2.
  { apply trimLeftFuel_done; [apply revRunes_nonempty|]. by rewrite length_rev. }
  destruct (trimLeftFuel_suffix (String.length s1) (map String.rev spaceRunes)
              (String.rev s1)) as [q Hq].
  fold x in Hq.
  assert (s1 = (String.rev x ++ String.rev q)%string) as Hs1
    by (by rewrite <- rev_append, <- Hq, rev_involutive).
  rewrite Hs1 in H1. apply firstMatch_extend in H1. rewrite H1.
  by rewrite rev_involutive, H2.
Qed.

(** *** The lines of a message *)

Lemma Count_occurs s c : Count s c = O ↔ occurs c s = false.
Proof.
  induction s as [|a s IH]; simpl; [done|].
  destruct (Ascii.eqb a c); simpl; [split; [lia|done]|done].
Qed.

Lemma Split_short s : (length (Split s LF) <? 2)%nat = negb (occurs LF s).
Proof.
  rewrite Split_length. destruct (occurs LF s) eqn:Ho; simpl.
  - destruct (Count s LF) eqn:Hc; [|done]. apply Count_occurs in Hc. congruence.
  - apply Count_occurs in Ho. by rewrite Ho.
Qed.

Lemma Split_elem_single s l : l ∈ Split s LF → singleLine l = true.
Proof.
  intros Hin. pose proof (singleLine_Split s) as H.
  rewrite forallb_forall in H. apply H. by apply list_elem_of_In.
Qed.

Lemma matchHeader_Some line d :
  matchHeader line = Some d → d ≠ "" ∧ singleLine d = true.
Proof.
  unfold matchHeader. destruct (stripSuffix _ line) as [d'|]; [|done].
  case_bool_decide as Hd; [done|]. simpl.
  destruct (occurs LF d') eqn:Ho; [done|]. intros [= <-].
  split; [done|]. unfold singleLine. by rewrite Ho.
Qed.

Lemma findFieldsStart_none k ls :
  forallb (λ l, negb (startsField (TrimSpace l))) ls = true →
  findFieldsStart k ls = -1.
Proof.
  revert k. induction ls as [|l ls IH]; intros k H; simpl; [done|].
  simpl in H. apply andb_true_iff in H as [Hl Hls].
  apply negb_true_iff in Hl. rewrite Hl. by apply IH.
Qed.

(** The field loop and the two updates after it keep domain and address. *)
Lemma assignField_keeps i line :
  Domain (assignField i line) = Domain i ∧ Address (assignField i line) = Address i.
Proof.
  unfold assignField.
  repeat (match goal with |- context [if ?b then _ else _] => destruct b end; [done|]).
  done.
Qed.

Lemma parseLine_keeps st line :
  Domain (parseLine st line).1.1 = Domain st.1.1 ∧
  Address (parseLine st line).1.1 = Address st.1.1.
Proof.
  destruct st as [[i r] rs]. unfold parseLine.
  destruct (HasPrefix line "- " && r); [done|].
  destruct (HasPrefix line "Resources:"); [done|]. apply assignField_keeps.
Qed.

Lemma fold_parseLine_keeps ls : ∀ st,
  Domain (fold_left parseLine ls st).1.1 = Domain st.1.1 ∧
  Address (fold_left parseLine ls st).1.1 = Address st.1.1.
Proof.
  induction ls as [|l ls IH]; intros st; [done|]. cbn [fold_left].
  destruct (IH (parseLine st l)) as [-> ->]. apply parseLine_keeps.
Qed.

(** ParseMessage fails in three ways only, with nothing but the domain
    read; when it succeeds the message has a line break, the domain is
    non-empty and on one line, and the address is non-empty, on one line
    and free of surrounding white space.  Nothing else is required: a
    message without a nonce or an issued-at line is accepted. *)
Theorem ParseMessage_outcome (message : string) :
  match ParseMessage message with
  | (input, Some e) =>
      (e = "message too short" ∧ occurs LF message = false ∧ input = zeroInput) ∨
      (e = "invalid header format" ∧ occurs LF message = true ∧ input = zeroInput) ∨
      (e = "missing address" ∧ occurs LF message = true ∧
       Domain input ≠ "" ∧ input = domainOnly (Domain input))
  | (input, None) =>
      occurs LF message = true ∧
      Domain input ≠ "" ∧ singleLine (Domain input) = true ∧
      Address input ≠ "" ∧ singleLine (Address input) = true ∧
      trimmed (Address input) = true
  end.
Proof.
  unfold ParseMessage. rewrite Split_short.
  destruct (occurs LF message) eqn:Ho; cbn [negb]; [|by left].
  destruct (matchHeader _) as [d|] eqn:Hh; [|right; by left].
  apply matchHeader_Some in Hh as [Hd Hds].
  cbn [Address]. case_bool_decide as Ha.
  { right. right. cbn [Domain]. rewrite Ha. done. }
  set (lines := Split message LF) in *.
  set (addr := TrimSpace (nth 1 lines "")) in *.
  set (base := mkInput d addr None None None None "" "" None None None []).
  set (fs := findFieldsStart 2 (drop 2 lines)).
  set (withStatement := if 2 <? fs then _ else base).
  assert (Domain withStatement = d ∧ Address withStatement = addr) as [Hwd Hwa].
  { subst withStatement. destruct (2 <? fs); [|done].
    destruct (0 <? length _)%nat; [|done]. by case_bool_decide. }
  set (looped := if 0 <? fs then _ else (withStatement, false, [])).
  assert (Domain looped.1.1 = d ∧ Address looped.1.1 = addr) as [Hld Hla].
  { subst looped. destruct (0 <? fs); [|done].
    destruct (fold_parseLine_keeps (drop (Z.to_nat fs) lines) (withStatement, false, []))
      as [-> ->]. done. }
  destruct looped as [[i r] rs]. cbn [fst] in Hld, Hla.
  assert (singleLine addr = true) as Has.
  { unfold singleLine. apply negb_true_iff, TrimSpace_occurs.
    destruct (nth_in_or_default 1 lines "") as [Hin | Hnth]; [|by rewrite Hnth].
    apply list_elem_of_In, Split_elem_single in Hin. by apply negb_true_iff in Hin. }
  assert (trimmed addr = true) as Hat by apply TrimSpace_is_trimmed.
  destruct (0 <? length rs)%nat; cbn [Domain Address setResources];
    rewrite ?Hld, ?Hla; done.
Qed.

(** A message with a header and an address in which no later line, once
    trimmed, begins with URI:, Version:, Chain ID:, Nonce: or Issued At: is
    accepted, and only its domain and address are read: the statement and
    any Expiration Time, Not Before, Request ID and Resources lines are
    dropped. *)
Theorem ParseMessage_without_leading_field
  (message header address d : string) (rest : list string) :
  Split message LF = header :: address :: rest →
  matchHeader header = Some d →
  TrimSpace address ≠ "" →
  forallb (λ l, negb (startsField (TrimSpace l))) rest = true →
  ParseMessage message
  = (mkInput d (TrimSpace address) None None None None "" "" None None None [], None).
Proof.
  intros Hs Hh Ha Hrest. unfold ParseMessage. rewrite Hs.
  cbn [length Nat.ltb Nat.leb nth]. rewrite Hh. cbn [Address].
  rewrite bool_decide_eq_false_2 by done.
  cbn [skipn]. rewrite ?drop_0. rewrite (findFieldsStart_none 2 rest Hrest). done.
Qed.

Lemma ParseMessage_without_leading_field_witness :
  ParseMessage
    ("example.com wants you to sign in with your Solana account:" ++ nl
     ++ " 7xKXtg2CW87d97TXJSDpbD5jBkheTqA83TZRuJosgAsU " ++ nl ++ nl
     ++ "Sign in to test app" ++ nl ++ nl
     ++ "Expiration Time: 2025-12-05T12:00:00Z" ++ nl
     ++ "Resources:" ++ nl ++ "- https://example.com/a")
  = (mkInput "example.com" (TrimSpace " 7xKXtg2CW87d97TXJSDpbD5jBkheTqA83TZRuJosgAsU ")
       None None None None "" "" None None None [], None).
Proof.
  apply (ParseMessage_without_leading_field _
           "example.com wants you to sign in with your Solana account:"
           " 7xKXtg2CW87d97TXJSDpbD5jBkheTqA83TZRuJosgAsU " "example.com"
           [""; "Sign in to test app"; ""; "Expiration Time: 2025-12-05T12:00:00Z";
            "Resources:"; "- https://example.com/a"]).
  - vm_compute. reflexivity.
  - vm_compute. reflexivity.
  - vm_compute. discriminate.
  - vm_compute. reflexivity.
Defined.

(** *** Nonces *)

Lemma encodeCharURL_alphabet v :
  (v < 64)%N →
  occurs (encodeCharURL v) encodeURL = true ∧
  oidckit.inCutset (encodeCharURL v) "=" = false ∧
  encodeCharURL v ≠ LF.
Proof.
  intros Hv.
  assert (forallb (λ n, occurs (encodeCharURL (N.of_nat n)) encodeURL
                        && negb (oidckit.inCutset (encodeCharURL (N.of_nat n)) "=")
                        && negb (Ascii.eqb (encodeCharURL (N.of_nat n)) LF))
            (seq 0 64) = true) as H by (vm_compute; reflexivity).
  rewrite forallb_forall in H. specialize (H (N.to_nat v)).
  rewrite N2Nat.id in H.
  assert (In (N.to_nat v) (seq 0 64)) as Hin by (apply in_seq; lia).
  specialize (H Hin).
  apply andb_true_iff in H as [Ha Hlf]. apply andb_true_iff in Ha as [Ha Hc].
  split; [done|]. split; [by apply negb_true_iff|].
  by apply Ascii.eqb_neq, negb_true_iff.
Qed.

Lemma encodeCharURL_inj v w :
  (v < 64)%N → (w < 64)%N → encodeCharURL v = encodeCharURL w → v = w.
Proof.
  intros Hv Hw.
  assert (forallb (λ n, forallb (λ k,
             negb (Ascii.eqb (encodeCharURL (N.of_nat n)) (encodeCharURL (N.of_nat k)))
             || (n =? k)%nat) (seq 0 64)) (seq 0 64) = true) as H
    by (vm_compute; reflexivity).
  rewrite forallb_forall in H. specialize (H (N.to_nat v)).
  rewrite N2Nat.id in H.
  assert (In (N.to_nat v) (seq 0 64)) as Hin by (apply in_seq; lia).
  specialize (H Hin). rewrite forallb_forall in H.
  specialize (H (N.to_nat w)). rewrite N2Nat.id in H.
  assert (In (N.to_nat w) (seq 0 64)) as Hin' by (apply in_seq; lia).
  specialize (H Hin').
  intros Heq. rewrite Heq, Ascii.eqb_refl in H. cbn [negb orb] in H.
  apply Nat.eqb_eq in H. lia.
Qed.

Lemma map_encodeCharURL_inj vs ws :
  Forall (λ v, (v < 64)%N) vs → Forall (λ v, (v < 64)%N) ws →
  map encodeCharURL vs = map encodeCharURL ws → vs = ws.
Proof.
  intros Hvs. revert ws. induction Hvs as [|v vs Hv _ IH]; intros ws Hws Heq.
  - by destruct ws.
  - destruct ws as [|w ws]; [done|]. apply Forall_cons in Hws as [Hw Hws].
    injection Heq as Hh Ht. f_equal; [by apply encodeCharURL_inj|by apply IH].
Qed.

Lemma string_of_list_ascii_inj l1 l2 :
  string_of_list_ascii l1 = string_of_list_ascii l2 → l1 = l2.
Proof.
  intros H. by rewrite <- (list_ascii_of_string_of_list_ascii l1), H,
    list_ascii_of_string_of_list_ascii.
Qed.

Lemma EncodeToStringURL_inj b b' :
  EncodeToStringURL b = EncodeToStringURL b' → b = b'.
Proof.
  unfold EncodeToStringURL. intros H. apply string_of_list_ascii_inj in H.
  apply map_encodeCharURL_inj in H; [|apply sextets_bound, bytes_bound..].
  assert (Some (map N_of_ascii b) = Some (map N_of_ascii b')) as Hb.
  { rewrite <- !octets_sextets by apply bytes_bound. by rewrite H. }
  injection Hb as Hb.
  rewrite <- (map_id b), <- (map_id b').
  rewrite (map_ext _ (λ c, ascii_of_N (N_of_ascii c)))
    by (intros; by rewrite ascii_N_embedding).
  rewrite (map_ext id (λ c, ascii_of_N (N_of_ascii c)))
    by (intros; by rewrite ascii_N_embedding).
  rewrite <- !(map_map N_of_ascii ascii_of_N). by rewrite Hb.
Qed.

Lemma length_string_of_list_ascii l :
  String.length (string_of_list_ascii l) = length l.
Proof. induction l as [|c l IH]; simpl; [done|]. by rewrite IH. Qed.

Lemma sextets_sixteen bs : length bs = 16%nat → length (sextets bs) = 22%nat.
Proof.
  intros H. do 16 (destruct bs as [|? bs]; [done|]). by destruct bs.
Qed.

Lemma TrimRight_kept s cutset :
  Forall (λ c, oidckit.inCutset c cutset = false) (list_ascii_of_string s) →
  oidckit.TrimRight s cutset = s.
Proof.
  induction s as [|c r IH]; [done|]. cbn [list_ascii_of_string].
  intros H. apply Forall_cons in H as [Hc Hr].
  rewrite TrimRight_cons, (IH Hr), Hc. by destruct r.
Qed.

Lemma alphabet_singleLine n :
  Forall (λ c, occurs c encodeURL = true) (list_ascii_of_string n) → singleLine n = true.
Proof.
  unfold singleLine. induction n as [|c n IH]; [done|]. cbn [list_ascii_of_string].
  intros H. apply Forall_cons in H as [Hc Hn]. simpl.
  rewrite negb_orb, (IH Hn), andb_true_r.
  apply negb_true_iff, Ascii.eqb_neq. intros ->. by vm_compute in Hc.
Qed.

Lemma EncodeToStringURL_alphabet (b : list ascii) :
  Forall (λ c, occurs c encodeURL = true) (list_ascii_of_string (EncodeToStringURL b)).
Proof.
  unfold EncodeToStringURL. rewrite list_ascii_of_string_of_list_ascii.
  apply Forall_fmap. eapply Forall_impl; [apply sextets_bound, bytes_bound|].
  intros v Hlt. by apply encodeCharURL_alphabet.
Qed.

Lemma GenerateNonce_encodes (randRead : Z → result (list ascii)) (b : list ascii) :
  randRead 16 = Ok b → GenerateNonce randRead = Ok (EncodeToStringURL b).
Proof.
  intros Hrand. unfold GenerateNonce. rewrite Hrand. f_equal. apply TrimRight_kept.
  unfold EncodeToStringURL. rewrite list_ascii_of_string_of_list_ascii.
  apply Forall_fmap. eapply Forall_impl; [apply sextets_bound, bytes_bound|].
  intros v Hlt. by apply encodeCharURL_alphabet.
Qed.

(** Whatever sixteen bytes the random source delivers, GenerateNonce
    returns their unpadded URL-safe base64 text: 22 characters of the
    alphabet A-Z a-z 0-9 - _, and distinct byte sequences give distinct
    nonces.  It fails only when the random source fails. *)
Theorem GenerateNonce_shape
  (randRead : Z → result (list ascii)) (b : list ascii) :
  randRead 16 = Ok b → length b = 16%nat →
  GenerateNonce randRead = Ok (EncodeToStringURL b) ∧
  String.length (EncodeToStringURL b) = 22%nat ∧
  Forall (λ c, occurs c encodeURL = true) (list_ascii_of_string (EncodeToStringURL b)) ∧
  ∀ b', EncodeToStringURL b' = EncodeToStringURL b → b' = b.
Proof.
  intros Hrand Hlen.
  split; [by apply GenerateNonce_encodes|].
  split; [|split; [apply EncodeToStringURL_alphabet|intros b'; apply EncodeToStringURL_inj]].
  unfold EncodeToStringURL. rewrite length_string_of_list_ascii.
  rewrite length_map. apply sextets_sixteen. by rewrite length_map.
Qed.

Lemma GenerateNonce_shape_witness :
  let b := list_ascii_of_string "0123456789abcdef" in
  GenerateNonce SiwsInputExamples.sixteen = Ok (EncodeToStringURL b) ∧
  String.length (EncodeToStringURL b) = 22%nat ∧
  Forall (λ c, occurs c encodeURL = true) (list_ascii_of_string (EncodeToStringURL b)) ∧
  ∀ b', EncodeToStringURL b' = EncodeToStringURL b → b' = b.
Proof.
  apply (GenerateNonce_shape SiwsInputExamples.sixteen
           (list_ascii_of_string "0123456789abcdef")); reflexivity.
Defined.

(** *** New inputs *)

Lemma wellFormed_fields i :
  wellFormed i = true ↔
  (Domain i ≠ "" ∧ singleLine (Domain i) = true ∧
   Address i ≠ "" ∧ singleLine (Address i) = true ∧ trimmed (Address i) = true) ∧
  statementOK (Statement i) = true ∧
  optionalOK (URI i) = true ∧ optionalOK (Version i) = true ∧
  optionalOK (ChainID i) = true ∧
  singleLine (Nonce i) = true ∧ singleLine (IssuedAt i) = true ∧
  optionalOK (ExpirationTime i) = true ∧ optionalOK (NotBefore i) = true ∧
  optionalOK (RequestID i) = true ∧
  forallb singleLine (Resources i) = true.
Proof.
  unfold wellFormed. rewrite !andb_true_iff, !negb_true_iff, !bool_decide_eq_false.
  tauto.
Qed.

Lemma optionalOK_Some v : v ≠ "" → singleLine v = true → optionalOK (Some v) = true.
Proof. intros Hv Hs. unfold optionalOK. by rewrite bool_decide_eq_false_2, Hs. Qed.

(** Each option of the package, applied to an argument the message format
    can carry, keeps a well-formed input well-formed. *)
Theorem options_preserve_well_formed
  (Format : Time → string) (Parse : string → result Time) :
  (∀ t, Format t ≠ "" ∧ singleLine (Format t) = true) →
  (∀ statement, statementOK (Some statement) = true → preserves (WithStatement statement)) ∧
  (∀ uri, uri ≠ "" → singleLine uri = true → preserves (WithURI uri)) ∧
  (∀ chainID, chainID ≠ "" → singleLine chainID = true → preserves (WithChainID chainID)) ∧
  (∀ now d, preserves (WithExpirationDuration Format Parse now d)) ∧
  (∀ resources, forallb singleLine resources = true → preserves (WithResources resources)).
Proof.
  intros Hfmt. unfold preserves.
  split; [|split; [|split; [|split]]].
  - intros st Hst i Hi. apply wellFormed_fields in Hi. apply wellFormed_fields.
    unfold WithStatement. destruct i; cbn in *. tauto.
  - intros uri Hne Hs i Hi. apply wellFormed_fields in Hi. apply wellFormed_fields.
    pose proof (optionalOK_Some uri Hne Hs).
    unfold WithURI. destruct i; cbn in *. tauto.
  - intros c Hne Hs i Hi. apply wellFormed_fields in Hi. apply wellFormed_fields.
    pose proof (optionalOK_Some c Hne Hs).
    unfold WithChainID. destruct i; cbn in *. tauto.
  - intros now d i Hi. apply wellFormed_fields in Hi. apply wellFormed_fields.
    unfold WithExpirationDuration.
    set (t := Add _ d). destruct (Hfmt t) as [Hne Hs].
    pose proof (optionalOK_Some (Format t) Hne Hs).
    destruct i; cbn in *. tauto.
  - intros rs Hrs i Hi. apply wellFormed_fields in Hi. apply wellFormed_fields.
    unfold WithResources. destruct i; cbn in *.
    rewrite forallb_app, Hrs, andb_true_r. tauto.
Qed.

Lemma options_preserve_well_formed_witness :
  (∀ statement, statementOK (Some statement) = true → preserves (WithStatement statement)) ∧
  (∀ uri, uri ≠ "" → singleLine uri = true → preserves (WithURI uri)) ∧
  (∀ chainID, chainID ≠ "" → singleLine chainID = true → preserves (WithChainID chainID)) ∧
  (∀ now d, preserves (WithExpirationDuration SiwsInputExamples.showSeconds
                         SiwsInputExamples.readSeconds now d)) ∧
  (∀ resources, forallb singleLine resources = true → preserves (WithResources resources)).
Proof.
  apply (options_preserve_well_formed SiwsInputExamples.showSeconds
           SiwsInputExamples.readSeconds).
  intros t. unfold SiwsInputExamples.showSeconds. split.
  - apply string_of_uint_nonempty, to_uint_nonnil.
  - unfold singleLine. by rewrite formatUint_occurs.
Defined.

(** NewSignInInput fails only when the random source fails; otherwise,
    given a domain and an address the message format can carry, a time
    formatter that writes one non-empty line, and options that keep inputs
    well-formed, the input it returns is well-formed: it is one of those
    ParseMessage reads back from ConstructMessage.  Without options it
    carries the domain and the address given, the 22-character nonce,
    version 1, chain mainnet, and an expiration fifteen minutes after the
    issued-at time. *)
Theorem NewSignInInput_is_well_formed
  (randRead : Z → result (list ascii)) (Format : Time → string)
  (now : Time) (domain address : string) (opts : list InputOption) (b : list ascii) :
  randRead 16 = Ok b → length b = 16%nat →
  (∀ t, Format t ≠ "" ∧ singleLine (Format t) = true) →
  domain ≠ "" → singleLine domain = true →
  address ≠ "" → singleLine address = true → trimmed address = true →
  Forall preserves opts →
  ∃ input,
    NewSignInInput randRead Format now domain address opts = (input, None) ∧
    wellFormed input = true ∧
    (opts = [] →
     input = mkInput domain address None None (Some "1") (Some "mainnet")
               (EncodeToStringURL b) (Format (UTC now))
               (Some (Format (Add (UTC now) (15 * Minute)))) None None []).
Proof.
  intros Hrand Hlen Hfmt Hd Hds Ha Has Hat Hopts.
  pose proof (GenerateNonce_encodes randRead b Hrand) as Hnonce.
  pose proof (EncodeToStringURL_alphabet b) as Halpha.
  unfold NewSignInInput. rewrite Hnonce.
  set (base := mkInput _ _ _ _ _ _ _ _ _ _ _ _).
  exists (fold_left (λ i opt, opt i) opts base). split; [done|]. split.
  - assert (wellFormed base = true) as Hbase.
    { apply wellFormed_fields. subst base. cbn.
      destruct (Hfmt (UTC now)) as [_ Hi].
      destruct (Hfmt (Add (UTC now) (15 * Minute))) as [He1 He2].
      pose proof (optionalOK_Some _ He1 He2).
      pose proof (alphabet_singleLine _ Halpha). tauto. }
    clear Hnonce. revert Hbase. generalize base.
    induction Hopts as [|o os Ho _ IH]; intros i Hi; [done|].
    cbn [fold_left]. apply IH. by apply Ho.
  - by intros ->.
Qed.

Lemma NewSignInInput_is_well_formed_witness :
  ∃ input,
    NewSignInInput SiwsInputExamples.sixteen SiwsInputExamples.showSeconds
      SiwsInputExamples.noon "example.com" "7xKXtg2CW87d97TXJSDpbD5jBkheTqA83TZRuJosgAsU" []
    = (input, None) ∧
    wellFormed input = true ∧
    (([] : list InputOption) = [] →
     input = mkInput "example.com" "7xKXtg2CW87d97TXJSDpbD5jBkheTqA83TZRuJosgAsU"
               None None (Some "1") (Some "mainnet")
               (EncodeToStringURL (list_ascii_of_string "0123456789abcdef"))
               (SiwsInputExamples.showSeconds (UTC SiwsInputExamples.noon))
               (Some (SiwsInputExamples.showSeconds
                        (Add (UTC SiwsInputExamples.noon) (15 * Minute)))) None None []).
Proof.
  apply (NewSignInInput_is_well_formed SiwsInputExamples.sixteen
           SiwsInputExamples.showSeconds SiwsInputExamples.noon "example.com"
           "7xKXtg2CW87d97TXJSDpbD5jBkheTqA83TZRuJosgAsU" []
           (list_ascii_of_string "0123456789abcdef")).
  - reflexivity.
  - reflexivity.
  - intros t. unfold SiwsInputExamples.showSeconds. split.
    + apply string_of_uint_nonempty, to_uint_nonnil.
    + unfold singleLine. by rewrite formatUint_occurs.
  - discriminate.
  - reflexivity.
  - discriminate.
  - reflexivity.
  - vm_compute. reflexivity.
  - constructor.
Defined.

(** *** Timestamps *)

(** The instants at which ValidateTimestamps accepts an input form an
    interval: an input accepted at two instants is accepted at every
    instant between them. *)
Theorem ValidateTimestamps_accepts_an_interval
  (Parse : string → result Time) (now1 now2 now : Time) (input : SignInInput) :
  unixNano now1 ≤ unixNano now ≤ unixNano now2 →
  ValidateTimestamps Parse now1 input = None →
  ValidateTimestamps Parse now2 input = None →
  ValidateTimestamps Parse now input = None.
Proof.
  intros Hnow. unfold ValidateTimestamps, checkExpiration, checkNotBefore, checkIssuedAt.
  unfold After, Before, Add, UTC. cbn [unixNano].
  intros H1 H2.
  destruct (ExpirationTime input) as [e|];
    [destruct (bool_decide (e = "")); [|destruct (Parse e) as [exp|?]; [|done]]|];
  (destruct (NotBefore input) as [n|];
    [destruct (bool_decide (n = "")); [|destruct (Parse n) as [nb|?];
        [|repeat (match goal with H : context [if ?c then _ else _] |- _ =>
                    destruct c; try done end)]]|]);
  (destruct (bool_decide (IssuedAt input = ""));
    [|destruct (Parse (IssuedAt input)) as [issued|?];
        [|repeat (match goal with H : context [if ?c then _ else _] |- _ =>
                    destruct c; try done end)]]);
  repeat (match goal with
          | H : context [if ?a <? ?b then _ else _] |- _ =>
              destruct (Z.ltb_spec a b); [done|]
          end);
  repeat (match goal with
          | |- context [if ?a <? ?b then _ else _] =>
              destruct (Z.ltb_spec a b); [lia|]
          end); done.
Qed.

Lemma ValidateTimestamps_accepts_an_interval_witness :
  let input := mkInput "example.com" "addr" None None None None "n" "1700000000"
                 (Some "1700000900") None None [] in
  ValidateTimestamps SiwsInputExamples.readSeconds
    (mkTime 1700000400000000000 "Local") input = None.
Proof.
  apply (ValidateTimestamps_accepts_an_interval SiwsInputExamples.readSeconds
           (mkTime 1700000000000000000 "UTC") (mkTime 1700000900000000000 "UTC")
           (mkTime 1700000400000000000 "Local")).
  - cbn. lia.
  - vm_compute. reflexivity.
  - vm_compute. reflexivity.
Defined.

(** An input made by NewSignInInput without options at an instant [now]
    (not before 1970) passes ValidateTimestamps from [now] until one
    second short of fifteen minutes later, and fails it at every instant
    more than fifteen minutes later.  The time formatter writes non-empty
    text and, as RFC 3339 does, may drop up to a second that the parser
    cannot give back. *)
Theorem fresh_input_is_valid_for_a_quarter_hour
  (randRead : Z → result (list ascii)) (Format : Time → string)
  (Parse : string → result Time)
  (now later : Time) (domain address : string) (input : SignInInput) :
  0 ≤ unixNano now →
  (∀ t, Format t ≠ "") →
  (∀ t, 0 ≤ unixNano t →
        ∃ t', Parse (Format t) = Ok t' ∧ unixNano t - Second < unixNano t' ≤ unixNano t) →
  NewSignInInput randRead Format now domain address [] = (input, None) →
  (unixNano now ≤ unixNano later ≤ unixNano now + 15 * Minute - Second →
   ValidateTimestamps Parse later input = None) ∧
  (unixNano now + 15 * Minute < unixNano later →
   ∃ e, ValidateTimestamps Parse later input = Some e).
Proof.
  intros Hpos Hne Hrt. unfold NewSignInInput.
  destruct (GenerateNonce randRead) as [nonce|e]; [|done].
  cbn [fold_left]. intros [= <-].
  destruct (Hrt (UTC now)) as (issued & Hissued & Hi); [done|].
  destruct (Hrt (Add (UTC now) (15 * Minute))) as (exp & Hexp & He).
  { unfold Second, Millisecond, Minute. cbn [Add UTC unixNano]. lia. }
  cbn [Add UTC unixNano] in Hi, He.
  unfold ValidateTimestamps, checkExpiration, checkNotBefore, checkIssuedAt.
  cbn [ExpirationTime NotBefore IssuedAt].
  rewrite !bool_decide_eq_false_2 by apply Hne.
  rewrite Hexp, Hissued. unfold After, Before. cbn [Add UTC unixNano].
  unfold Second, Millisecond, Minute in *.
  split; intros Hl.
  - repeat (match goal with
            | |- context [if ?a <? ?b then _ else _] => destruct (Z.ltb_spec a b); [lia|]
            end). done.
  - destruct (Z.ltb_spec (unixNano exp) (unixNano later)); [by eexists|lia].
Qed.

Lemma readSeconds_showSeconds t :
  0 ≤ unixNano t →
  ∃ t', SiwsInputExamples.readSeconds (SiwsInputExamples.showSeconds t) = Ok t' ∧
        unixNano t - Second < unixNano t' ≤ unixNano t.
Proof.
  intros Ht. unfold SiwsInputExamples.readSeconds, SiwsInputExamples.showSeconds, formatUint.
  rewrite DecimalString.NilEmpty.usu by apply to_uint_nonnil.
  rewrite DecimalN.Unsigned.of_to. eexists. split; [reflexivity|].
  cbn [unixNano]. rewrite Z2N.id by (apply Z.div_pos; lia).
  unfold Second, Millisecond. Z.to_euclidean_division_equations. lia.
Qed.

Lemma fresh_input_is_valid_for_a_quarter_hour_witness :
  let input :=
    fst (NewSignInInput SiwsInputExamples.sixteen SiwsInputExamples.showSeconds
           SiwsInputExamples.noon "example.com" "addr" []) in
  let later := mkTime 1700000600000000000 "Local" in
  (unixNano SiwsInputExamples.noon ≤ unixNano later
     ≤ unixNano SiwsInputExamples.noon + 15 * Minute - Second →
   ValidateTimestamps SiwsInputExamples.readSeconds later input = None) ∧
  (unixNano SiwsInputExamples.noon + 15 * Minute < unixNano later →
   ∃ e, ValidateTimestamps SiwsInputExamples.readSeconds later input = Some e).
Proof.
  apply (fresh_input_is_valid_for_a_quarter_hour SiwsInputExamples.sixteen
           SiwsInputExamples.showSeconds SiwsInputExamples.readSeconds
           SiwsInputExamples.noon (mkTime 1700000600000000000 "Local")
           "example.com" "addr").
  - cbn. lia.
  - intros t. apply string_of_uint_nonempty, to_uint_nonnil.
  - apply readSeconds_showSeconds.
  - reflexivity.
Defined.

End SiwsInputProofs.

(** ** The in-memory state cache *)
Module StateCacheProofs.
Import memorystore.

Section Proofs.
Context {StateData : Type} (zero : StateData).
Implicit Types (s : StateCache StateData) (m : gmap string (item StateData)).

Lemma sweep_lookup now m0 m k :
  map_fold (λ k it acc, if exp it <? now then delete k acc else acc) m0 m !! k =
  match m !! k with
  | Some it => if exp it <? now then None else m0 !! k
  | None => m0 !! k
  end.
Proof.
  revert k.
  apply (map_fold_weak_ind
           (λ r m, ∀ k, r !! k = match m !! k with
                                 | Some it => if exp it <? now then None else m0 !! k
                                 | None => m0 !! k
                                 end)).
  - intros j. by rewrite lookup_empty.
  - intros i x m' r Hi IH j. destruct (decide (j = i)) as [->|Hne].
    + rewrite lookup_insert_eq. destruct (exp x <? now).
      * by rewrite lookup_delete_eq.
      * by rewrite IH, Hi.
    + rewrite lookup_insert_ne by done. destruct (exp x <? now).
      * rewrite lookup_delete_ne by done. apply IH.
      * apply IH.
Qed.

Lemma cleanup_lookup s now k :
  data (cleanup s now) !! k =
  match data s !! k with
  | Some it => if exp it <? now then None else Some it
  | None => None
  end.
Proof.
  unfold cleanup. cbn [data]. rewrite sweep_lookup.
  destruct (data s !! k) as [it|] eqn:Hk; [|done]. by destruct (exp it <? now).
Qed.

(** A state put at instant [now] is served, with the value put, at every
    instant up to [now] plus the time to live, whatever was stored under
    it before; at any later instant it is reported missing, without error,
    and removed.  The other states are served as before. *)
Theorem state_is_served_until_it_expires s now state value later :
  let s1 := fst (Put s now state value) in
  snd (Put s now state value) = None ∧
  (later ≤ now + ttl s → Get zero s1 later state = (s1, (value, true, None))) ∧
  (now + ttl s < later →
   snd (Get zero s1 later state) = (zero, false, None) ∧
   data (fst (Get zero s1 later state)) !! state = None) ∧
  (∀ other, other ≠ state →
     snd (Get zero s1 later other) = snd (Get zero s later other)).
Proof.
  intros s1. split; [done|]. subst s1. unfold Put, Get. cbn [fst data ttl].
  rewrite lookup_insert_eq. cbn [exp v].
  split; [|split].
  - intros Hl. destruct (Z.ltb_spec (now + ttl s) later); [lia|done].
  - intros Hl. destruct (Z.ltb_spec (now + ttl s) later); [|lia].
    cbn [fst snd data]. by rewrite lookup_delete_eq.
  - intros other Hne. rewrite lookup_insert_ne by done.
    destruct (data s !! other) as [it|]; [|done]. by destruct (exp it <? later).
Qed.

(** The sweep of the cleanup goroutine removes exactly the entries that
    have expired, and cannot be observed: whatever Get returns at an
    instant not before the sweep, it returns the same had the sweep not
    run. *)
Theorem cleanup_is_invisible s now later state :
  now ≤ later →
  (∀ k it, data (cleanup s now) !! k = Some it ↔ data s !! k = Some it ∧ now ≤ exp it) ∧
  snd (Get zero (cleanup s now) later state) = snd (Get zero s later state).
Proof.
  intros Hl. split.
  - intros k it. rewrite cleanup_lookup.
    destruct (data s !! k) as [it'|]; [|by split; [|intros [? _]]].
    destruct (Z.ltb_spec (exp it') now).
    + split; [done|]. intros [[= ->] ?]. lia.
    + split; [by intros [= ->]|by intros [? _]].
  - unfold Get. rewrite cleanup_lookup.
    destruct (data s !! state) as [it|]; [|done].
    destruct (Z.ltb_spec (exp it) now).
    + destruct (Z.ltb_spec (exp it) later); [done|lia].
    + by destruct (exp it <? later).
Qed.

End Proofs.

Lemma state_is_served_until_it_expires_witness :
  let s : StateCache string := NewStateCache 0 in
  let s1 := fst (Put s 1700000000000000000 "state-1" "verifier-1") in
  snd (Put s 1700000000000000000 "state-1" "verifier-1") = None ∧
  (1700000600000000000 ≤ 1700000000000000000 + ttl s →
   Get "" s1 1700000600000000000 "state-1" = (s1, ("verifier-1", true, None))) ∧
  (1700000000000000000 + ttl s < 1700000600000000000 →
   snd (Get "" s1 1700000600000000000 "state-1") = ("", false, None) ∧
   data (fst (Get "" s1 1700000600000000000 "state-1")) !! "state-1" = None) ∧
  (∀ other, other ≠ "state-1" →
     snd (Get "" s1 1700000600000000000 other) = snd (Get "" s 1700000600000000000 other)).
Proof.
  exact (state_is_served_until_it_expires "" (NewStateCache 0) 1700000000000000000
           "state-1" "verifier-1" 1700000600000000000).
Defined.

Lemma cleanup_is_invisible_witness :
  let s : StateCache string :=
    fst (Put (NewStateCache Second) 1700000000000000000 "state-1" "verifier-1") in
  (∀ k it, data (cleanup s 1700000002000000000) !! k = Some it ↔
           data s !! k = Some it ∧ 1700000002000000000 ≤ exp it) ∧
  snd (Get "" (cleanup s 1700000002000000000) 1700000003000000000 "state-1")
  = snd (Get "" s 1700000003000000000 "state-1").
Proof.
  apply (cleanup_is_invisible ""
           (fst (Put (NewStateCache Second) 1700000000000000000 "state-1" "verifier-1"))
           1700000002000000000 1700000003000000000 "state-1").
  lia.
Defined.

End StateCacheProofs.

(** ** The request language *)
Module LanguageProofs.
Import authlang authgin.

Section Proofs.
Variable ToLower : string → string.

Lemma normalizeLangCode_shape s :
  normalizeLangCode ToLower s = "" ∨ matchSimpleLang (normalizeLangCode ToLower s) = true.
Proof.
  unfold normalizeLangCode. case_bool_decide; [by left|].
  destruct (matchSimpleLang _) eqn:Hm; [by right|by left].
Qed.

Lemma matchSimpleLang_nonempty s : matchSimpleLang s = true → s ≠ "".
Proof. by destruct s. Qed.

Lemma supportedSet_elem supported m l :
  supportedSet ToLower supported = Some m → l ∈ m →
  ∃ s, s ∈ supported ∧ normalizeLangCode ToLower s = l.
Proof.
  unfold supportedSet. destruct (length supported =? 0)%nat; [done|].
  intros [= <-].
  assert (∀ (m0 : gset string),
            (∀ l, l ∈ m0 → ∃ s, s ∈ supported ∧ normalizeLangCode ToLower s = l) →
            ∀ done todo, supported = (done ++ todo)%list →
            ∀ l, l ∈ fold_left
                       (λ m s, let n := normalizeLangCode ToLower s in
                               if bool_decide (n = "") then m else {[ n ]} ∪ m)
                       todo m0 →
                 ∃ s, s ∈ supported ∧ normalizeLangCode ToLower s = l) as H.
  { intros m0 Hm0 done todo. revert m0 Hm0 done.
    induction todo as [|t todo IH]; intros m0 Hm0 done Hsplit l' Hl'; [by apply Hm0|].
    cbn [fold_left] in Hl'.
    apply (IH _) with (done := (done ++ [t])%list) in Hl'; [done| |by rewrite <- app_assoc].
    intros l'' Hl''. cbv zeta in Hl''. case_bool_decide; [by apply Hm0|].
    apply elem_of_union in Hl'' as [Hl''|Hl'']; [|by apply Hm0].
    apply elem_of_singleton in Hl'' as ->. exists t. split; [|done].
    rewrite Hsplit. apply elem_of_app. right. left. }
  apply (H ∅ ltac:(set_solver) [] supported eq_refl).
Qed.

Lemma pickFromAcceptLanguage_shape header supported :
  pickFromAcceptLanguage ToLower header supported = "" ∨
  acceptable supported (pickFromAcceptLanguage ToLower header supported).
Proof.
  unfold pickFromAcceptLanguage. case_bool_decide; [by left|].
  set (step := λ (found : option string) (part : string), _).
  assert (∀ parts found,
            (∀ l, found = Some l → acceptable supported l) →
            ∀ l, fold_left step parts found = Some l → acceptable supported l) as Hfold.
  { induction parts as [|p ps IH]; intros found Hf l Hl; [by apply Hf|].
    cbn [fold_left] in Hl. apply (IH _) in Hl; [done|].
    intros l' Hl'. subst step. cbv beta in Hl'.
    destruct found as [f|]; [by apply Hf|].
    case_bool_decide; [done|].
    set (lang := normalizeLangCode ToLower _) in *.
    case_bool_decide as Hlang; [done|].
    destruct (allowed supported lang) eqn:Hal; [|done].
    injection Hl' as <-. split; [|done].
    by destruct (normalizeLangCode_shape
                   (upTo (λ c, Ascii.eqb c ";") (siws.TrimSpace p))). }
  destruct (fold_left step (gostd.Split (siws.TrimSpace header) ",") None) as [l|] eqn:Hl;
    [|by left].
  right. cbn [default]. eapply Hfold; [|exact Hl]. done.
Qed.

Lemma pickFromPathPrefix_shape path supported :
  pickFromPathPrefix ToLower path supported = "" ∨
  acceptable supported (pickFromPathPrefix ToLower path supported).
Proof.
  unfold pickFromPathPrefix. destruct (_ <? 3)%nat; [by left|].
  set (lang := normalizeLangCode ToLower _).
  case_bool_decide as Hlang; [by left|].
  destruct (allowed supported lang) eqn:Hal; [|by left].
  right. split; [|done]. by destruct (normalizeLangCode_shape
                                        (upTo (λ c, Ascii.eqb c "/") (TrimLeft path "/"))).
Qed.

Lemma resolveRequestLanguage_acceptable (c : GinContext) (cfg : LanguageConfig) :
  let lang := resolveRequestLanguage ToLower c cfg in
  lang = "en" ∨ acceptable (supportedSet ToLower (Supported cfg)) lang.
Proof.
  intros lang.
  assert (∀ s, normalizeLangCode ToLower s ≠ "" → matchSimpleLang (normalizeLangCode ToLower s) = true) as Hnorm.
  { intros s Hne. by destruct (normalizeLangCode_shape s). }
  subst lang. unfold resolveRequestLanguage.
  set (supported := supportedSet ToLower (Supported cfg)) in *.
  set (qp := normalizeLangCode ToLower (Query c (QueryParam cfg))).
  destruct (negb (bool_decide (qp = "")) && allowed supported qp) eqn:Hq.
  { apply andb_true_iff in Hq as [Hq1 Hq2]. right. split; [|done].
    apply Hnorm. by apply negb_true_iff, bool_decide_eq_false_1 in Hq1. }
  destruct (pickFromPathPrefix_shape (Path c) supported) as [->|Hlp].
  2: { rewrite bool_decide_eq_false_2 by (apply matchSimpleLang_nonempty, Hlp).
       cbn [negb]. by right. }
  rewrite (bool_decide_eq_true_2 ("" = "")) by done. cbn [negb].
  set (fromCookie := if bool_decide (CookieName cfg = "") then _ else _).
  assert (∀ ck, fromCookie = Some ck → acceptable supported ck) as Hck.
  { intros ck. subst fromCookie. destruct (bool_decide (CookieName cfg = "")); [done|].
    destruct (Cookie c (CookieName cfg)) as [cv|e]; [|done].
    set (k := normalizeLangCode ToLower cv).
    destruct (negb (bool_decide (k = "")) && allowed supported k) eqn:Hk; [|done].
    apply andb_true_iff in Hk as [Hk1 Hk2]. intros [= <-]. split; [|done].
    apply Hnorm. by apply negb_true_iff, bool_decide_eq_false_1 in Hk1. }
  destruct fromCookie as [ck|]; [by right; apply Hck|].
  destruct (pickFromAcceptLanguage_shape (GetHeader c "Accept-Language") supported)
    as [->|Hal].
  2: { rewrite bool_decide_eq_false_2 by (apply matchSimpleLang_nonempty, Hal).
       cbn [negb]. by right. }
  rewrite (bool_decide_eq_true_2 ("" = "")) by done. cbn [negb].
  set (def := normalizeLangCode ToLower (Default cfg)).
  destruct (negb (bool_decide (def = "")) && allowed supported def) eqn:Hdef.
  - apply andb_true_iff in Hdef as [Hd1 Hd2]. right. split; [|done].
    apply Hnorm. by apply negb_true_iff, bool_decide_eq_false_1 in Hd1.
  - by left.
Qed.

Lemma resolveRequestLanguage_simple (c : GinContext) (cfg : LanguageConfig) :
  matchSimpleLang (resolveRequestLanguage ToLower c cfg) = true.
Proof.
  destruct (resolveRequestLanguage_acceptable c cfg) as [Hen|[Hm _]]; [|done].
  cbv zeta in Hen. by rewrite Hen.
Qed.

(** The language resolved for a request is always a code of two lower-case
    ASCII letters; when languages are configured as supported it is the
    normalised form of one of them, or else the last resort "en", which is
    returned even when it is not among them. *)
Theorem resolved_language_is_supported_or_en (c : GinContext) (cfg : LanguageConfig) :
  let lang := resolveRequestLanguage ToLower c cfg in
  matchSimpleLang lang = true ∧
  (lang = "en" ∨ Supported cfg = [] ∨
   ∃ s, s ∈ Supported cfg ∧ normalizeLangCode ToLower s = lang).
Proof.
  intros lang. split; [apply resolveRequestLanguage_simple|].
  destruct (resolveRequestLanguage_acceptable c cfg) as [Hen|[Hm Hal]]; [by left|].
  fold lang in Hal. right.
  destruct (supportedSet ToLower (Supported cfg)) as [m|] eqn:Hs.
  - right. apply (supportedSet_elem _ m); [done|].
    by apply bool_decide_eq_true_1 in Hal.
  - left. unfold supportedSet in Hs.
    destruct (Supported cfg); [done|]. done.
Qed.

Variable GetUserContext : GinContext → option UserContext.
Variable ClaimsFromGin : GinContext → option Claims.

(** The language the middleware resolves reaches the handlers: after
    LanguageMiddleware, whatever the configuration (nil included),
    LanguageFromContext finds in the request's context the language
    resolved under the defaulted configuration, the key authkit.language
    holds it, and CurrentUser reports it, whoever the caller is. *)
Theorem middleware_language_reaches_CurrentUser
  (cfg : option LanguageConfig) (g : GinContext) :
  let lang := resolveRequestLanguage ToLower g (defaulted cfg) in
  let g' := LanguageMiddleware ToLower cfg g in
  LanguageFromContext (RequestContext g') = (lang, true) ∧
  Keys g' !! "authkit.language" = Some (AString lang) ∧
  Language (fst (CurrentUser GetUserContext ClaimsFromGin g')) = lang.
Proof.
  intros lang g'.
  pose proof (resolveRequestLanguage_simple g (defaulted cfg)) as Hm.
  fold lang in Hm. apply matchSimpleLang_nonempty in Hm.
  assert (LanguageFromContext (RequestContext g') = (lang, true)) as Hctx.
  { subst g'. unfold LanguageMiddleware, LanguageFromContext, WithLanguage, WithValue.
    cbn [RequestContext Value sameKey]. fold lang.
    by rewrite bool_decide_eq_false_2. }
  split; [done|]. split.
  - subst g'. unfold LanguageMiddleware. cbn [Keys]. by rewrite lookup_insert_eq.
  - unfold CurrentUser. rewrite Hctx.
    destruct (GetUserContext g') as [uc|]; [case_bool_decide|]; try done;
      (destruct (ClaimsFromGin g') as [cl|]; [case_bool_decide|]; done).
Qed.

End Proofs.

(** The request of TestResolveRequestLanguage_SupportedEnforced resolves
    to es; were fr supported too, its query parameter would decide. *)
Example resolveRequestLanguage_tests :
  resolveRequestLanguage LanguageExamples.lowerASCII LanguageExamples.request
    LanguageExamples.config = "es" ∧
  resolveRequestLanguage LanguageExamples.lowerASCII LanguageExamples.request
    (mkLanguageConfig ["en"; "es"; "fr"] "en" "lang" "lang") = "fr" ∧
  normalizeLangCode LanguageExamples.lowerASCII " PT_br " = "pt".
Proof. repeat split; vm_compute; reflexivity. Qed.

End LanguageProofs.

(** ** Usernames *)
Module UsernameProofs.
Import gostd core GoStdProofs SiwsProofs.

Section Proofs.
Variable ToLower : string → string.
Variable taken : string → bool.
Variable randIntn : nat → Z.

Lemma filterBytes_keeps f s : forallb f (list_ascii_of_string (filterBytes f s)) = true.
Proof.
  induction s as [|c r IH]; [done|]. simpl.
  destruct (f c) eqn:Hc; [|done]. simpl. by rewrite Hc, IH.
Qed.

Lemma firstBytes_keeps f n s :
  forallb f (list_ascii_of_string s) = true →
  forallb f (list_ascii_of_string (firstBytes n s)) = true.
Proof.
  revert s. induction n as [|n IH]; intros [|c r]; simpl; try done.
  intros H. apply andb_true_iff in H as [Hc Hr]. by rewrite Hc, IH.
Qed.

Lemma firstBytes_length n s :
  (n ≤ String.length s)%nat → String.length (firstBytes n s) = n.
Proof.
  revert s. induction n as [|n IH]; intros [|c r]; simpl; try done; [lia|].
  intros H. rewrite IH; lia.
Qed.

Lemma cleanUsername_cases (s : string) :
  (ToLower (siws.TrimSpace s) = "" ∧ cleanUsername ToLower s = "") ∨
  (ToLower (siws.TrimSpace s) ≠ "" ∧
   wellFormedName (cleanUsername ToLower s) = true ∧
   (String.length (cleanUsername ToLower s) ≤ 32)%nat).
Proof.
  unfold cleanUsername. case_bool_decide as Hs; [by left|]. right. split; [done|].
  set (out1 := filterBytes keeps _).
  set (out2 := if bool_decide (out1 = "") then "user" else out1).
  assert (out2 ≠ "" ∧ forallb keeps (list_ascii_of_string out2) = true) as [Hne2 Hk2].
  { subst out2. case_bool_decide; [done|]. split; [done|apply filterBytes_keeps]. }
  set (out3 := match out2 with
               | String c _ => if negb (authgin.isLower c) then ("u" ++ out2)%string else out2
               | EmptyString => out2
               end).
  assert (wellFormedName out3 = true) as Hw3.
  { subst out3. destruct out2 as [|c r]; [done|].
    destruct (authgin.isLower c) eqn:Hc; cbn [negb].
    - unfold wellFormedName. rewrite Hc. exact Hk2.
    - unfold wellFormedName. rewrite append_cons, append_nil_l.
      change (authgin.isLower "u") with true. change (keeps "u") with true.
      exact Hk2. }
  assert (wellFormedName (if (32 <? String.length out3)%nat then firstBytes 32 out3 else out3)
          = true ∧
          (String.length (if (32 <? String.length out3)%nat then firstBytes 32 out3 else out3)
           ≤ 32)%nat) as [Hw4 Hl4].
  { destruct (Nat.ltb_spec 32 (String.length out3)) as [Hlong|Hshort]; [|done].
    split; [|rewrite firstBytes_length; lia].
    unfold wellFormedName in *. apply andb_true_iff in Hw3 as [Hf Hk].
    rewrite firstBytes_keeps, andb_true_r by done.
    by destruct out3. }
  done.
Qed.

(** cleanUsername returns the empty string only for a name that is blank
    once trimmed and lowered; every other result is at most 32 bytes of
    lower-case letters, digits and underscores, and begins with a letter. *)
Theorem cleanUsername_shape (s : string) :
  (cleanUsername ToLower s = "" ↔ ToLower (siws.TrimSpace s) = "") ∧
  (cleanUsername ToLower s ≠ "" →
   wellFormedName (cleanUsername ToLower s) = true ∧
   (String.length (cleanUsername ToLower s) ≤ 32)%nat).
Proof.
  destruct (cleanUsername_cases s) as [[Hs Hc]|(Hs & Hw & Hl)].
  - by rewrite Hc.
  - split; [|done]. split; [|done]. intros Heq. by rewrite Heq in Hw.
Qed.

Lemma find_candidate base u :
  find (λ candidate, negb (taken candidate)) (candidates randIntn base) = Some u →
  taken u = false ∧ ∃ suffix, u = (base ++ suffix)%string ∧
    forallb isDigit (list_ascii_of_string suffix) = true.
Proof.
  intros H. apply find_some in H as [Hin Hfree]. apply negb_true_iff in Hfree.
  split; [done|]. unfold candidates in Hin.
  destruct Hin as [<-|Hin]; [exists ""; by rewrite append_nil_r|].
  apply in_app_or in Hin as [Hin|Hin]; apply in_map_iff in Hin as (k & <- & _).
  - eexists. split; [done|]. unfold formatUint.
    generalize (N.to_uint (Z.to_N (Z.of_nat k))). intros d.
    induction d; cbn [NilEmpty.string_of_uint list_ascii_of_string forallb]; try done.
  - eexists. split; [done|]. unfold pad4.
    assert (∀ a b, forallb isDigit (list_ascii_of_string a) = true →
                   forallb isDigit (list_ascii_of_string b) = true →
                   forallb isDigit (list_ascii_of_string (a ++ b)) = true) as Happ.
    { intros a b Ha Hb. induction a as [|c a IH]; [done|].
      rewrite append_cons. simpl in *. apply andb_true_iff in Ha as [Hc Ha].
      by rewrite Hc, IH. }
    apply Happ.
    + rewrite list_ascii_of_string_of_list_ascii.
      induction (4 - _)%nat; [done|]. simpl. done.
    + unfold formatUint. generalize (N.to_uint (Z.to_N (randIntn k))). intros d.
      induction d; cbn [NilEmpty.string_of_uint list_ascii_of_string forallb]; try done.
Qed.

Lemma find_first {A} (f : A → bool) (l : list A) (x : A) :
  find f l = Some x →
  ∃ before later, l = (before ++ x :: later)%list ∧
    Forall (λ c, f c = false) before ∧ f x = true.
Proof.
  induction l as [|a l IH]; [done|]. cbn [find]. destruct (f a) eqn:Ha.
  - intros [= <-]. exists [], l. by repeat split.
  - intros H. destruct (IH H) as (before & later & -> & Hall & Hx).
    exists (a :: before), later. repeat split; [|done]. by constructor.
Qed.

Lemma find_none_all {A} (f : A → bool) (l : list A) :
  find f l = None → Forall (λ c, f c = false) l.
Proof.
  induction l as [|a l IH]; [constructor|]. cbn [find]. destruct (f a) eqn:Ha; [done|].
  intros H. constructor; [done|by apply IH].
Qed.

Lemma candidates_length base : length (candidates randIntn base) = 1100%nat.
Proof.
  unfold candidates. cbn [length]. by rewrite length_app, !length_map, !length_seq.
Qed.

(** GenerateAvailableUsername returns the first of the 1100 names it tries,
    in the order it tries them (the cleaned base, "user" for a blank one;
    the base followed by 1 to 999; the base followed by one hundred random
    numbers of four digits), for which no user is found: every name tried
    before it is taken.  Only when all 1100 are taken does it return the
    base followed by _user, which is not looked up.  The name returned
    starts with the base, begins with a letter and holds only lower-case
    letters, digits and underscores. *)
Theorem generated_username_is_first_free_candidate (base : string) :
  let u := GenerateAvailableUsername ToLower taken randIntn base in
  let b := if bool_decide (cleanUsername ToLower base = "") then "user"
           else cleanUsername ToLower base in
  let tried := candidates randIntn b in
  length tried = 1100%nat ∧
  ((∃ before later, tried = (before ++ u :: later)%list ∧
      Forall (λ c, taken c = true) before ∧ taken u = false)
   ∨ (Forall (λ c, taken c = true) tried ∧ u = (b ++ "_user")%string)) ∧
  (taken b = false → u = b) ∧
  HasPrefix u b = true ∧
  wellFormedName u = true.
Proof.
  intros u b tried. split; [apply candidates_length|].
  subst u tried. unfold GenerateAvailableUsername. fold b.
  assert (wellFormedName b = true) as Hb.
  { subst b. case_bool_decide as Hc; [done|].
    by destruct (cleanUsername_cases base) as [[_ ?]|(_ & ? & _)]. }
  assert (∀ suffix, forallb keeps (list_ascii_of_string suffix) = true →
                    wellFormedName (b ++ suffix) = true) as Hext.
  { intros suffix Hs. unfold wellFormedName in *. apply andb_true_iff in Hb as [Hf Hk].
    destruct b as [|c r]; [done|]. rewrite append_cons. cbn [list_ascii_of_string forallb] in *.
    apply andb_true_iff in Hk as [Hc Hr]. rewrite Hf, Hc. cbn [andb].
    clear Hf Hc. induction r as [|x r IH]; [by rewrite append_nil_l|].
    rewrite append_cons. simpl in *. apply andb_true_iff in Hr as [Hx Hr].
    by rewrite Hx, IH. }
  destruct (find _ (candidates randIntn b)) as [c|] eqn:Hfind.
  - pose proof Hfind as Hfirst. pose proof Hfind as Horder.
    apply find_first in Horder as (before & later & Heq & Hbefore & _).
    apply find_candidate in Hfind as (Hfree & suffix & -> & Hdigits).
    split.
    { left. exists before, later. split; [done|]. split; [|done].
      eapply Forall_impl; [exact Hbefore|]. intros x Hx. simpl in Hx.
      by apply negb_false_iff in Hx. }
    split.
    + intros Hbfree. unfold candidates in Hfirst. cbn [find] in Hfirst.
      rewrite Hbfree in Hfirst. cbn [negb] in Hfirst. by injection Hfirst as <-.
    + split; [unfold HasPrefix; by rewrite stripPrefix_app|].
      apply Hext. clear -Hdigits. induction suffix as [|x r IH]; [done|].
      simpl in *. apply andb_true_iff in Hdigits as [Hx Hr]. rewrite (IH Hr), andb_true_r.
      unfold keeps. by rewrite Hx, orb_true_r.
  - split.
    { right. split; [|done]. apply find_none_all in Hfind.
      eapply Forall_impl; [exact Hfind|]. intros x Hx. simpl in Hx.
      by apply negb_false_iff in Hx. }
    split.
    + intros Hbfree. unfold candidates in Hfind. cbn [find] in Hfind.
      by rewrite Hbfree in Hfind.
    + split; [unfold HasPrefix; by rewrite stripPrefix_app|]. by apply Hext.
Qed.

End Proofs.

Example usernames_evaluated :
  cleanUsername LanguageExamples.lowerASCII "  Alice.Smith-99 " = "alicesmith99" ∧
  cleanUsername LanguageExamples.lowerASCII "42" = "u42" ∧
  cleanUsername LanguageExamples.lowerASCII "!!!" = "user" ∧
  cleanUsername LanguageExamples.lowerASCII "   " = "" ∧
  GenerateAvailableUsername LanguageExamples.lowerASCII UsernameExamples.taken (λ _, 7)
    "Alice" = "alice4" ∧
  DeriveUsernameForOAuth LanguageExamples.lowerASCII UsernameExamples.taken (λ _, 7)
    "google" "" "bob@example.com" "Bob" = "bob" ∧
  DeriveUsernameForOAuth LanguageExamples.lowerASCII UsernameExamples.taken (λ _, 7)
    "google" "" "@example.com" "" = "examplecom" ∧
  core.pad4 7 = "0007".
Proof. repeat split; vm_compute; reflexivity. Qed.

End UsernameProofs.

(** ** Provider defaults and scopes *)
Module ProviderProofs.
Import oidcproviders.

Lemma ensureOpenID_spec scopes :
  "openid" ∈ ensureOpenID scopes ∧
  (∀ s, s ∈ ensureOpenID scopes ↔ s ∈ scopes ∨ s = "openid") ∧
  ensureOpenID (ensureOpenID scopes) = ensureOpenID scopes ∧
  (NoDup scopes → NoDup (ensureOpenID scopes)).
Proof.
  unfold ensureOpenID at 1 2 4 5 6.
  destruct (existsb _ scopes) eqn:He.
  - assert ("openid" ∈ scopes) as Hin.
    { apply existsb_exists in He as (x & Hx & Heq).
      apply bool_decide_eq_true_1 in Heq as ->. by apply list_elem_of_In. }
    split; [done|]. split; [intros s; split; [auto|by intros [?| ->]]|].
    split; [|done]. unfold ensureOpenID. by rewrite He.
  - assert ("openid" ∉ scopes) as Hnot.
    { intros Hin. apply list_elem_of_In in Hin.
      assert (existsb (λ s, bool_decide (s = "openid")) scopes = true) as Ht.
      { apply existsb_exists. exists "openid". split; [done|by apply bool_decide_eq_true_2]. }
      congruence. }
    split; [apply elem_of_app; right; left|].
    split.
    { intros s. rewrite elem_of_app, list_elem_of_singleton. done. }
    split.
    + unfold ensureOpenID.
      assert (existsb (λ s, bool_decide (s = "openid")) (scopes ++ ["openid"]) = true)
        as ->; [|done].
      apply existsb_exists. exists "openid".
      split; [apply in_or_app; right; by left|by apply bool_decide_eq_true_2].
    + intros Hnd. apply NoDup_app. split; [done|]. split.
      * intros x Hx Hx'. apply list_elem_of_singleton in Hx' as ->. done.
      * apply NoDup_singleton.
Qed.

Section Proofs.
Variable keysInOrder : gset string → list string.
Hypothesis keysInOrder_spec :
  ∀ set, NoDup (keysInOrder set) ∧ ∀ s, s ∈ keysInOrder set ↔ s ∈ set.

Lemma fold_scopes l : ∀ (set : gset string) s,
  s ∈ fold_left (λ set s, {[ s ]} ∪ set) l set ↔ s ∈ l ∨ s ∈ set.
Proof.
  induction l as [|x l IH]; intros set s; cbn [fold_left].
  - split; [auto|]. intros [H|H]; [by apply elem_of_nil in H|done].
  - rewrite IH, elem_of_union, elem_of_singleton, elem_of_cons. tauto.
Qed.

Lemma mergeScopes_spec base extra :
  NoDup (mergeScopes keysInOrder base extra) ∧
  ∀ s, s ∈ mergeScopes keysInOrder base extra ↔ s ∈ base ∨ s ∈ extra.
Proof.
  unfold mergeScopes. destruct (keysInOrder_spec
    (fold_left (λ set s, {[ s ]} ∪ set) extra
       (fold_left (λ set s, {[ s ]} ∪ set) base ∅))) as [Hnd Hin].
  split; [done|]. intros s. rewrite Hin, !fold_scopes.
  rewrite elem_of_empty. tauto.
Qed.

(** The configuration NewManagerFromMinimal builds has an entry exactly for
    the providers google, apple and discord among those given; the others
    are dropped without an error.  An entry carries the client id, the
    secret and the secret provider given and the issuer of the provider;
    its scopes are the provider's default scopes, the scopes given and
    openid (which is added for discord too), each once, whatever order the
    map iteration takes. *)
Theorem manager_configs_cover_known_providers
  (min : gmap string RPConfig) (name : string) :
  match managerConfigs keysInOrder min !! name with
  | Some client =>
      ∃ m base, min !! name = Some m ∧ DefaultsFor name = Some base ∧
        name ∈ ["google"; "apple"; "discord"] ∧
        rpIssuer client = rpIssuer base ∧
        rpClientID client = ClientID m ∧ rpClientSecret client = ClientSecret m ∧
        rpClientSecretProvider client = SecretProvider m ∧
        rpExtraAuthParams client = rpExtraAuthParams base ∧
        (∀ s, s ∈ rpScopes client ↔ s ∈ rpScopes base ∨ s ∈ Scopes m ∨ s = "openid") ∧
        NoDup (rpScopes client)
  | None => min !! name = None ∨ name ∉ ["google"; "apple"; "discord"]
  end.
Proof.
  unfold managerConfigs. rewrite map_lookup_imap.
  destruct (min !! name) as [m|] eqn:Hm; cbn [mbind option_bind]; [|by left].
  unfold clientFor.
  destruct (DefaultsFor name) as [base|] eqn:Hbase.
  - assert (name ∈ ["google"; "apple"; "discord"] ∧ NoDup (rpScopes base)) as [Hname Hnd].
    { unfold DefaultsFor in Hbase.
      repeat case_bool_decide; simplify_eq; cbn [rpScopes];
        split; by apply (bool_decide_unpack _). }
    exists m, base. cbn [rpIssuer rpClientID rpClientSecret rpClientSecretProvider
                          rpExtraAuthParams rpScopes].
    do 8 (split; [done|]).
    set (scopes := if (0 <? length (Scopes m))%nat then _ else rpScopes base).
    assert (NoDup scopes ∧ ∀ s, s ∈ scopes ↔ s ∈ rpScopes base ∨ s ∈ Scopes m) as [Hnd' Hin].
    { subst scopes. destruct (Scopes m) as [|x xs] eqn:Hs; cbn [length Nat.ltb Nat.leb].
      - split; [done|]. intros s. rewrite elem_of_nil. tauto.
      - apply mergeScopes_spec. }
    destruct (ensureOpenID_spec scopes) as (_ & Hens & _ & Hndens).
    split; [|by apply Hndens].
    intros s. rewrite Hens, Hin. tauto.
  - right. unfold DefaultsFor in Hbase.
    repeat case_bool_decide; simplify_eq.
    rewrite !elem_of_cons, elem_of_nil. tauto.
Qed.

End Proofs.

Lemma manager_configs_cover_known_providers_witness :
  let min : gmap string RPConfig :=
    {[ "discord" := mkRPConfig "client-1" "secret" None ["guilds"; "email"];
       "github" := mkRPConfig "client-2" "secret" None [] ]} in
  match managerConfigs elements min !! "discord" with
  | Some client =>
      ∃ m base, min !! "discord" = Some m ∧ DefaultsFor "discord" = Some base ∧
        "discord" ∈ ["google"; "apple"; "discord"] ∧
        rpIssuer client = rpIssuer base ∧
        rpClientID client = ClientID m ∧ rpClientSecret client = ClientSecret m ∧
        rpClientSecretProvider client = SecretProvider m ∧
        rpExtraAuthParams client = rpExtraAuthParams base ∧
        (∀ s, s ∈ rpScopes client ↔ s ∈ rpScopes base ∨ s ∈ Scopes m ∨ s = "openid") ∧
        NoDup (rpScopes client)
  | None => min !! "discord" = None ∨ "discord" ∉ ["google"; "apple"; "discord"]
  end.
Proof.
  apply (manager_configs_cover_known_providers elements).
  intros set. split; [apply NoDup_elements|]. intros s. apply elem_of_elements.
Defined.

End ProviderProofs.
